(** * The query planner of RMDB (src/optimizer/planner.cpp) and the
      sequential scan executor (src/execution/executor_seq_scan.h)

    A shallow embedding of the SELECT planning pipeline
    ([get_index_cols], [pop_conds], [push_conds], [pop_scan],
    [make_one_rel], the greedy join ordering, the filter and projection
    refiners, [generate_sort_plan]) and of [SeqScanExecutor], followed by
    the properties established about them. *)

From Stdlib Require Import List String Ascii Bool Arith ZArith Lia.
From Stdlib Require Import Permutation Sorted.
From Stdlib Require OrdersEx.
From Stdlib Require Import Floats.PrimFloat Floats.FloatOps Floats.SpecFloat
  Floats.FloatAxioms.
From Stdlib Require Import Numbers.Cyclic.Int63.Uint63.
Import ListNotations.
Local Open Scope string_scope.
Local Open Scope list_scope.

Set Implicit Arguments.

(* ===================================================================== *)
(** ** Outcomes of a call: normal return, C++ exception, or no return *)
(* ===================================================================== *)

(** The exceptions the embedded code can raise. [RMDBError] carries the
    message given at the [throw]. *)
Inductive Exception : Type :=
| RMDBError (msg : string)
| InternalError (msg : string)
| TableNotFoundError (tab : string)
| RecordNotFoundError.

(** [Ret] is a normal return, [Throw] a C++ exception that leaves the
    function, [Diverge] a loop that never exits, [Undefined] an access
    the C++ standard leaves undefined (null dereference, index past the
    end of a vector). *)
Inductive outcome (A : Type) : Type :=
| Ret (a : A)
| Throw (e : Exception)
| Diverge
| Undefined.

Arguments Ret {A} a.
Arguments Throw {A} e.
Arguments Diverge {A}.
Arguments Undefined {A}.

Definition bind {A B : Type} (m : outcome A) (k : A -> outcome B) : outcome B :=
  match m with
  | Ret a => k a
  | Throw e => Throw e
  | Diverge => Diverge
  | Undefined => Undefined
  end.

Declare Scope outcome_scope.
Delimit Scope outcome_scope with outcome.
Notation "x <- m ;; k" := (bind m (fun x => k))
  (at level 61, m at next level, right associativity) : outcome_scope.
Notation "' p <- m ;; k" := (bind m (fun x => match x with p => k end))
  (at level 61, p pattern, m at next level, right associativity) : outcome_scope.
Local Open Scope outcome_scope.

(** [try { m } catch (...) { return d; }] *)
Definition try_catch_all {A : Type} (m : outcome A) (d : A) : outcome A :=
  match m with
  | Throw _ => Ret d
  | other => other
  end.

(* ===================================================================== *)
(** ** Data model *)
(* ===================================================================== *)

Inductive CompOp : Type := OP_EQ | OP_NE | OP_LT | OP_GT | OP_LE | OP_GE.

Definition CompOp_eqb (a b : CompOp) : bool :=
  match a, b with
  | OP_EQ, OP_EQ | OP_NE, OP_NE | OP_LT, OP_LT
  | OP_GT, OP_GT | OP_LE, OP_LE | OP_GE, OP_GE => true
  | _, _ => false
  end.

Record TabCol : Type := mkTabCol { tab_name : string; col_name : string }.

(** The literal of a condition. The planner only copies it. A Float64
    literal is kept as its 64-bit pattern. *)
Inductive Value : Type :=
| VInt (i : Z)
| VFloat (bits : Z)
| VString (s : string)
| VBool (b : bool).

(** [struct Condition]: the planner reads [rhs_col.tab_name] whatever
    [is_rhs_val] says, so both right-hand sides are fields. *)
Record Condition : Type := mkCond {
  lhs_col : TabCol;
  op : CompOp;
  is_rhs_val : bool;
  rhs_col : TabCol;
  rhs_val : Value
}.

Definition TabCol_eqb (a b : TabCol) : bool :=
  String.eqb (tab_name a) (tab_name b) && String.eqb (col_name a) (col_name b).

Definition Value_eqb (a b : Value) : bool :=
  match a, b with
  | VInt x, VInt y => Z.eqb x y
  | VFloat x, VFloat y => Z.eqb x y
  | VString x, VString y => String.eqb x y
  | VBool x, VBool y => Bool.eqb x y
  | _, _ => false
  end.

Definition Condition_eqb (a b : Condition) : bool :=
  TabCol_eqb (lhs_col a) (lhs_col b) && CompOp_eqb (op a) (op b)
  && Bool.eqb (is_rhs_val a) (is_rhs_val b)
  && TabCol_eqb (rhs_col a) (rhs_col b) && Value_eqb (rhs_val a) (rhs_val b).

Record ColMeta : Type := mkColMeta { cm_tab_name : string; cm_name : string }.

(** The part of [TabMeta] the planner uses: the column list and the
    index test [is_index], whose body lives in the catalog and is taken
    as given. *)
Record TabMeta : Type := mkTabMeta {
  tm_cols : list ColMeta;
  is_index : list string -> bool
}.

(** [RmFileHdr], as far as [estimate_table_cardinality] reads it. Both
    fields are C [int]s. *)
Record RmFileHdr : Type := mkFileHdr {
  num_pages : Z;
  num_records_per_page : Z
}.

(** A file handle, of which the planner calls [get_file_hdr] only. The
    call is given with its outcome, so that a failing read can be
    stated. *)
Record RmFileHandle : Type := mkFileHandle {
  get_file_hdr : outcome RmFileHdr
}.

(** The catalog view: [db_.get_table] throws [TableNotFoundError] on an
    unknown name ([None] here); [fhs_] maps the open tables to their
    file handles. *)
Record SmManager : Type := mkSm {
  db_get_table : string -> option TabMeta;
  fhs_ : string -> option RmFileHandle
}.

Definition get_table (sm : SmManager) (tab : string) : outcome TabMeta :=
  match db_get_table sm tab with
  | Some t => Ret t
  | None => Throw (TableNotFoundError tab)
  end.

Inductive PlanTag : Type :=
| T_SeqScan | T_IndexScan | T_NestLoop | T_SortMerge
| T_Sort | T_Projection | T_Filter.

(** Modelled from the spec: the plan classes of plan.h are not among the
    source files; a [ScanPlan] has the fields
    [{ kind, table_name, conds, fed_conds, index_cols }] and its
    constructor stores the condition list twice, as [conds_] and as
    [fed_conds_]. *)
Record ScanPlan : Type := mkScanPlan {
  scan_tag : PlanTag;
  tab_name_ : string;
  conds_ : list Condition;
  fed_conds_ : list Condition;
  index_col_names_ : list string
}.

Definition new_ScanPlan (tag : PlanTag) (tab : string)
    (conds : list Condition) (index_col_names : list string) : ScanPlan :=
  mkScanPlan tag tab conds conds index_col_names.

(** A [std::shared_ptr<Plan>]: [PNull] is the null pointer, the other
    constructors the dynamic types the walkers test for. *)
Inductive Plan : Type :=
| PNull
| PScan (s : ScanPlan)
| PJoin (tag : PlanTag) (left_ right_ : Plan) (jconds : list Condition)
| PFilter (subplan_ : Plan) (fconds : list Condition)
| PProjection (subplan_ : Plan) (sel_cols_ : list TabCol)
| PSort (subplan_ : Plan) (sel_col_ : TabCol) (is_desc_ : bool).

Inductive OrderByDir : Type := OrderBy_DEFAULT | OrderBy_ASC | OrderBy_DESC.

Record OrderBy : Type := mkOrderBy {
  ob_col_name : string;
  orderby_dir : OrderByDir
}.

(** [ast::SelectStmt], as far as the planner reads it. [order] is a
    shared pointer, null without an ORDER BY clause. *)
Record SelectStmt : Type := mkSelect {
  has_sort : bool;
  order : option OrderBy
}.

(** The planner's input for a SELECT statement. *)
Record Query : Type := mkQuery {
  parse : SelectStmt;
  tables : list string;
  cols : list TabCol;
  conds : list Condition;
  is_select_star : bool
}.

Definition set_conds (q : Query) (cs : list Condition) : Query :=
  mkQuery (parse q) (tables q) (cols q) cs (is_select_star q).

Definition set_tables (q : Query) (ts : list string) : Query :=
  mkQuery (parse q) ts (cols q) (conds q) (is_select_star q).

(* ===================================================================== *)
(** ** [std::set<std::string>] as a strictly increasing list *)
(* ===================================================================== *)

Fixpoint set_insert (x : string) (s : list string) : list string :=
  match s with
  | [] => [x]
  | y :: s' =>
      match String.compare x y with
      | Lt => x :: s
      | Eq => s
      | Gt => y :: set_insert x s'
      end
  end.

Definition set_count (x : string) (s : list string) : bool :=
  existsb (String.eqb x) s.

(* ===================================================================== *)
(** ** Index matching: [Planner::get_index_cols] *)
(* ===================================================================== *)

Definition op_supports_index (o : CompOp) : bool :=
  match o with
  | OP_EQ | OP_LT | OP_GT | OP_LE | OP_GE | OP_NE => true
  end.

(** The first loop: the set [indexed_columns]. *)
Definition indexed_columns (tab : string) (curr_conds : list Condition)
  : list string :=
  fold_left
    (fun acc cond =>
       if is_rhs_val cond && String.eqb (tab_name (lhs_col cond)) tab
       then if op_supports_index (op cond)
            then set_insert (col_name (lhs_col cond)) acc
            else acc
       else acc)
    curr_conds [].

(** The search for a single-column index, in the order of the vector. *)
Fixpoint find_single_col_index (tab : TabMeta) (cs : list string)
  : option (list string) :=
  match cs with
  | [] => None
  | col :: cs' =>
      if is_index tab [col] then Some [col]
      else find_single_col_index tab cs'
  end.

(** Returns the boolean result together with the final content of the
    output parameter [index_col_names]. *)
Definition get_index_cols (sm : SmManager) (tab : string)
    (curr_conds : list Condition) : outcome (bool * list string) :=
  let index_col_names := indexed_columns tab curr_conds in
  tabm <- get_table sm tab ;;
  match index_col_names with
  | [] => Ret (false, index_col_names)
  | _ :: _ =>
      match find_single_col_index tabm index_col_names with
      | Some single_col => Ret (true, single_col)
      | None =>
          if is_index tabm index_col_names
          then Ret (true, index_col_names)
          else Ret (false, index_col_names)
      end
  end.

(* ===================================================================== *)
(** ** Predicate classification: [pop_conds] *)
(* ===================================================================== *)

Definition pops (tab : string) (c : Condition) : bool :=
  (String.eqb tab (tab_name (lhs_col c)) && is_rhs_val c)
  || String.eqb (tab_name (lhs_col c)) (tab_name (rhs_col c)).

(** Returns [(solved_conds, conds)]: the removed conditions and what is
    left of the list passed by reference, both in their original order. *)
Fixpoint pop_conds (conds : list Condition) (tab : string)
  : list Condition * list Condition :=
  match conds with
  | [] => ([], [])
  | c :: rest =>
      let '(solved, remaining) := pop_conds rest tab in
      if pops tab c then (c :: solved, remaining)
      else (solved, c :: remaining)
  end.

(* ===================================================================== *)
(** ** Attaching a condition to the join tree: [push_conds] *)
(* ===================================================================== *)

(** The table [std::map<CompOp, CompOp> swap_op], written out twice in
    the source (in [push_conds] and in [make_one_rel]) with the same six
    entries; [swap_op.at] finds every operator. *)
Definition swap_op (o : CompOp) : CompOp :=
  match o with
  | OP_EQ => OP_EQ
  | OP_NE => OP_NE
  | OP_LT => OP_GT
  | OP_GT => OP_LT
  | OP_LE => OP_GE
  | OP_GE => OP_LE
  end.

(** [std::swap(cond->lhs_col, cond->rhs_col); cond->op = swap_op.at(cond->op);] *)
Definition swap_sides (c : Condition) : Condition :=
  mkCond (rhs_col c) (swap_op (op c)) (is_rhs_val c) (lhs_col c) (rhs_val c).

(** The integer result and the plan after the call (the join node that
    takes the condition is updated in place in the source). A plan that
    is neither a scan nor a join falls through to [return false]. *)
Fixpoint push_conds (cond : Condition) (plan : Plan) : Z * Plan :=
  match plan with
  | PScan x =>
      if String.eqb (tab_name_ x) (tab_name (lhs_col cond)) then (1, plan)
      else if String.eqb (tab_name_ x) (tab_name (rhs_col cond)) then (2, plan)
      else (0, plan)
  | PJoin tag l r cs =>
      let '(left_res, l') := push_conds cond l in
      if left_res =? 3 then (3, PJoin tag l' r cs)
      else
        let '(right_res, r') := push_conds cond r in
        if right_res =? 3 then (3, PJoin tag l' r' cs)
        else if (left_res =? 0) || (right_res =? 0)
             then (left_res + right_res, PJoin tag l' r' cs)
             else
               let cond' := if left_res =? 2 then swap_sides cond else cond in
               (3, PJoin tag l' r' (cs ++ [cond']))
  | _ => (0, plan)
  end%Z.

(* ===================================================================== *)
(** ** Taking a scan out of the per-table array: [pop_scan] *)
(* ===================================================================== *)

Fixpoint set_nth {A : Type} (i : nat) (v : A) (l : list A) : list A :=
  match l, i with
  | [], _ => []
  | _ :: l', O => v :: l'
  | x :: l', S i' => x :: set_nth i' v l'
  end.

(** Index of the first scan on [table]. *)
Fixpoint find_scan (table : string) (plans : list ScanPlan) (i : nat)
  : option nat :=
  match plans with
  | [] => None
  | x :: rest =>
      if String.eqb (tab_name_ x) table then Some i
      else find_scan table rest (S i)
  end.

(** The usage array [scantbl] and [joined_tables] are updated through
    the pointer and the reference; the result is the popped plan (null
    when no scan is on [table]) with both after the call. *)
Definition pop_scan (scantbl : list Z) (table : string)
    (joined_tables : list string) (plans : list ScanPlan)
  : Plan * list Z * list string :=
  match find_scan table plans 0 with
  | Some i =>
      match nth_error plans i with
      | Some x => (PScan x, set_nth i 1%Z scantbl, joined_tables ++ [tab_name_ x])
      | None => (PNull, scantbl, joined_tables)
      end
  | None => (PNull, scantbl, joined_tables)
  end.

(* ===================================================================== *)
(** ** The physical builder: [Planner::make_one_rel] *)
(* ===================================================================== *)

(** The two process-wide flags read at join-algorithm selection. *)
Record Knobs : Type := mkKnobs {
  enable_nestedloop_join : bool;
  enable_sortmerge_join : bool
}.

(** First phase: one scan per table, in the order of [tables]. Returns
    the scans and what is left of [query->conds]. *)
Fixpoint make_scans (sm : SmManager) (tabs : list string)
    (cs : list Condition) : outcome (list ScanPlan * list Condition) :=
  match tabs with
  | [] => Ret ([], cs)
  | t :: ts =>
      let '(curr_conds, rest) := pop_conds cs t in
      '(index_exist, index_col_names) <- get_index_cols sm t curr_conds ;;
      let scan :=
        if index_exist
        then new_ScanPlan T_IndexScan t curr_conds index_col_names
        else new_ScanPlan T_SeqScan t curr_conds []
      in
      '(scans, rest') <- make_scans sm ts rest ;;
      Ret (scan :: scans, rest')
  end.

Definition is_null (p : Plan) : bool :=
  match p with PNull => true | _ => false end.

Definition mem_string (x : string) (l : list string) : bool :=
  existsb (String.eqb x) l.

(** The join algorithm of the seed join. *)
Definition select_join_tag (k : Knobs) : outcome PlanTag :=
  if enable_nestedloop_join k && enable_sortmerge_join k then Ret T_NestLoop
  else if enable_nestedloop_join k then Ret T_NestLoop
  else if enable_sortmerge_join k then Ret T_SortMerge
  else Throw (RMDBError "No join executor selected!").

(** The state the second phase threads through its loops. *)
Record JoinState : Type := mkJoinState {
  table_join_executors : Plan;
  scantbl : list Z;
  joined_tables : list string
}.

(** The seed: the join of the two tables of the first condition. *)
Definition seed_join (k : Knobs) (scans : list ScanPlan) (n : nat)
    (it : Condition) : outcome JoinState :=
  let scantbl0 := repeat (-1)%Z n in
  let joined0 := repeat EmptyString n in
  let '(left_plan, scantbl1, joined1) :=
    pop_scan scantbl0 (tab_name (lhs_col it)) joined0 scans in
  let '(right_plan, scantbl2, joined2) :=
    pop_scan scantbl1 (tab_name (rhs_col it)) joined1 scans in
  tag <- select_join_tag k ;;
  Ret (mkJoinState (PJoin tag left_plan right_plan [it]) scantbl2 joined2).

(** One round of the extension loop, for the condition [it]. *)
Definition extend_join (scans : list ScanPlan) (st : JoinState)
    (it : Condition) : JoinState :=
  let '(left_need, scantbl1, joined1) :=
    if negb (mem_string (tab_name (lhs_col it)) (joined_tables st))
    then pop_scan (scantbl st) (tab_name (lhs_col it)) (joined_tables st) scans
    else (PNull, scantbl st, joined_tables st) in
  let '(right_need, isneedreverse, scantbl2, joined2) :=
    if negb (mem_string (tab_name (rhs_col it)) joined1)
    then let '(p, s, j) :=
           pop_scan scantbl1 (tab_name (rhs_col it)) joined1 scans in
         (p, true, s, j)
    else (PNull, false, scantbl1, joined1) in
  if negb (is_null left_need) && negb (is_null right_need) then
    let temp_join_executors := PJoin T_NestLoop left_need right_need [it] in
    mkJoinState
      (PJoin T_NestLoop temp_join_executors (table_join_executors st) [])
      scantbl2 joined2
  else if negb (is_null left_need) || negb (is_null right_need) then
    let '(it', new_side) :=
      if isneedreverse then (swap_sides it, right_need)
      else (it, left_need) in
    mkJoinState
      (PJoin T_NestLoop new_side (table_join_executors st) [it'])
      scantbl2 joined2
  else
    mkJoinState (snd (push_conds it (table_join_executors st)))
                scantbl2 joined2.

(** Third phase: every table still marked [-1] is put on top of the
    tree, as the left child of a join without conditions. *)
Fixpoint cartesian_attach (scans : list ScanPlan) (tbl : list Z)
    (root : Plan) : Plan :=
  match scans, tbl with
  | x :: scans', used :: tbl' =>
      if (used =? -1)%Z
      then cartesian_attach scans' tbl' (PJoin T_NestLoop (PScan x) root [])
      else cartesian_attach scans' tbl' root
  | _, _ => root
  end.

(** The join tree before the Cartesian attachment: seed and extension
    loop, or the first scan when no condition is left. *)
Definition join_phase (k : Knobs) (scans : list ScanPlan)
    (cs : list Condition) : outcome JoinState :=
  let n := List.length scans in
  match cs with
  | it :: rest =>
      st <- seed_join k scans n it ;;
      Ret (fold_left (extend_join scans) rest st)
  | [] =>
      match scans with
      | x :: _ =>
          Ret (mkJoinState (PScan x) (set_nth 0 1%Z (repeat (-1)%Z n)) [])
      | [] => Undefined
      end
  end.

(** Returns the plan and the query as the call leaves it: [conds] loses
    the single-table conditions, and is moved out (left empty) once the
    join phase starts. *)
Definition make_one_rel (sm : SmManager) (k : Knobs) (query : Query)
  : outcome (Plan * Query) :=
  '(table_scan_executors, rest) <- make_scans sm (tables query) (conds query) ;;
  match table_scan_executors with
  | [x] => Ret (PScan x, set_conds query rest)
  | _ =>
      st <- join_phase k table_scan_executors rest ;;
      Ret (cartesian_attach table_scan_executors (scantbl st)
                            (table_join_executors st),
           set_conds query [])
  end.

(* ===================================================================== *)
(** ** Cardinality estimation: [Planner::estimate_table_cardinality] *)
(* ===================================================================== *)

Definition SIZE_MAX : Z := 2 ^ 64 - 1.

(** Conversion of an [int] to [size_t]. *)
Definition to_size_t (i : Z) : Z := i mod 2 ^ 64.

(** Conversion of a [size_t] to [double], rounding to nearest. Values
    from [2^63] on are halved with a sticky last bit, converted and
    doubled, which rounds as the direct conversion does. *)
Definition size_t_to_double (x : Z) : float :=
  if (x <? 2 ^ 63)%Z
  then PrimFloat.of_uint63 (Uint63.of_Z x)
  else PrimFloat.mul
         (PrimFloat.of_uint63 (Uint63.of_Z (Z.lor (x / 2) (x mod 2))))
         (PrimFloat.of_uint63 2%uint63).

(** Conversion of a non-negative [double] to [size_t]: the fraction is
    dropped. *)
Definition double_to_size_t (f : float) : Z :=
  match Prim2SF f with
  | S754_finite false m e =>
      if (0 <=? e)%Z then (Z.pos m * 2 ^ e)%Z else (Z.pos m / 2 ^ (- e))%Z
  | _ => 0%Z
  end.

(** The [double] literal [0.7]. *)
Definition utilization : float := 0x1.6666666666666p-1%float.

(** The estimate computed from a header: the page count without the
    header page, times the records per page, times [0.7] in [double],
    cut to a [size_t], and [1] when that is [0]. *)
Definition estimate_of_hdr (file_hdr : RmFileHdr) : Z :=
  let estimated_pages :=
    if (num_pages file_hdr >? 1)%Z then (num_pages file_hdr - 1)%Z else 0%Z in
  let estimated_records :=
    double_to_size_t
      (PrimFloat.mul
         (size_t_to_double
            ((estimated_pages * to_size_t (num_records_per_page file_hdr))
               mod 2 ^ 64)%Z)
         utilization) in
  if (estimated_records >? 0)%Z then estimated_records else 1%Z.

Definition estimate_table_cardinality (sm : SmManager) (table_name : string)
  : outcome Z :=
  try_catch_all
    (match fhs_ sm table_name with
     | None => Ret 1000%Z
     | Some file_handle =>
         file_hdr <- get_file_hdr file_handle ;;
         Ret (estimate_of_hdr file_hdr)
     end)
    1000%Z.

(* ===================================================================== *)
(** ** Greedy join ordering *)
(* ===================================================================== *)

(** An entry [std::pair<std::string, size_t>] of [table_stats]. *)
Abbreviation stat := (string * Z)%type (only parsing).

(** [std::sort] with the comparison [a.second < b.second]. The order it
    gives to entries of equal cardinality is not fixed by the language;
    the model is the insertion sort the library runs on ranges of up to
    16 entries, which keeps them in their input order. On longer ranges
    the library may order entries of equal cardinality differently;
    the properties below use the sort on lists of up to 16 entries, for
    cardinalities that are pairwise different, or only as far as it
    returns a permutation ordered by cardinality. *)
Fixpoint sort_insert (x : stat) (l : list stat) : list stat :=
  match l with
  | [] => [x]
  | y :: l' => if (snd x <? snd y)%Z then x :: l else y :: sort_insert x l'
  end.

Definition std_sort (l : list stat) : list stat :=
  fold_left (fun acc x => sort_insert x acc) l [].

(** [cardinality_map[table]]: the last entry written for [table], and
    the default [0] of [operator[]] when there is none. *)
Definition cardinality_map (table_stats : list stat) (table : string) : Z :=
  fold_left
    (fun acc st => if String.eqb (fst st) table then snd st else acc)
    table_stats 0%Z.

(** [join_graph[t].count(u)] *)
Definition join_graph (conditions : list Condition) (t u : string) : bool :=
  existsb
    (fun cond =>
       negb (is_rhs_val cond)
       && ((String.eqb (tab_name (lhs_col cond)) t
            && String.eqb (tab_name (rhs_col cond)) u)
           || (String.eqb (tab_name (rhs_col cond)) t
               && String.eqb (tab_name (lhs_col cond)) u)))
    conditions.

Definition has_join_condition (conditions : list Condition)
    (used_tables : list string) (table : string) : bool :=
  existsb (join_graph conditions table) used_tables.

Definition other_tables_have_joins (table_stats : list stat)
    (conditions : list Condition) (used_tables : list string)
    (table : string) : bool :=
  existsb
    (fun other_stat =>
       negb (set_count (fst other_stat) used_tables
             || String.eqb (fst other_stat) table)
       && has_join_condition conditions used_tables (fst other_stat))
    table_stats.

(** One round of the [for] loop that looks for [best_table]; the
    accumulator is [(best_table, min_cost)]. *)
Definition consider (table_stats : list stat) (conditions : list Condition)
    (used_tables : list string) (acc : string * Z) (st : stat) : string * Z :=
  let table := fst st in
  if set_count table used_tables then acc
  else if negb (has_join_condition conditions used_tables table)
          && other_tables_have_joins table_stats conditions used_tables table
       then acc
       else
         let cost := cardinality_map table_stats table in
         if (cost <? snd acc)%Z then (table, cost) else acc.

(** The [while] loop. A round in which every table of [sorted_stats] is
    already used changes nothing, so the loop never exits: [Diverge].
    [fuel] bounds the rounds; each round that returns adds a table. *)
Fixpoint greedy_loop (fuel : nat) (table_stats sorted_stats : list stat)
    (conditions : list Condition) (result used_tables : list string)
  : outcome (list string) :=
  if (List.length used_tables <? List.length table_stats)%nat then
    match fuel with
    | O => Diverge
    | S fuel' =>
        let best_table :=
          fst (fold_left (consider table_stats conditions used_tables)
                         table_stats (EmptyString, SIZE_MAX)) in
        if negb (String.eqb best_table EmptyString) then
          greedy_loop fuel' table_stats sorted_stats conditions
                      (result ++ [best_table]) (set_insert best_table used_tables)
        else
          match find (fun st => negb (set_count (fst st) used_tables))
                     sorted_stats with
          | Some st =>
              greedy_loop fuel' table_stats sorted_stats conditions
                          (result ++ [fst st]) (set_insert (fst st) used_tables)
          | None => Diverge
          end
    end
  else Ret result.

Definition greedy_join_order_optimization (table_stats : list stat)
    (conditions : list Condition) : outcome (list string) :=
  if (List.length table_stats <=? 2)%nat then
    Ret (map fst (std_sort table_stats))
  else
    let sorted_stats := std_sort table_stats in
    match sorted_stats with
    | s0 :: s1 :: _ =>
        greedy_loop (List.length table_stats) table_stats sorted_stats
                    conditions [fst s0; fst s1]
                    (set_insert (fst s1) (set_insert (fst s0) []))
    | [s0] =>
        greedy_loop (List.length table_stats) table_stats sorted_stats
                    conditions [fst s0] (set_insert (fst s0) [])
    | [] => Undefined
    end.

(** The statistics loop of [join_order_optimization]: an estimate that
    throws is replaced by [1000]. *)
Fixpoint collect_table_stats (sm : SmManager) (tabs : list string)
  : outcome (list stat) :=
  match tabs with
  | [] => Ret []
  | table_name :: rest =>
      estimated_cardinality <-
        try_catch_all (estimate_table_cardinality sm table_name) 1000%Z ;;
      stats <- collect_table_stats sm rest ;;
      Ret ((table_name, estimated_cardinality) :: stats)
  end.

Definition join_order_optimization (sm : SmManager) (query : Query)
  : outcome Query :=
  if (List.length (tables query) <=? 2)%nat then Ret query
  else
    table_stats <- collect_table_stats sm (tables query) ;;
    optimized_tables <- greedy_join_order_optimization table_stats (conds query) ;;
    Ret (set_tables query optimized_tables).

(** [predicate_pushdown] and [projection_pushdown] return the query as
    they got it. *)
Definition predicate_pushdown (query : Query) : Query := query.
Definition projection_pushdown (query : Query) : Query := query.

Definition logical_optimization (sm : SmManager) (query : Query)
  : outcome Query :=
  join_order_optimization sm (projection_pushdown (predicate_pushdown query)).

(* ===================================================================== *)
(** ** The predicate-pushdown refiner *)
(* ===================================================================== *)

Fixpoint extract_conditions_from_plan (plan : Plan) : list Condition :=
  match plan with
  | PScan scan_plan => conds_ scan_plan
  | PJoin _ l r _ =>
      extract_conditions_from_plan l ++ extract_conditions_from_plan r
  | _ => []
  end.

Definition clear_conds (s : ScanPlan) : ScanPlan :=
  mkScanPlan (scan_tag s) (tab_name_ s) [] (fed_conds_ s) (index_col_names_ s).

Definition clear_conds_and_fed_conds (s : ScanPlan) : ScanPlan :=
  mkScanPlan (scan_tag s) (tab_name_ s) [] [] (index_col_names_ s).

Fixpoint clear_conditions_from_plan (plan : Plan) : Plan :=
  match plan with
  | PScan scan_plan => PScan (clear_conds scan_plan)
  | PJoin tag l r cs =>
      PJoin tag (clear_conditions_from_plan l) (clear_conditions_from_plan r) cs
  | _ => plan
  end.

Fixpoint collect_table_names_from_plan (plan : Plan) (table_names : list string)
  : list string :=
  match plan with
  | PScan scan_plan => set_insert (tab_name_ scan_plan) table_names
  | PJoin _ l r _ =>
      collect_table_names_from_plan r (collect_table_names_from_plan l table_names)
  | PFilter sub _ => collect_table_names_from_plan sub table_names
  | PProjection sub _ => collect_table_names_from_plan sub table_names
  | _ => table_names
  end.

Definition is_empty {A : Type} (l : list A) : bool :=
  match l with [] => true | _ => false end.

(** The conditions a scan node hands to the filter put above it. *)
Definition table_conditions (scan_plan : ScanPlan) : list Condition :=
  filter
    (fun cond =>
       is_rhs_val cond
       && String.eqb (tab_name (lhs_col cond)) (tab_name_ scan_plan))
    (conds_ scan_plan).

(** [push_filters_down]; the [query] argument is not read. *)
Fixpoint push_filters_down (plan : Plan) : Plan :=
  match plan with
  | PJoin tag l r cs =>
      let l1 := push_filters_down l in
      let r1 := push_filters_down r in
      let all_conditions := extract_conditions_from_plan (PJoin tag l1 r1 cs) in
      let left_tables := collect_table_names_from_plan l1 [] in
      let right_tables := collect_table_names_from_plan r1 [] in
      let left_conditions :=
        filter (fun cond =>
                  is_rhs_val cond
                  && set_count (tab_name (lhs_col cond)) left_tables)
               all_conditions in
      let right_conditions :=
        filter (fun cond =>
                  is_rhs_val cond
                  && negb (set_count (tab_name (lhs_col cond)) left_tables)
                  && set_count (tab_name (lhs_col cond)) right_tables)
               all_conditions in
      let l2 := if is_empty left_conditions then l1
                else PFilter l1 left_conditions in
      let r2 := if is_empty right_conditions then r1
                else PFilter r1 right_conditions in
      clear_conditions_from_plan (PJoin tag l2 r2 cs)
  | PScan scan_plan =>
      if is_empty (table_conditions scan_plan) then plan
      else PFilter (PScan (clear_conds_and_fed_conds scan_plan))
                   (table_conditions scan_plan)
  | _ => plan
  end.

Definition apply_predicate_pushdown (plan : Plan) (query : Query) : Plan :=
  push_filters_down plan.

(* ===================================================================== *)
(** ** The projection-pushdown refiner *)
(* ===================================================================== *)

(** [tab_name + "." + col_name] *)
Definition qualified (c : TabCol) : string :=
  tab_name c ++ "." ++ col_name c.

Definition insert_cond_columns (acc : list string) (cond : Condition)
  : list string :=
  let acc1 := set_insert (qualified (lhs_col cond)) acc in
  if is_rhs_val cond then acc1
  else set_insert (qualified (rhs_col cond)) acc1.

Fixpoint collect_join_columns_from_plan (plan : Plan)
    (join_columns : list string) : list string :=
  match plan with
  | PJoin _ l r cs =>
      collect_join_columns_from_plan r
        (collect_join_columns_from_plan l
           (fold_left insert_cond_columns cs join_columns))
  | PProjection sub _ => collect_join_columns_from_plan sub join_columns
  | PFilter sub _ => collect_join_columns_from_plan sub join_columns
  | _ => join_columns
  end.

(** [needed_col.find('.')] with the two [substr] calls: the text before
    the first dot and the text after it. *)
Fixpoint split_dot (s : string) : option (string * string) :=
  match s with
  | EmptyString => None
  | String c s' =>
      if Ascii.eqb c "."%char then Some (EmptyString, s')
      else match split_dot s' with
           | Some (a, b) => Some (String c a, b)
           | None => None
           end
  end.

Definition table_needed_cols (table_name : string)
    (needed_columns : list string) : list TabCol :=
  flat_map
    (fun needed_col =>
       match split_dot needed_col with
       | Some (tab, col) =>
           if String.eqb tab table_name then [mkTabCol tab col] else []
       | None => []
       end)
    needed_columns.

(** [insert_project_nodes]; the [select_cols] argument is not read. A
    failing catalog lookup is caught and the projection added. *)
Fixpoint insert_project_nodes (sm : SmManager) (plan : Plan)
    (needed_columns : list string) : Plan :=
  match plan with
  | PJoin tag l r cs =>
      PJoin tag (insert_project_nodes sm l needed_columns)
                (insert_project_nodes sm r needed_columns) cs
  | PFilter sub cs => PFilter (insert_project_nodes sm sub needed_columns) cs
  | PScan scan_plan =>
      let needed := table_needed_cols (tab_name_ scan_plan) needed_columns in
      if is_empty needed then plan
      else match db_get_table sm (tab_name_ scan_plan) with
           | Some tab =>
               if (List.length needed =? List.length (tm_cols tab))%nat
               then plan
               else PProjection plan needed
           | None => PProjection plan needed
           end
  | _ => plan
  end.

Definition apply_projection_pushdown (sm : SmManager) (plan : Plan)
    (query : Query) : Plan :=
  match plan with
  | PNull => plan
  | _ =>
      let needed_columns :=
        collect_join_columns_from_plan plan
          (fold_left insert_cond_columns (conds query)
             (fold_left (fun acc col => set_insert (qualified col) acc)
                        (cols query) [])) in
      let plan1 :=
        if (1 <? List.length (tables query))%nat
           && negb (is_select_star query)
           && (0 <? List.length (cols query))%nat
        then insert_project_nodes sm plan needed_columns
        else plan in
      PProjection plan1 (cols query)
  end.

(* ===================================================================== *)
(** ** The sort generator and the SELECT pipeline *)
(* ===================================================================== *)

Fixpoint all_cols_of (sm : SmManager) (tabs : list string)
  : outcome (list ColMeta) :=
  match tabs with
  | [] => Ret []
  | sel_tab_name :: rest =>
      tab <- get_table sm sel_tab_name ;;
      more <- all_cols_of sm rest ;;
      Ret (tm_cols tab ++ more)
  end.

Definition OrderByDir_eqb (a b : OrderByDir) : bool :=
  match a, b with
  | OrderBy_DEFAULT, OrderBy_DEFAULT
  | OrderBy_ASC, OrderBy_ASC
  | OrderBy_DESC, OrderBy_DESC => true
  | _, _ => false
  end.

Definition generate_sort_plan (sm : SmManager) (query : Query) (plan : Plan)
  : outcome Plan :=
  if negb (has_sort (parse query)) then Ret plan
  else
    all_cols <- all_cols_of sm (tables query) ;;
    match order (parse query) with
    | None => Undefined
    | Some ob =>
        let sel_col :=
          match find (fun col => String.eqb (cm_name col) (ob_col_name ob))
                     all_cols with
          | Some col => mkTabCol (cm_tab_name col) (cm_name col)
          | None => mkTabCol EmptyString EmptyString
          end in
        Ret (PSort plan sel_col (OrderByDir_eqb (orderby_dir ob) OrderBy_DESC))
    end.

Definition physical_optimization (sm : SmManager) (k : Knobs) (query : Query)
  : outcome Plan :=
  '(plan, query1) <- make_one_rel sm k query ;;
  let plan1 := apply_predicate_pushdown plan query1 in
  let plan2 := apply_projection_pushdown sm plan1 query1 in
  generate_sort_plan sm query1 plan2.

Definition generate_select_plan (sm : SmManager) (k : Knobs) (query : Query)
  : outcome Plan :=
  query1 <- logical_optimization sm query ;;
  physical_optimization sm k query1.

(* ===================================================================== *)
(** ** The sequential scan executor *)
(* ===================================================================== *)

Module SeqScan.
Section Executor.

(** The record type and the evaluation of a condition list on a record
    ([eval_conds] of the executor base class) are taken as given. *)
Variable RmRecord : Type.
Variable eval_conds : list ColMeta -> list Condition -> RmRecord -> bool.

(** A record id is the position of the record in the file, the file
    handle the sequence of the records stored, and an [RmScan] the
    position it stands at: [is_end] past the last record, [next] one
    position further, [rid] the position itself. *)
Definition Rid : Type := nat.

Record SeqScanExecutor : Type := mkExec {
  tab_name_ : string;
  conds_ : list Condition;
  fh_ : list RmRecord;
  cols_ : list ColMeta;
  fed_conds_ : list Condition;
  rid_ : Rid;
  scan_ : option nat
}.

Definition get_record (fh : list RmRecord) (rid : Rid) : outcome RmRecord :=
  match nth_error fh rid with
  | Some rec => Ret rec
  | None => Throw RecordNotFoundError
  end.

(** The loop shared by [beginTuple] and [nextTuple]: from position
    [pos], with [remaining] the records from there on, stop at the
    first record that satisfies [fed_conds_]. Returns the position of
    the scan and the value of [rid_]. *)
Fixpoint seek (cols : list ColMeta) (fed : list Condition)
    (remaining : list RmRecord) (pos : nat) (rid : Rid) : nat * Rid :=
  match remaining with
  | [] => (pos, rid)
  | rec :: rest =>
      if eval_conds cols fed rec then (pos, pos)
      else seek cols fed rest (S pos) pos
  end.

Definition with_scan (e : SeqScanExecutor) (pos : nat) (rid : Rid)
  : SeqScanExecutor :=
  mkExec (tab_name_ e) (conds_ e) (fh_ e) (cols_ e) (fed_conds_ e)
         rid (Some pos).

Definition beginTuple (e : SeqScanExecutor) : SeqScanExecutor :=
  let '(pos, rid) := seek (cols_ e) (fed_conds_ e) (fh_ e) 0 (rid_ e) in
  with_scan e pos rid.

Definition nextTuple (e : SeqScanExecutor) : outcome SeqScanExecutor :=
  match scan_ e with
  | None => Throw (InternalError "Scan not initialized at SeqScanExecutor")
  | Some pos =>
      let pos1 :=
        if (pos <? List.length (fh_ e))%nat then S pos else pos in
      let '(pos2, rid) :=
        seek (cols_ e) (fed_conds_ e) (skipn pos1 (fh_ e)) pos1 (rid_ e) in
      Ret (with_scan e pos2 rid)
  end.

Definition is_end (e : SeqScanExecutor) : bool :=
  match scan_ e with
  | None => true
  | Some pos => (List.length (fh_ e) <=? pos)%nat
  end.

(** Returns the record ([None] for the null pointer) and the executor
    after the call. *)
Definition Next (e : SeqScanExecutor)
  : outcome (option RmRecord * SeqScanExecutor) :=
  let e1 := match scan_ e with
            | None => beginTuple e
            | Some _ => e
            end in
  if is_end e1 then Ret (None, e1)
  else
    record <- get_record (fh_ e1) (rid_ e1) ;;
    Ret (Some record, e1).

End Executor.
End SeqScan.

(* ===================================================================== *)
(** * Vocabulary of the properties, and the inputs of the examples *)
(* ===================================================================== *)

Definition col (t c : string) : TabCol := mkTabCol t c.

(** [t.c = u.d], a condition between two columns. *)
Definition col_cond (t c : string) (o : CompOp) (u d : string) : Condition :=
  mkCond (col t c) o false (col u d) (VInt 0).

(** [t.c o v], a condition against the literal [v]. *)
Definition val_cond (t c : string) (o : CompOp) (v : Z) : Condition :=
  mkCond (col t c) o true (col EmptyString EmptyString) (VInt v).

(** A table without indexes. *)
Definition plain_table (t : string) (cs : list string) : TabMeta :=
  mkTabMeta (map (mkColMeta t) cs) (fun _ => false).

Definition open_file (pages per_page : Z) : option RmFileHandle :=
  Some (mkFileHandle (Ret (mkFileHdr pages per_page))).

(** Tables [a(k, x)], [b(k)], [c(k)] of about 1000, 10 and 100 rows. *)
Definition sm_abc : SmManager :=
  mkSm (fun t =>
          if String.eqb t "a" then Some (plain_table "a" ["k"; "x"])
          else if String.eqb t "b" then Some (plain_table "b" ["k"])
          else if String.eqb t "c" then Some (plain_table "c" ["k"])
          else None)
       (fun t =>
          if String.eqb t "a" then open_file 11 143
          else if String.eqb t "b" then open_file 2 15
          else if String.eqb t "c" then open_file 2 143
          else None).

Definition both_on : Knobs := mkKnobs true true.
Definition both_off : Knobs := mkKnobs false false.

(** A table [t(a, b)] without any index. *)
Definition sm_t : SmManager :=
  mkSm (fun t => if String.eqb t "t" then Some (plain_table "t" ["a"; "b"])
                 else None)
       (fun _ => None).

(** What is left of the condition list once every table has taken its
    conditions. *)
Definition residual_conds (tabs : list string) (cs : list Condition)
  : list Condition :=
  fold_left (fun cs t => snd (pop_conds cs t)) tabs cs.

Definition is_join (p : Plan) : bool :=
  match p with PJoin _ _ _ _ => true | _ => false end.

(** No join node has a join node as its right child. *)
Fixpoint left_deep (p : Plan) : bool :=
  match p with
  | PJoin _ l r _ => negb (is_join r) && left_deep l && left_deep r
  | PFilter sub _ => left_deep sub
  | PProjection sub _ => left_deep sub
  | PSort sub _ _ => left_deep sub
  | _ => true
  end.

(** The chain [a.k = b.k AND b.k = c.k] over [a], [b], [c]. *)
Definition chain_query : Query :=
  mkQuery (mkSelect false None) ["a"; "b"; "c"] [col "a" "k"]
          [col_cond "a" "k" OP_EQ "b" "k"; col_cond "b" "k" OP_EQ "c" "k"]
          false.

Definition scan_of (t : string) : Plan := PScan (new_ScanPlan T_SeqScan t [] []).

(** The conditions a plan holds in its [conds_] fields: on the scans, on
    the joins and on the filters. *)
Fixpoint plan_conditions (p : Plan) : list Condition :=
  match p with
  | PNull => []
  | PScan s => conds_ s
  | PJoin _ l r cs => cs ++ plan_conditions l ++ plan_conditions r
  | PFilter sub cs => cs ++ plan_conditions sub
  | PProjection sub _ => plan_conditions sub
  | PSort sub _ _ => plan_conditions sub
  end.

(** The conditions its scans hold in [fed_conds_]. *)
Fixpoint plan_fed_conditions (p : Plan) : list Condition :=
  match p with
  | PNull => []
  | PScan s => fed_conds_ s
  | PJoin _ l r _ => plan_fed_conditions l ++ plan_fed_conditions r
  | PFilter sub _ => plan_fed_conditions sub
  | PProjection sub _ => plan_fed_conditions sub
  | PSort sub _ _ => plan_fed_conditions sub
  end.

Definition occurrences (c : Condition) (l : list Condition) : nat :=
  List.length (filter (Condition_eqb c) l).

(** [SELECT * FROM a WHERE a.x = 5 AND a.x = a.k] *)
Definition two_predicates_query : Query :=
  mkQuery (mkSelect false None) ["a"] [col "a" "k"; col "a" "x"]
          [val_cond "a" "x" OP_EQ 5; col_cond "a" "x" OP_EQ "a" "k"] true.

(** [b.k = 5] as a literal condition whose unused [rhs_col] names the
    table [b] as well. *)
Definition literal_on_b : Condition :=
  mkCond (col "b" "k") OP_EQ true (col "b" "k") (VInt 5).

Definition literal_on_b_query : Query :=
  mkQuery (mkSelect false None) ["a"; "b"] [col "a" "k"; col "b" "k"]
          [literal_on_b] true.

(** A file of the records 1, 7, 3, 9 scanned for the records above 5:
    the first call of [Next] returns 7. *)
Definition above_five (_ : list ColMeta) (_ : list Condition) (r : Z) : bool :=
  (5 <? r)%Z.

Definition fresh_executor : SeqScan.SeqScanExecutor Z :=
  SeqScan.mkExec "t" [] [1; 7; 3; 9]%Z [] [] 0 None.

(** The table order [join_order_optimization] writes into the query. *)
Definition join_order (sm : SmManager) (query : Query) : outcome (list string) :=
  query1 <- join_order_optimization sm query ;;
  Ret (tables query1).

(** Tables [a], [b], [c], [d] estimated at 1, 2, 5 and 5 rows. *)
Definition sm_ties : SmManager :=
  mkSm (fun t => Some (plain_table t ["k"]))
       (fun t =>
          if String.eqb t "a" then open_file 2 2
          else if String.eqb t "b" then open_file 2 3
          else open_file 2 8).

Definition tables_query (tabs : list string) : Query :=
  mkQuery (mkSelect false None) tabs [] [] true.

(* ===================================================================== *)
(** * Vocabulary of the further properties *)
(* ===================================================================== *)

(** The order of [std::set<std::string>]. *)
Definition string_lt (a b : string) : Prop := String.compare a b = Lt.

(** A list in strictly increasing order, as the iteration of a set. *)
Definition strictly_increasing (l : list string) : Prop :=
  StronglySorted string_lt l.

(** The candidate test of the first loop of [get_index_cols]. *)
Definition offers_column (tab : string) (c : string) (cond : Condition) : Prop :=
  is_rhs_val cond = true
  /\ tab_name (lhs_col cond) = tab
  /\ col_name (lhs_col cond) = c.

(** The scans of a plan, from left to right. *)
Fixpoint plan_scans (p : Plan) : list ScanPlan :=
  match p with
  | PNull => []
  | PScan s => [s]
  | PJoin _ l r _ => plan_scans l ++ plan_scans r
  | PFilter sub _ => plan_scans sub
  | PProjection sub _ => plan_scans sub
  | PSort sub _ _ => plan_scans sub
  end.

Definition scan_tables (p : Plan) : list string :=
  map tab_name_ (plan_scans p).

(** A catalog entry whose [is_index] answers for the column lists of
    [indexes]. *)
Definition indexed_table (t : string) (cs : list string)
    (indexes : list (list string)) : TabMeta :=
  mkTabMeta (map (mkColMeta t) cs)
            (fun names =>
               existsb (fun i => if list_eq_dec string_dec i names
                                 then true else false)
                       indexes).

(** A table [t(a, b)] with a single-column index on [b]. *)
Definition sm_index_on_b : SmManager :=
  mkSm (fun t => if String.eqb t "t"
                 then Some (indexed_table "t" ["a"; "b"] [["b"]])
                 else None)
       (fun _ => None).

(** A plan made of scans and joins only, without null pointer: the
    shape of the tree during the join phase of [make_one_rel]. *)
Fixpoint scan_join_only (p : Plan) : bool :=
  match p with
  | PScan _ => true
  | PJoin _ l r _ => scan_join_only l && scan_join_only r
  | _ => false
  end.

(** What [push_conds] has to answer for a tree: [3] when both tables of
    the condition are scanned in it, [1] for the left-hand table alone,
    [2] for the right-hand table alone, [0] for neither. *)
Definition owner_code (cond : Condition) (p : Plan) : Z :=
  match mem_string (tab_name (lhs_col cond)) (scan_tables p),
        mem_string (tab_name (rhs_col cond)) (scan_tables p) with
  | true, true => 3
  | true, false => 1
  | false, true => 2
  | false, false => 0
  end%Z.

(** The scans marked as used in the array [scantbl], and the others. *)
Fixpoint used_scans (scans : list ScanPlan) (tbl : list Z) : list ScanPlan :=
  match scans, tbl with
  | x :: scans', used :: tbl' =>
      if (used =? -1)%Z then used_scans scans' tbl'
      else x :: used_scans scans' tbl'
  | _, _ => []
  end.

Fixpoint unused_scans (scans : list ScanPlan) (tbl : list Z) : list ScanPlan :=
  match scans, tbl with
  | x :: scans', used :: tbl' =>
      if (used =? -1)%Z then x :: unused_scans scans' tbl'
      else unused_scans scans' tbl'
  | _, _ => []
  end.

(** The conditions held by the join nodes of a plan. *)
Fixpoint plan_join_conds (p : Plan) : list Condition :=
  match p with
  | PJoin _ l r cs => cs ++ plan_join_conds l ++ plan_join_conds r
  | PFilter sub _ => plan_join_conds sub
  | PProjection sub _ => plan_join_conds sub
  | PSort sub _ _ => plan_join_conds sub
  | _ => []
  end.

(** [c'] states the predicate [c], as it is or with its sides reversed. *)
Definition same_predicate (c c' : Condition) : Prop :=
  c' = c \/ c' = swap_sides c.

(** The conditions [cs'] are the conditions [cs], each once, in some
    order and each possibly with its sides reversed. *)
Definition same_predicates (cs cs' : list Condition) : Prop :=
  exists l0 l,
    Permutation cs l0 /\ Forall2 same_predicate l0 l /\ Permutation l cs'.

(** Every condition of a join node has its left-hand table scanned in
    the left subtree and its right-hand table in the right subtree. *)
Fixpoint oriented (p : Plan) : Prop :=
  match p with
  | PJoin _ l r cs =>
      Forall (fun c => In (tab_name (lhs_col c)) (scan_tables l)
                       /\ In (tab_name (rhs_col c)) (scan_tables r)) cs
      /\ oriented l /\ oriented r
  | PFilter sub _ => oriented sub
  | PProjection sub _ => oriented sub
  | PSort sub _ _ => oriented sub
  | _ => True
  end.

(** Both tables of the condition are tables of the query. *)
Definition tables_known (tabs : list string) (c : Condition) : Prop :=
  In (tab_name (lhs_col c)) tabs /\ In (tab_name (rhs_col c)) tabs.

(** The state of the join phase after some conditions [placed], for the
    scans [scans]. *)
Record join_invariant (scans : list ScanPlan) (placed : list Condition)
    (st : JoinState) : Prop := mkJoinInvariant {
  inv_shape : scan_join_only (table_join_executors st) = true;
  inv_length : List.length (scantbl st) = List.length scans;
  inv_flags : Forall (fun f => f = 1%Z \/ f = (-1)%Z) (scantbl st);
  inv_scans : Permutation (plan_scans (table_join_executors st))
                          (used_scans scans (scantbl st));
  inv_marked : forall i x,
      nth_error scans i = Some x ->
      nth_error (scantbl st) i = Some 1%Z ->
      In (tab_name_ x) (joined_tables st);
  inv_joined : forall t,
      In t (joined_tables st) ->
      t = EmptyString \/ In t (scan_tables (table_join_executors st));
  inv_in_tree : forall t,
      In t (scan_tables (table_join_executors st)) -> In t (joined_tables st);
  inv_nodup : NoDup (scan_tables (table_join_executors st));
  inv_oriented : oriented (table_join_executors st);
  inv_conds : exists l,
      Forall2 same_predicate placed l
      /\ Permutation l (plan_join_conds (table_join_executors st))
}.

(** The join tree of [chain_query]. *)
Definition chain_plan : Plan :=
  PJoin T_NestLoop (scan_of "c")
        (PJoin T_NestLoop (scan_of "a") (scan_of "b")
               [col_cond "a" "k" OP_EQ "b" "k"])
        [col_cond "c" "k" OP_EQ "b" "k"].

(** No scan that is reached through join nodes only holds a condition
    in [conds_]. *)
Fixpoint bare (p : Plan) : bool :=
  match p with
  | PScan s => is_empty (conds_ s)
  | PJoin _ l r _ => bare l && bare r
  | _ => true
  end.

(** The plans that [push_filters_down] leaves as they are. *)
Fixpoint settled (p : Plan) : bool :=
  match p with
  | PScan s => is_empty (table_conditions s)
  | PJoin _ l r _ => settled l && settled r && bare l && bare r
  | _ => true
  end.

(** Every filter node holds at least one condition, and only literal
    conditions on tables scanned below it. *)
Fixpoint filters_on_scanned_tables (p : Plan) : Prop :=
  match p with
  | PJoin _ l r _ => filters_on_scanned_tables l /\ filters_on_scanned_tables r
  | PFilter sub cs =>
      cs <> []
      /\ Forall (fun c => is_rhs_val c = true
                          /\ In (tab_name (lhs_col c)) (scan_tables sub)) cs
      /\ filters_on_scanned_tables sub
  | PProjection sub _ => filters_on_scanned_tables sub
  | PSort sub _ _ => filters_on_scanned_tables sub
  | _ => True
  end.

(** Every condition held by a scan is a literal condition on the table
    of the scan. *)
Definition literal_scans (p : Plan) : Prop :=
  Forall (fun s =>
            Forall (fun c => is_rhs_val c = true
                             /\ tab_name (lhs_col c) = tab_name_ s)
                   (conds_ s))
         (plan_scans p).

(** The estimate as the specification words it, in exact arithmetic:
    [max(1, (num_pages - 1) * records_per_page * 0.7)], cut to an
    integer. *)
Definition claimed_estimate (file_hdr : RmFileHdr) : Z :=
  Z.max 1 ((num_pages file_hdr - 1) * num_records_per_page file_hdr * 7 / 10).

(** The conditions held by the filter nodes of a plan. *)
Fixpoint plan_filter_conds (p : Plan) : list Condition :=
  match p with
  | PJoin _ l r _ => plan_filter_conds l ++ plan_filter_conds r
  | PFilter sub cs => cs ++ plan_filter_conds sub
  | PProjection sub _ => plan_filter_conds sub
  | PSort sub _ _ => plan_filter_conds sub
  | _ => []
  end.

(** A literal condition as the grammar gives it, [col op value]: it
    has no column on its right-hand side, so [rhs_col] does not name
    the table of the left-hand side. *)
Definition literal_apart (c : Condition) : Prop :=
  is_rhs_val c = true -> tab_name (lhs_col c) <> tab_name (rhs_col c).

(** Every literal condition held by a scan is a condition on the table
    of that scan. *)
Definition own_literals (p : Plan) : Prop :=
  Forall (fun s =>
            Forall (fun c => is_rhs_val c = true ->
                             tab_name (lhs_col c) = tab_name_ s)
                   (conds_ s))
         (plan_scans p).

(** A condition stored on the scan [s] stands in a filter node of the
    plan [result]: the conditions of [s] were hoisted. *)
Definition hoisted (result : Plan) (s : ScanPlan) : Prop :=
  exists c, In c (conds_ s) /\ In c (plan_filter_conds result).

(** The scan [s'] of the refined plan [result] is the scan [s] with its
    tag, table and index columns, and with both condition lists empty
    when the conditions of [s] were hoisted. *)
Definition scan_refined (result : Plan) (s s' : ScanPlan) : Prop :=
  scan_tag s' = scan_tag s
  /\ tab_name_ s' = tab_name_ s
  /\ index_col_names_ s' = index_col_names_ s
  /\ (hoisted result s -> conds_ s' = [] /\ fed_conds_ s' = []).

(** The chain of [chain_query] with the literal predicate [b.k > 5],
    and its join tree. *)
Definition filtered_chain_query : Query :=
  mkQuery (mkSelect false None) ["a"; "b"; "c"] [col "a" "k"]
          [val_cond "b" "k" OP_GT 5;
           col_cond "a" "k" OP_EQ "b" "k"; col_cond "b" "k" OP_EQ "c" "k"]
          false.

Definition filtered_chain_plan : Plan :=
  PJoin T_NestLoop (scan_of "c")
        (PJoin T_NestLoop (scan_of "a")
               (PScan (new_ScanPlan T_SeqScan "b" [val_cond "b" "k" OP_GT 5] []))
               [col_cond "a" "k" OP_EQ "b" "k"])
        [col_cond "c" "k" OP_EQ "b" "k"].

(** [SELECT * FROM a, b WHERE a.x = 5 AND a.x = a.k AND a.k = b.k], and
    its join tree: the scan on [a] holds a literal condition and a
    condition between two of its columns. *)
Definition mixed_query : Query :=
  mkQuery (mkSelect false None) ["a"; "b"] [col "a" "k"; col "b" "k"]
          [val_cond "a" "x" OP_EQ 5; col_cond "a" "x" OP_EQ "a" "k";
           col_cond "a" "k" OP_EQ "b" "k"]
          true.

Definition mixed_plan : Plan :=
  PJoin T_NestLoop
        (PScan (new_ScanPlan T_SeqScan "a"
                  [val_cond "a" "x" OP_EQ 5; col_cond "a" "x" OP_EQ "a" "k"] []))
        (scan_of "b")
        [col_cond "a" "k" OP_EQ "b" "k"].

(** The string holds a dot. *)
Fixpoint has_dot (s : string) : bool :=
  match s with
  | EmptyString => false
  | String c s' => Ascii.eqb c "."%char || has_dot s'
  end.

(** Every projection node stands directly above a scan and lists at
    least one column, only columns of the table of that scan, each of
    them among the needed columns, and not as many columns as the
    catalog has for the table. *)
Fixpoint projections_pruned (sm : SmManager) (needed : list string)
    (p : Plan) : Prop :=
  match p with
  | PJoin _ l r _ =>
      projections_pruned sm needed l /\ projections_pruned sm needed r
  | PFilter sub _ => projections_pruned sm needed sub
  | PProjection sub sel_cols =>
      match sub with
      | PScan s =>
          sel_cols <> []
          /\ Forall (fun c => tab_name c = tab_name_ s
                              /\ In (qualified c) needed) sel_cols
          /\ (forall tab, db_get_table sm (tab_name_ s) = Some tab ->
                          List.length sel_cols <> List.length (tm_cols tab))
      | _ => False
      end
  | PSort sub _ _ => projections_pruned sm needed sub
  | _ => True
  end.

(** Ordered by cardinality, as [std::sort] leaves [sorted_stats]. *)
Definition by_cardinality (l : list stat) : Prop :=
  StronglySorted (fun a b => (snd a <= snd b)%Z) l.

(** The test of the candidate loop of [greedy_join_order_optimization]:
    the table is not used yet, and it is joined with a used table or no
    other table that is left is. *)
Definition eligible (table_stats : list stat) (conditions : list Condition)
    (used_tables : list string) (table : string) : bool :=
  negb (set_count table used_tables)
  && (has_join_condition conditions used_tables table
      || negb (other_tables_have_joins table_stats conditions used_tables table)).

(** The place of [table] after the tables [placed], before [later]. *)
Definition greedy_choice (table_stats : list stat) (conditions : list Condition)
    (placed : list string) (table : string) (later : list string) : Prop :=
  (has_join_condition conditions placed table = false ->
   Forall (fun u => has_join_condition conditions placed u = false) later)
  /\ Forall (fun u =>
               has_join_condition conditions placed u
               = has_join_condition conditions placed table ->
               (cardinality_map table_stats table
                <= cardinality_map table_stats u)%Z)
            later.

(** Four tables of which only [a] and [d] are joined. *)
Definition star_stats : list stat :=
  [("a", 1%Z); ("b", 2%Z); ("c", 5%Z); ("d", 7%Z)].

Definition star_conds : list Condition := [col_cond "a" "k" OP_EQ "d" "k"].

(** The loop that reads a scan to its end: while the executor is not at
    its end, take the record of [Next] and move on with [nextTuple].
    The result is the sequence of the records taken. *)
Section ScanLoop.

Variable RmRecord : Type.
Variable eval_conds : list ColMeta -> list Condition -> RmRecord -> bool.

Fixpoint drain (fuel : nat) (e : SeqScan.SeqScanExecutor RmRecord)
  : outcome (list RmRecord) :=
  if SeqScan.is_end e then Ret []
  else
    match fuel with
    | O => Diverge
    | S fuel' =>
        '(record, e1) <- SeqScan.Next eval_conds e ;;
        e2 <- SeqScan.nextTuple eval_conds e1 ;;
        records <- drain fuel' e2 ;;
        Ret (match record with
             | Some rec => rec :: records
             | None => records
             end)
    end.

End ScanLoop.

(** The scan of [fresh_executor] after [beginTuple] and three calls of
    [nextTuple]: at its end. *)
Definition finished_executor : SeqScan.SeqScanExecutor Z :=
  SeqScan.mkExec "t" [] [1; 7; 3; 9]%Z [] [] 3 (Some 4%nat).

(** Where the bits shifted out of a significand lie: [rem] is their
    value, [half2] the weight of the last bit kept, [r] and [s] the
    round and the sticky bit. *)
Definition loc_ok (half2 rem : Z) (r s : bool) : Prop :=
  match r, s with
  | false, false => rem = 0%Z
  | false, true => (0 < 2 * rem < half2)%Z
  | true, false => (2 * rem = half2)%Z
  | true, true => (half2 < 2 * rem)%Z
  end.

(** The record [mrs] is the significand [m0] shifted right by [k] bits. *)
Definition shr_inv (m0 : Z) (k : Z) (mrs : shr_record) : Prop :=
  (0 <= shr_m mrs)%Z
  /\ exists rem,
       (m0 = shr_m mrs * 2 ^ k + rem)%Z
       /\ (0 <= rem < 2 ^ k)%Z
       /\ (k = 0%Z -> shr_r mrs = false /\ shr_s mrs = false)
       /\ loc_ok (2 ^ k) rem (shr_r mrs) (shr_s mrs).

(* ===================================================================== *)
(** * Properties *)
(* ===================================================================== *)

(** ** Basic facts on the strings and the outcomes *)

Lemma bind_Ret_inv {A B : Type} (m : outcome A) (k : A -> outcome B) (b : B) :
  bind m k = Ret b -> exists a, m = Ret a /\ k a = Ret b.
Proof.
  destruct m as [a| | |]; simpl; intros H; try discriminate.
  exists a. split; [reflexivity | exact H].
Qed.

Lemma set_insert_not_nil (x : string) (s : list string) : set_insert x s <> [].
Proof.
  destruct s as [|y s]; simpl; [discriminate|].
  destruct (String.compare x y); discriminate.
Qed.

(* ===================================================================== *)
(** ** The comparison swap (C7) *)
(* ===================================================================== *)

(** A join node reports [3] only when the condition was attached in it
    or below it; with any other answer the plan is as before. *)
Lemma push_conds_unchanged (cond : Condition) (plan : Plan) :
  fst (push_conds cond plan) <> 3%Z -> snd (push_conds cond plan) = plan.
Proof.
  induction plan as [|x|tag l IHl r IHr cs|sub IH cs|sub IH cs|sub IH c d];
    simpl; intros H; try reflexivity.
  - destruct (String.eqb _ _); [reflexivity|].
    destruct (String.eqb _ _); reflexivity.
  - destruct (push_conds cond l) as [left_res l'] eqn:El.
    destruct (left_res =? 3)%Z eqn:E3; [simpl in H; congruence|].
    destruct (push_conds cond r) as [right_res r'] eqn:Er.
    destruct (right_res =? 3)%Z eqn:E3'; [simpl in H; congruence|].
    apply Z.eqb_neq in E3, E3'. simpl in IHl, IHr.
    destruct ((left_res =? 0)%Z || (right_res =? 0)%Z); simpl in *.
    + rewrite (IHl E3), (IHr E3'). reflexivity.
    + congruence.
Qed.

(** C7. The swap mapping of the comparison operators exchanges [LT] with
    [GT] and [LE] with [GE], keeps [EQ] and [NE], and is an involution.
    Where the planner reverses a condition it uses this mapping on the
    operator and exchanges [lhs_col] with [rhs_col]: in [make_one_rel]
    when one table is new and it is the right-hand one, and in
    [push_conds] when the left subtree holds the right-hand table. *)
Theorem swap_op_involution_and_use :
  (forall o, swap_op (swap_op o) = o)
  /\ (swap_op OP_EQ = OP_EQ /\ swap_op OP_NE = OP_NE
      /\ swap_op OP_LT = OP_GT /\ swap_op OP_GT = OP_LT
      /\ swap_op OP_LE = OP_GE /\ swap_op OP_GE = OP_LE)
  /\ (forall scans st it x tbl joined,
         mem_string (tab_name (lhs_col it)) (joined_tables st) = true ->
         mem_string (tab_name (rhs_col it)) (joined_tables st) = false ->
         pop_scan (scantbl st) (tab_name (rhs_col it)) (joined_tables st) scans
           = (PScan x, tbl, joined) ->
         extend_join scans st it
         = mkJoinState
             (PJoin T_NestLoop (PScan x) (table_join_executors st)
                    [mkCond (rhs_col it) (swap_op (op it)) (is_rhs_val it)
                            (lhs_col it) (rhs_val it)])
             tbl joined)
  /\ (forall cond tag l r cs,
         fst (push_conds cond l) = 2%Z ->
         fst (push_conds cond r) <> 0%Z ->
         fst (push_conds cond r) <> 3%Z ->
         push_conds cond (PJoin tag l r cs)
         = (3%Z,
            PJoin tag l r
                  (cs ++ [mkCond (rhs_col cond) (swap_op (op cond))
                                 (is_rhs_val cond) (lhs_col cond)
                                 (rhs_val cond)]))).
Proof.
  split; [intros []; reflexivity|].
  split; [repeat split|].
  split.
  - intros scans st it x tbl joined Hl Hr Hpop.
    unfold extend_join. rewrite Hl. simpl negb. cbv iota.
    rewrite Hr. simpl negb. cbv iota. rewrite Hpop. reflexivity.
  - intros cond tag l r cs Hl Hr0 Hr3.
    assert (Hl' : snd (push_conds cond l) = l)
      by (apply push_conds_unchanged; rewrite Hl; discriminate).
    assert (Hr' : snd (push_conds cond r) = r)
      by (apply push_conds_unchanged; exact Hr3).
    simpl.
    destruct (push_conds cond l) as [left_res l'].
    destruct (push_conds cond r) as [right_res r'].
    simpl in *. subst.
    apply Z.eqb_neq in Hr0, Hr3. rewrite Hr0, Hr3. reflexivity.
Qed.

(** The reversal at work. In [make_one_rel]: [b] is in the tree, [c] is
    new and stands on the right of [b.k < c.k]; the join gets
    [c.k > b.k]. In [push_conds]: the left subtree scans [b], the
    right-hand table of [a.k < b.k]; the join gets [b.k > a.k]. *)
Lemma swap_op_involution_and_use_witness :
  (let scans := [new_ScanPlan T_SeqScan "a" [] [];
                 new_ScanPlan T_SeqScan "b" [] [];
                 new_ScanPlan T_SeqScan "c" [] []] in
   let root := PJoin T_NestLoop (PScan (new_ScanPlan T_SeqScan "a" [] []))
                     (PScan (new_ScanPlan T_SeqScan "b" [] []))
                     [col_cond "a" "k" OP_EQ "b" "k"] in
   let st := mkJoinState root [1; 1; -1]%Z [""; ""; ""; "a"; "b"] in
   extend_join scans st (col_cond "b" "k" OP_LT "c" "k")
   = mkJoinState
       (PJoin T_NestLoop (PScan (new_ScanPlan T_SeqScan "c" [] [])) root
              [col_cond "c" "k" OP_GT "b" "k"])
       [1; 1; 1]%Z [""; ""; ""; "a"; "b"; "c"])
  /\ push_conds (col_cond "a" "k" OP_LT "b" "k")
                (PJoin T_NestLoop (scan_of "b") (scan_of "a") [])
     = (3%Z, PJoin T_NestLoop (scan_of "b") (scan_of "a")
                   [col_cond "b" "k" OP_GT "a" "k"]).
Proof.
  split.
  - intros scans st0 st.
    apply (proj1 (proj2 (proj2 swap_op_involution_and_use))
             scans st (col_cond "b" "k" OP_LT "c" "k")
             (new_ScanPlan T_SeqScan "c" [] [])); reflexivity.
  - apply (proj2 (proj2 (proj2 swap_op_involution_and_use))
             (col_cond "a" "k" OP_LT "b" "k") T_NestLoop
             (scan_of "b") (scan_of "a") []);
      [reflexivity | vm_compute; discriminate | vm_compute; discriminate].
Defined.

(* ===================================================================== *)
(** ** The index-match oracle (C5) *)
(* ===================================================================== *)

(** [get_index_cols] answers [false] for [t.a = 5] on a table without
    index, and the list it hands back holds the candidate [a]. *)
Lemma get_index_cols_false_not_empty :
  get_index_cols sm_t "t" [val_cond "t" "a" OP_EQ 5] = Ret (false, ["a"])
  /\ ["a"] <> @nil string.
Proof. split; [reflexivity | discriminate]. Qed.

(** The scan that [make_scans] builds for the first table. *)
Lemma make_scans_head (sm : SmManager) (t : string) (ts : list string)
    (cs : list Condition) (scans : list ScanPlan) (rest : list Condition) :
  make_scans sm (t :: ts) cs = Ret (scans, rest) ->
  exists index_exist index_col_names scans',
    get_index_cols sm t (fst (pop_conds cs t))
      = Ret (index_exist, index_col_names)
    /\ scans =
         (if index_exist
          then new_ScanPlan T_IndexScan t (fst (pop_conds cs t)) index_col_names
          else new_ScanPlan T_SeqScan t (fst (pop_conds cs t)) [])
         :: scans'.
Proof.
  simpl. destruct (pop_conds cs t) as [curr_conds rest0]. simpl.
  intros H. apply bind_Ret_inv in H. destruct H as [[ie icn] [Hg H]].
  apply bind_Ret_inv in H. destruct H as [[scans' rest'] [_ H]].
  inversion H; subst. exists ie, icn, scans'. split; [exact Hg | reflexivity].
Qed.

(** C5, amended. When [get_index_cols] returns [false], the list it
    leaves in [index_col_names] is the list of the candidate columns
    (the columns of the table compared with a literal, sorted, each
    once); it is empty only when there is no candidate. [make_one_rel]
    clears the list before it builds the scan, which is a [SeqScan] with
    empty [index_col_names_]. *)
Theorem get_index_cols_false_candidates (sm : SmManager) (tab : string)
    (curr_conds : list Condition) (index_col_names : list string) :
  get_index_cols sm tab curr_conds = Ret (false, index_col_names) ->
  index_col_names = indexed_columns tab curr_conds
  /\ (forall ts cs scans rest,
         fst (pop_conds cs tab) = curr_conds ->
         make_scans sm (tab :: ts) cs = Ret (scans, rest) ->
         exists x scans',
           scans = x :: scans'
           /\ scan_tag x = T_SeqScan /\ index_col_names_ x = []).
Proof.
  intros H. split.
  - unfold get_index_cols in H.
    apply bind_Ret_inv in H. destruct H as [tabm [_ H]].
    destruct (indexed_columns tab curr_conds) as [|c cs] eqn:E.
    + inversion H. reflexivity.
    + destruct (find_single_col_index tabm (c :: cs)); [discriminate|].
      destruct (is_index tabm (c :: cs)); inversion H. reflexivity.
  - intros ts cs scans rest Hc Hm.
    apply make_scans_head in Hm.
    destruct Hm as [ie [icn [scans' [Hg Hs]]]].
    rewrite Hc, H in Hg. inversion Hg; subst ie icn.
    eexists. exists scans'. split; [exact Hs|]. split; reflexivity.
Qed.

Lemma get_index_cols_false_candidates_witness :
  ["a"] = indexed_columns "t" [val_cond "t" "a" OP_EQ 5]
  /\ (forall ts cs scans rest,
         fst (pop_conds cs "t") = [val_cond "t" "a" OP_EQ 5] ->
         make_scans sm_t ("t" :: ts) cs = Ret (scans, rest) ->
         exists x scans',
           scans = x :: scans'
           /\ scan_tag x = T_SeqScan /\ index_col_names_ x = []).
Proof.
  apply (@get_index_cols_false_candidates sm_t "t"
           [val_cond "t" "a" OP_EQ 5] ["a"]).
  reflexivity.
Defined.

(* ===================================================================== *)
(** ** The join knobs (C3) *)
(* ===================================================================== *)

Lemma make_scans_returns (sm : SmManager) (tabs : list string) :
  Forall (fun t => db_get_table sm t <> None) tabs ->
  forall cs, exists scans,
    make_scans sm tabs cs = Ret (scans, residual_conds tabs cs)
    /\ List.length scans = List.length tabs.
Proof.
  induction 1 as [|t ts Ht _ IH]; intros cs; simpl.
  - exists []. split; reflexivity.
  - destruct (pop_conds cs t) as [curr_conds rest] eqn:Ep. simpl.
    assert (Hg : exists r, get_index_cols sm t curr_conds = Ret r).
    { unfold get_index_cols, get_table.
      destruct (db_get_table sm t) as [tabm|]; [|congruence]. simpl.
      destruct (indexed_columns t curr_conds); [eauto|].
      destruct (find_single_col_index tabm _); [eauto|].
      destruct (is_index tabm _); eauto. }
    destruct Hg as [[ie icn] Hg]. rewrite Hg. simpl.
    destruct (IH rest) as [scans [Hs Hlen]]. rewrite Hs. simpl.
    eexists. split; [reflexivity|]. simpl. rewrite Hlen. reflexivity.
Qed.

(** With both knobs off a Cartesian product of two tables is planned,
    as a nested-loop join. *)
Lemma cartesian_product_ignores_knobs :
  make_one_rel sm_abc both_off
    (mkQuery (mkSelect false None) ["a"; "b"] [col "a" "k"] [] true)
  = Ret (PJoin T_NestLoop
               (PScan (new_ScanPlan T_SeqScan "b" [] []))
               (PScan (new_ScanPlan T_SeqScan "a" [] []))
               [],
         mkQuery (mkSelect false None) ["a"; "b"] [col "a" "k"] [] true).
Proof. reflexivity. Qed.

Lemma cartesian_attach_nestloop (scans : list ScanPlan) :
  forall tbl l r cs,
  exists l' r' cs',
    cartesian_attach scans tbl (PJoin T_NestLoop l r cs)
    = PJoin T_NestLoop l' r' cs'.
Proof.
  induction scans as [|x scans IH]; intros tbl l r cs; simpl.
  - exists l, r, cs. reflexivity.
  - destruct tbl as [|used tbl]; [exists l, r, cs; reflexivity|].
    destruct (used =? -1)%Z; apply IH.
Qed.

(** C3, amended. For a query over more than one table, all known to the
    catalog: when a condition is left once every table has taken its
    own conditions, [make_one_rel] throws "No join executor selected!"
    if both knobs are off; when none is left, it does not read the
    knobs and returns a nested-loop join. *)
Theorem no_join_executor_selected (sm : SmManager) (query : Query) :
  (2 <= List.length (tables query))%nat ->
  Forall (fun t => db_get_table sm t <> None) (tables query) ->
  (residual_conds (tables query) (conds query) <> [] ->
   forall k,
     enable_nestedloop_join k = false ->
     enable_sortmerge_join k = false ->
     make_one_rel sm k query = Throw (RMDBError "No join executor selected!"))
  /\ (residual_conds (tables query) (conds query) = [] ->
      exists l r cs,
        forall k,
          make_one_rel sm k query
          = Ret (PJoin T_NestLoop l r cs, set_conds query [])).
Proof.
  intros Hlen Hcat.
  destruct (@make_scans_returns sm (tables query) Hcat (conds query))
    as [scans [Hs Hl]].
  destruct scans as [|x [|y scans]]; simpl in Hl;
    try (rewrite <- Hl in Hlen; simpl in Hlen; lia).
  split.
  - intros Hres k Hnl Hsm.
    unfold make_one_rel. rewrite Hs. simpl.
    destruct (residual_conds (tables query) (conds query)) as [|it rest];
      [congruence|].
    unfold join_phase, seed_join.
    destruct (pop_scan _ (tab_name (lhs_col it)) _ _) as [[lp t1] j1].
    destruct (pop_scan _ (tab_name (rhs_col it)) _ _) as [[rp t2] j2].
    unfold select_join_tag. rewrite Hnl, Hsm. reflexivity.
  - intros Hres.
    destruct (cartesian_attach_nestloop scans
                (repeat (-1)%Z (List.length scans)) (PScan y) (PScan x) [])
      as [l [r [cs Hc]]].
    exists l, r, cs. intros k.
    unfold make_one_rel. rewrite Hs, Hres. simpl. rewrite Hc. reflexivity.
Qed.

Lemma no_join_executor_selected_witness :
  make_one_rel sm_abc both_off
    (mkQuery (mkSelect false None) ["a"; "b"] [col "a" "k"]
             [col_cond "a" "k" OP_EQ "b" "k"] false)
  = Throw (RMDBError "No join executor selected!").
Proof.
  apply (@no_join_executor_selected sm_abc
           (mkQuery (mkSelect false None) ["a"; "b"] [col "a" "k"]
                    [col_cond "a" "k" OP_EQ "b" "k"] false)).
  - simpl. lia.
  - repeat constructor; discriminate.
  - discriminate.
  - reflexivity.
  - reflexivity.
Defined.

(* ===================================================================== *)
(** ** The place of the sort node (C2) *)
(* ===================================================================== *)

Lemma push_conds_is_null (cond : Condition) (plan : Plan) :
  is_null (snd (push_conds cond plan)) = is_null plan.
Proof.
  destruct plan as [|x|tag l r cs|sub cs|sub cs|sub c d]; simpl; try reflexivity.
  - destruct (String.eqb _ _); [reflexivity|].
    destruct (String.eqb _ _); reflexivity.
  - destruct (push_conds cond l) as [left_res l'].
    destruct (left_res =? 3)%Z; [reflexivity|].
    destruct (push_conds cond r) as [right_res r'].
    destruct (right_res =? 3)%Z; [reflexivity|].
    destruct ((left_res =? 0)%Z || (right_res =? 0)%Z); reflexivity.
Qed.

Lemma extend_join_not_null (scans : list ScanPlan) (st : JoinState)
    (it : Condition) :
  is_null (table_join_executors st) = false ->
  is_null (table_join_executors (extend_join scans st it)) = false.
Proof.
  intros H. unfold extend_join.
  destruct (if negb (mem_string (tab_name (lhs_col it)) (joined_tables st))
            then _ else _) as [[left_need t1] j1].
  destruct (if negb (mem_string (tab_name (rhs_col it)) j1)
            then _ else _) as [[[right_need rev] t2] j2].
  destruct (negb (is_null left_need) && negb (is_null right_need));
    [reflexivity|].
  destruct (negb (is_null left_need) || negb (is_null right_need)).
  - destruct rev; reflexivity.
  - simpl. rewrite push_conds_is_null. exact H.
Qed.

Lemma extension_loop_not_null (scans : list ScanPlan) (rest : list Condition) :
  forall st,
    is_null (table_join_executors st) = false ->
    is_null (table_join_executors (fold_left (extend_join scans) rest st))
    = false.
Proof.
  induction rest as [|it rest IH]; intros st H; simpl; [exact H|].
  apply IH, extend_join_not_null, H.
Qed.

Lemma cartesian_attach_not_null (scans : list ScanPlan) :
  forall tbl root,
    is_null root = false -> is_null (cartesian_attach scans tbl root) = false.
Proof.
  induction scans as [|x scans IH]; intros tbl root H; simpl; [exact H|].
  destruct tbl as [|used tbl]; [exact H|].
  destruct (used =? -1)%Z; apply IH; [reflexivity | exact H].
Qed.

Lemma join_phase_not_null (k : Knobs) (scans : list ScanPlan)
    (cs : list Condition) (st : JoinState) :
  join_phase k scans cs = Ret st ->
  is_null (table_join_executors st) = false.
Proof.
  unfold join_phase. destruct cs as [|it rest].
  - destruct scans as [|x scans]; [discriminate|].
    intros H. inversion H. reflexivity.
  - intros H. apply bind_Ret_inv in H. destruct H as [st0 [Hseed H]].
    inversion H. apply extension_loop_not_null.
    unfold seed_join in Hseed.
    destruct (pop_scan _ (tab_name (lhs_col it)) _ _) as [[lp t1] j1].
    destruct (pop_scan _ (tab_name (rhs_col it)) _ _) as [[rp t2] j2].
    apply bind_Ret_inv in Hseed. destruct Hseed as [tag [_ Hseed]].
    inversion Hseed. reflexivity.
Qed.

(** [make_one_rel] never returns the null pointer, and leaves the parse
    tree, the table list and the select list of the query alone. *)
Lemma make_one_rel_returns (sm : SmManager) (k : Knobs) (query query1 : Query)
    (plan : Plan) :
  make_one_rel sm k query = Ret (plan, query1) ->
  is_null plan = false
  /\ parse query1 = parse query /\ cols query1 = cols query
  /\ tables query1 = tables query.
Proof.
  unfold make_one_rel. intros H.
  apply bind_Ret_inv in H. destruct H as [[scans rest] [_ H]].
  assert (Hjoin : forall scans0 : list ScanPlan,
             bind (join_phase k scans0 rest)
                  (fun st => Ret (cartesian_attach scans0 (scantbl st)
                                    (table_join_executors st),
                                  set_conds query []))
             = Ret (plan, query1) ->
             is_null plan = false
             /\ parse query1 = parse query /\ cols query1 = cols query
             /\ tables query1 = tables query).
  { intros scans0 H0.
    apply bind_Ret_inv in H0. destruct H0 as [st [Hj H0]].
    assert (Hp : plan = cartesian_attach scans0 (scantbl st)
                                         (table_join_executors st))
      by congruence.
    assert (Hq : query1 = set_conds query []) by congruence.
    subst plan query1. split; [|repeat split].
    apply cartesian_attach_not_null. eapply join_phase_not_null, Hj. }
  destruct scans as [|x [|y scans]].
  - apply (Hjoin []), H.
  - inversion H; subst. repeat split.
  - apply (Hjoin (x :: y :: scans)), H.
Qed.

Lemma push_filters_down_not_null (plan : Plan) :
  is_null plan = false -> is_null (push_filters_down plan) = false.
Proof.
  destruct plan as [|x|tag l r cs|sub cs|sub cs|sub c d]; simpl;
    intros H; try reflexivity; try discriminate.
  destruct (is_empty (table_conditions x)); reflexivity.
Qed.

Lemma logical_optimization_returns (sm : SmManager) (query query1 : Query) :
  logical_optimization sm query = Ret query1 ->
  parse query1 = parse query /\ cols query1 = cols query.
Proof.
  unfold logical_optimization, projection_pushdown, predicate_pushdown,
    join_order_optimization.
  destruct (List.length (tables query) <=? 2)%nat.
  - intros H. inversion H. split; reflexivity.
  - intros H. apply bind_Ret_inv in H. destruct H as [stats [_ H]].
    apply bind_Ret_inv in H. destruct H as [ts [_ H]].
    inversion H. split; reflexivity.
Qed.

(** [SELECT a FROM t ORDER BY a DESC]: the plan returned has the sort
    node at its root and the projection beneath it. *)
Lemma sort_is_the_root :
  generate_select_plan sm_t both_on
    (mkQuery (mkSelect true (Some (mkOrderBy "a" OrderBy_DESC)))
             ["t"] [col "t" "a"] [] false)
  = Ret (PSort
           (PProjection (PScan (new_ScanPlan T_SeqScan "t" [] []))
                        [col "t" "a"])
           (col "t" "a") true)
  /\ (forall child sel_cols,
         PSort
           (PProjection (PScan (new_ScanPlan T_SeqScan "t" [] []))
                        [col "t" "a"])
           (col "t" "a") true
         <> PProjection child sel_cols).
Proof. split; [reflexivity | discriminate]. Qed.

(** C2, amended. For a SELECT with an ORDER BY clause, the plan that
    [generate_select_plan] returns has a [SortPlan] at its root, whose
    child is the [ProjectionPlan] carrying the select list of the query;
    the sort is descending exactly when the direction of the clause is
    DESC. *)
Theorem sort_above_projection (sm : SmManager) (k : Knobs) (query : Query)
    (plan : Plan) :
  has_sort (parse query) = true ->
  generate_select_plan sm k query = Ret plan ->
  exists child key ob,
    order (parse query) = Some ob
    /\ plan = PSort (PProjection child (cols query)) key
                    (OrderByDir_eqb (orderby_dir ob) OrderBy_DESC)
    /\ (OrderByDir_eqb (orderby_dir ob) OrderBy_DESC = true
        <-> orderby_dir ob = OrderBy_DESC).
Proof.
  intros Hsort H. unfold generate_select_plan in H.
  apply bind_Ret_inv in H. destruct H as [q1 [Hlog H]].
  apply logical_optimization_returns in Hlog. destruct Hlog as [Hp1 Hc1].
  unfold physical_optimization in H.
  apply bind_Ret_inv in H. destruct H as [[p0 q2] [Hrel H]].
  apply make_one_rel_returns in Hrel.
  destruct Hrel as [Hnn [Hp2 [Hc2 _]]].
  unfold generate_sort_plan in H.
  rewrite Hp2, Hp1, Hsort in H. simpl in H.
  apply bind_Ret_inv in H. destruct H as [all_cols [_ H]].
  destruct (order (parse query)) as [ob|]; [|discriminate].
  inversion H as [Hplan]. clear H.
  unfold apply_predicate_pushdown, apply_projection_pushdown.
  pose proof (push_filters_down_not_null p0 Hnn) as Hnn'.
  destruct (push_filters_down p0) eqn:E; try discriminate;
    rewrite Hc2, Hc1;
    (eexists; eexists; exists ob; split; [reflexivity|];
     split; [reflexivity|];
     destruct (orderby_dir ob); simpl; split; congruence).
Qed.

Lemma sort_above_projection_witness :
  exists child key ob,
    Some (mkOrderBy "a" OrderBy_DESC) = Some ob
    /\ PSort (PProjection (PScan (new_ScanPlan T_SeqScan "t" [] []))
                          [col "t" "a"])
             (col "t" "a") true
       = PSort (PProjection child [col "t" "a"]) key
               (OrderByDir_eqb (orderby_dir ob) OrderBy_DESC)
    /\ (OrderByDir_eqb (orderby_dir ob) OrderBy_DESC = true
        <-> orderby_dir ob = OrderBy_DESC).
Proof.
  apply (@sort_above_projection sm_t both_on
           (mkQuery (mkSelect true (Some (mkOrderBy "a" OrderBy_DESC)))
                    ["t"] [col "t" "a"] [] false)).
  - reflexivity.
  - reflexivity.
Defined.

(* ===================================================================== *)
(** ** The shape of the join tree (C1) *)
(* ===================================================================== *)

(** A round of the extension loop that takes a new table makes the
    tree built so far the right child of the new root; a round that
    takes none attaches the condition inside the tree. *)
Lemma extension_puts_tree_on_the_right (scans : list ScanPlan)
    (st : JoinState) (it : Condition) :
  table_join_executors (extend_join scans st it)
  = snd (push_conds it (table_join_executors st))
  \/ exists new_side cs,
      table_join_executors (extend_join scans st it)
      = PJoin T_NestLoop new_side (table_join_executors st) cs.
Proof.
  unfold extend_join.
  destruct (if negb (mem_string (tab_name (lhs_col it)) (joined_tables st))
            then _ else _) as [[left_need t1] j1].
  destruct (if negb (mem_string (tab_name (rhs_col it)) j1)
            then _ else _) as [[[right_need rev] t2] j2].
  destruct (negb (is_null left_need) && negb (is_null right_need)).
  - right. eexists. eexists. reflexivity.
  - destruct (negb (is_null left_need) || negb (is_null right_need)).
    + right. destruct rev; eexists; eexists; reflexivity.
    + left. reflexivity.
Qed.

(** C1. On the chain query the join order is [b, c, a]; the seed joins
    [a] with [b], the extension loop then puts the new table [c] on the
    left and the tree built so far on the right. All three tables are
    used before the Cartesian attachment, which adds nothing, and the
    right child of the root is a join: the tree is not left-deep. *)
Theorem chain_join_tree_not_left_deep :
  logical_optimization sm_abc chain_query
    = Ret (set_tables chain_query ["b"; "c"; "a"])
  /\ join_phase both_on
       [new_ScanPlan T_SeqScan "b" [] []; new_ScanPlan T_SeqScan "c" [] [];
        new_ScanPlan T_SeqScan "a" [] []]
       (conds chain_query)
     = Ret (mkJoinState
              (PJoin T_NestLoop (scan_of "c")
                     (PJoin T_NestLoop (scan_of "a") (scan_of "b")
                            [col_cond "a" "k" OP_EQ "b" "k"])
                     [col_cond "c" "k" OP_EQ "b" "k"])
              [1; 1; 1]%Z [""; ""; ""; "a"; "b"; "c"])
  /\ (exists query1,
         make_one_rel sm_abc both_on (set_tables chain_query ["b"; "c"; "a"])
         = Ret (PJoin T_NestLoop (scan_of "c")
                      (PJoin T_NestLoop (scan_of "a") (scan_of "b")
                             [col_cond "a" "k" OP_EQ "b" "k"])
                      [col_cond "c" "k" OP_EQ "b" "k"],
                query1))
  /\ left_deep
       (PJoin T_NestLoop (scan_of "c")
              (PJoin T_NestLoop (scan_of "a") (scan_of "b")
                     [col_cond "a" "k" OP_EQ "b" "k"])
              [col_cond "c" "k" OP_EQ "b" "k"])
     = false.
Proof.
  split; [vm_compute; reflexivity|].
  split; [reflexivity|].
  split; [eexists; reflexivity | reflexivity].
Qed.

(* ===================================================================== *)
(** ** Where the predicates end up (C4) *)
(* ===================================================================== *)

(** C4. Of the two predicates of [two_predicates_query] the scan on [a]
    takes both. The refiner moves [a.x = 5] into a filter and empties
    the scan, so [a.x = a.k] is nowhere in the final plan, neither among
    the conditions nor among the fed conditions. *)
Theorem predicate_lost_by_pushdown :
  make_one_rel sm_abc both_on two_predicates_query
    = Ret (PScan (new_ScanPlan T_SeqScan "a"
                    [val_cond "a" "x" OP_EQ 5;
                     col_cond "a" "x" OP_EQ "a" "k"] []),
           set_conds two_predicates_query [])
  /\ apply_predicate_pushdown
       (PScan (new_ScanPlan T_SeqScan "a"
                 [val_cond "a" "x" OP_EQ 5; col_cond "a" "x" OP_EQ "a" "k"] []))
       (set_conds two_predicates_query [])
     = PFilter (scan_of "a") [val_cond "a" "x" OP_EQ 5]
  /\ generate_select_plan sm_abc both_on two_predicates_query
     = Ret (PProjection
              (PFilter (scan_of "a") [val_cond "a" "x" OP_EQ 5])
              [col "a" "k"; col "a" "x"])
  /\ occurrences (col_cond "a" "x" OP_EQ "a" "k")
       (plan_conditions (PFilter (scan_of "a") [val_cond "a" "x" OP_EQ 5]))
     = 0%nat
  /\ occurrences (col_cond "a" "x" OP_EQ "a" "k")
       (plan_fed_conditions (PFilter (scan_of "a") [val_cond "a" "x" OP_EQ 5]))
     = 0%nat.
Proof. repeat split; vm_compute; reflexivity. Qed.

(** At a scan node that holds literal conditions on its own table, the
    refiner puts them into a filter and empties both condition lists of
    the scan; tag, table and index columns stay. *)
Lemma scan_path_clears_both (s : ScanPlan) :
  table_conditions s <> [] ->
  push_filters_down (PScan s)
  = PFilter (PScan (mkScanPlan (scan_tag s) (tab_name_ s) [] []
                               (index_col_names_ s)))
            (table_conditions s).
Proof.
  intros H. simpl. destruct (table_conditions s); [congruence | reflexivity].
Qed.

(* ===================================================================== *)
(** ** Cardinality estimation (C9) *)
(* ===================================================================== *)

Lemma estimate_of_hdr_positive (hdr : RmFileHdr) : (1 <= estimate_of_hdr hdr)%Z.
Proof.
  unfold estimate_of_hdr.
  match goal with |- context [(?x >? 0)%Z] => destruct (Z.gtb_spec x 0) end; lia.
Qed.

Lemma estimate_table_cardinality_cases (sm : SmManager) (table_name : string) :
  estimate_table_cardinality sm table_name = Diverge
  \/ estimate_table_cardinality sm table_name = Undefined
  \/ exists n, estimate_table_cardinality sm table_name = Ret n /\ (1 <= n)%Z.
Proof.
  unfold estimate_table_cardinality.
  destruct (fhs_ sm table_name) as [fh|]; simpl.
  - destruct (get_file_hdr fh) as [hdr|e| |]; simpl; auto.
    + right; right. eexists. split; [reflexivity|].
      apply estimate_of_hdr_positive.
    + right; right. exists 1000%Z. split; [reflexivity | lia].
  - right; right. exists 1000%Z. split; [reflexivity | lia].
Qed.

Lemma collect_table_stats_no_throw (sm : SmManager) (tabs : list string)
    (e : Exception) :
  collect_table_stats sm tabs <> Throw e.
Proof.
  induction tabs as [|t tabs IH]; simpl; [discriminate|].
  destruct (estimate_table_cardinality_cases sm t) as [H|[H|[n [H _]]]];
    rewrite H; simpl; try discriminate.
  destruct (collect_table_stats sm tabs); simpl; congruence.
Qed.

(** In [double], 90 records at 0.7 make 62 rows, one less than the
    exact product would give. *)
Example estimate_of_90_records :
  estimate_of_hdr (mkFileHdr 10 10) = 62%Z /\ (90 * 7 / 10 = 63)%Z.
Proof. split; vm_compute; reflexivity. Qed.

(** Table [a] of [sm_abc] has 10 data pages of 143 records: the exact
    product with 0.7 is 1001, the estimate is 1000. *)
Example estimate_below_the_exact_product :
  estimate_table_cardinality sm_abc "a" = Ret 1000%Z
  /\ claimed_estimate (mkFileHdr 11 143) = 1001%Z.
Proof. split; vm_compute; reflexivity. Qed.

(* ===================================================================== *)
(** ** The sequential scan executor (C10) *)
(* ===================================================================== *)

Section SeqScanProperties.

Variable RmRecord : Type.
Variable eval_conds : list ColMeta -> list Condition -> RmRecord -> bool.

Lemma seek_spec (cols : list ColMeta) (fed : list Condition) :
  forall remaining pos rid,
    match find (eval_conds cols fed) remaining with
    | Some rec =>
        exists p,
          SeqScan.seek eval_conds cols fed remaining pos rid = (p, p)
          /\ (pos <= p < pos + List.length remaining)%nat
          /\ nth_error remaining (p - pos) = Some rec
    | None =>
        exists rid',
          SeqScan.seek eval_conds cols fed remaining pos rid
          = ((pos + List.length remaining)%nat, rid')
    end.
Proof.
  induction remaining as [|rec rest IH]; intros pos rid; simpl.
  - exists rid. rewrite Nat.add_0_r. reflexivity.
  - destruct (eval_conds cols fed rec) eqn:E.
    + exists pos. split; [reflexivity|]. split; [lia|].
      rewrite Nat.sub_diag. reflexivity.
    + specialize (IH (S pos) pos).
      destruct (find (eval_conds cols fed) rest) as [rec'|].
      * destruct IH as [p [Hs [Hp Hn]]]. exists p.
        split; [exact Hs|]. split; [lia|].
        replace (p - pos)%nat with (S (p - S pos)) by lia. exact Hn.
      * destruct IH as [rid' Hs]. exists rid'.
        rewrite Hs. f_equal. lia.
Qed.

(** C10. On an executor whose scan has not been started, [Next]
    starts the scan as [beginTuple] does and returns the first record
    of the file that satisfies [fed_conds_], or the null pointer when
    there is none; it does not throw, and the scan is started
    afterwards. [nextTuple] on the same executor throws
    [InternalError]. *)
Theorem Next_on_unstarted_scan (e : SeqScan.SeqScanExecutor RmRecord) :
  SeqScan.scan_ e = None ->
  SeqScan.Next eval_conds e
  = Ret (find (eval_conds (SeqScan.cols_ e) (SeqScan.fed_conds_ e))
              (SeqScan.fh_ e),
         SeqScan.beginTuple eval_conds e)
  /\ SeqScan.scan_ (SeqScan.beginTuple eval_conds e) <> None
  /\ SeqScan.nextTuple eval_conds e
     = Throw (InternalError "Scan not initialized at SeqScanExecutor").
Proof.
  intros Hnone. split; [|split].
  - unfold SeqScan.Next. rewrite Hnone.
    unfold SeqScan.beginTuple, SeqScan.is_end.
    pose proof (seek_spec (SeqScan.cols_ e) (SeqScan.fed_conds_ e)
                          (SeqScan.fh_ e) 0 (SeqScan.rid_ e)) as Hs.
    destruct (find _ (SeqScan.fh_ e)) as [rec|].
    + destruct Hs as [p [Hs [Hp Hn]]]. rewrite Hs. simpl.
      destruct (Nat.leb_spec (List.length (SeqScan.fh_ e)) p); [lia|].
      unfold SeqScan.get_record. rewrite Nat.sub_0_r in Hn. rewrite Hn.
      reflexivity.
    + destruct Hs as [rid' Hs]. rewrite Hs. simpl.
      rewrite Nat.leb_refl. reflexivity.
  - unfold SeqScan.beginTuple.
    destruct (SeqScan.seek _ _ _ _ _ _). simpl. discriminate.
  - unfold SeqScan.nextTuple. rewrite Hnone. reflexivity.
Qed.

End SeqScanProperties.

Lemma Next_on_unstarted_scan_witness :
  SeqScan.Next above_five fresh_executor
  = Ret (Some 7%Z, SeqScan.mkExec "t" [] [1; 7; 3; 9]%Z [] [] 1 (Some 1%nat))
  /\ SeqScan.scan_ (SeqScan.beginTuple above_five fresh_executor) <> None
  /\ SeqScan.nextTuple above_five fresh_executor
     = Throw (InternalError "Scan not initialized at SeqScanExecutor").
Proof.
  exact (@Next_on_unstarted_scan Z above_five fresh_executor eq_refl).
Defined.

(* ===================================================================== *)
(** ** The greedy join order and the listing order of the tables (C8) *)
(* ===================================================================== *)

(** Two listings of the same four tables, with the same cardinalities
    and no join edge, come out in two different orders: the tables [c]
    and [d] of equal cardinality keep the order of the listing. *)
Lemma join_order_follows_listing_on_ties :
  collect_table_stats sm_ties ["a"; "b"; "c"; "d"]
    = Ret [("a", 1%Z); ("b", 2%Z); ("c", 5%Z); ("d", 5%Z)]
  /\ Permutation ["a"; "b"; "c"; "d"] ["a"; "b"; "d"; "c"]
  /\ join_order sm_ties (tables_query ["a"; "b"; "c"; "d"])
     = Ret ["a"; "b"; "c"; "d"]
  /\ join_order sm_ties (tables_query ["a"; "b"; "d"; "c"])
     = Ret ["a"; "b"; "d"; "c"]
  /\ ["a"; "b"; "c"; "d"] <> ["a"; "b"; "d"; "c"].
Proof.
  split; [vm_compute; reflexivity|].
  split; [do 2 apply perm_skip; apply perm_swap|].
  split; [vm_compute; reflexivity|].
  split; [vm_compute; reflexivity | discriminate].
Qed.

(** *** Folds over permuted lists *)

Lemma fold_left_permutation {A B : Type} (g : A -> B -> A) (l l' : list B) :
  Permutation l l' ->
  (forall x y a, In x l -> In y l -> g (g a x) y = g (g a y) x) ->
  forall a, fold_left g l a = fold_left g l' a.
Proof.
  induction 1 as [|x l l' Hp IH|x y l|l l' l'' Hp1 IH1 Hp2 IH2];
    intros Hcomm a; simpl.
  - reflexivity.
  - apply IH. intros u v b Hu Hv. apply Hcomm; right; assumption.
  - rewrite (Hcomm y x a); [reflexivity | left; reflexivity
                            | right; left; reflexivity].
  - rewrite IH1 by exact Hcomm. apply IH2.
    intros u v b Hu Hv.
    apply Hcomm; eapply Permutation_in;
      try (apply Permutation_sym; exact Hp1); assumption.
Qed.

Lemma fold_left_ext_in {A B : Type} (g1 g2 : A -> B -> A) (l : list B) :
  (forall a x, In x l -> g1 a x = g2 a x) ->
  forall a, fold_left g1 l a = fold_left g2 l a.
Proof.
  induction l as [|x l IH]; intros H a; simpl; [reflexivity|].
  rewrite (H a x) by (left; reflexivity).
  apply IH. intros b y Hy. apply H. right. exact Hy.
Qed.

Lemma existsb_permutation {A : Type} (f : A -> bool) (l l' : list A) :
  Permutation l l' -> existsb f l = existsb f l'.
Proof.
  induction 1 as [|x l l' _ IH|x y l|l l' l'' _ IH1 _ IH2]; simpl.
  - reflexivity.
  - rewrite IH. reflexivity.
  - destruct (f x), (f y); reflexivity.
  - congruence.
Qed.

Lemma existsb_ext_all {A : Type} (f g : A -> bool) (l : list A) :
  (forall x, f x = g x) -> existsb f l = existsb g l.
Proof.
  intros H. induction l as [|x l IH]; simpl; [reflexivity|].
  rewrite H, IH. reflexivity.
Qed.

(** Entries of a list without two equal cardinalities are equal or
    differ in their cardinality. *)
Lemma stats_equal_or_apart (stats : list stat) (x y : stat) :
  NoDup (map snd stats) -> In x stats -> In y stats ->
  x = y \/ snd x <> snd y.
Proof.
  induction stats as [|s stats IH]; simpl; intros Hnd Hx Hy; [contradiction|].
  inversion Hnd as [|c cs Hnotin Hnd']; subst.
  destruct Hx as [Hx|Hx], Hy as [Hy|Hy]; subst.
  - left. reflexivity.
  - right. intros E. apply Hnotin. rewrite E. apply in_map. exact Hy.
  - right. intros E. apply Hnotin. rewrite <- E. apply in_map. exact Hx.
  - apply IH; assumption.
Qed.

(** *** The sort *)

Lemma sort_insert_comm (x y : stat) (l : list stat) :
  snd x <> snd y ->
  sort_insert y (sort_insert x l) = sort_insert x (sort_insert y l).
Proof.
  intros Hxy. induction l as [|z l IH]; simpl.
  - destruct (Z.ltb_spec (snd y) (snd x)), (Z.ltb_spec (snd x) (snd y));
      try reflexivity; lia.
  - destruct (Z.ltb_spec (snd x) (snd z)), (Z.ltb_spec (snd y) (snd z)); simpl.
    + destruct (Z.ltb_spec (snd y) (snd x)), (Z.ltb_spec (snd x) (snd y));
        try lia; simpl.
      * destruct (Z.ltb_spec (snd x) (snd z)); [reflexivity | lia].
      * destruct (Z.ltb_spec (snd y) (snd z)); [reflexivity | lia].
    + destruct (Z.ltb_spec (snd y) (snd x)); [lia|].
      destruct (Z.ltb_spec (snd y) (snd z)); [lia|].
      destruct (Z.ltb_spec (snd x) (snd z)); [reflexivity | lia].
    + destruct (Z.ltb_spec (snd x) (snd y)); [lia|].
      destruct (Z.ltb_spec (snd x) (snd z)); [lia|].
      destruct (Z.ltb_spec (snd y) (snd z)); [reflexivity | lia].
    + destruct (Z.ltb_spec (snd y) (snd z)); [lia|].
      destruct (Z.ltb_spec (snd x) (snd z)); [lia|].
      rewrite IH. reflexivity.
Qed.

Lemma std_sort_permutation_invariant (l l' : list stat) :
  Permutation l l' -> NoDup (map snd l) -> std_sort l = std_sort l'.
Proof.
  intros Hp Hnd. unfold std_sort.
  apply fold_left_permutation; [exact Hp|].
  intros x y a Hx Hy.
  destruct (@stats_equal_or_apart l x y Hnd Hx Hy) as [E|E].
  - subst. reflexivity.
  - apply sort_insert_comm. exact E.
Qed.

Lemma sort_insert_permutation (x : stat) (l : list stat) :
  Permutation (sort_insert x l) (x :: l).
Proof.
  induction l as [|y l IH]; simpl; [apply Permutation_refl|].
  destruct (snd x <? snd y)%Z; [apply Permutation_refl|].
  eapply perm_trans; [apply perm_skip, IH | apply perm_swap].
Qed.

Lemma std_sort_permutation (l : list stat) : Permutation (std_sort l) l.
Proof.
  unfold std_sort.
  assert (H : forall acc, Permutation
                            (fold_left (fun acc x => sort_insert x acc) l acc)
                            (acc ++ l)).
  { induction l as [|x l IH]; intros acc; simpl.
    - rewrite app_nil_r. apply Permutation_refl.
    - eapply perm_trans; [apply IH|].
      eapply perm_trans;
        [apply Permutation_app_tail, sort_insert_permutation|].
      simpl. apply Permutation_middle. }
  apply (H []).
Qed.

(** *** The search for the best table *)

Lemma cardinality_map_in (stats : list stat) (t : string) (c : Z) :
  NoDup (map fst stats) -> In (t, c) stats -> cardinality_map stats t = c.
Proof.
  unfold cardinality_map. generalize 0%Z as acc.
  induction stats as [|s stats IH]; simpl; intros acc Hnd Hin; [contradiction|].
  inversion Hnd as [|n ns Hnotin Hnd']; subst.
  destruct Hin as [Hin|Hin].
  - subst s. simpl. rewrite String.eqb_refl.
    clear IH Hnd Hnd'. simpl in Hnotin. revert Hnotin. generalize c as acc'.
    induction stats as [|s stats IH]; simpl; intros acc' Hnotin; [reflexivity|].
    destruct (String.eqb_spec (fst s) t) as [E|E].
    + exfalso. apply Hnotin. left. exact E.
    + apply IH. intros H. apply Hnotin. right. exact H.
  - apply IH; assumption.
Qed.

Lemma consider_comm (stats : list stat) (conditions : list Condition)
    (used : list string) (x y : stat) (a : string * Z) :
  x = y \/ cardinality_map stats (fst x) <> cardinality_map stats (fst y) ->
  consider stats conditions used (consider stats conditions used a x) y
  = consider stats conditions used (consider stats conditions used a y) x.
Proof.
  intros [E|E]; [subst; reflexivity|].
  unfold consider.
  set (cx := cardinality_map stats (fst x)) in *.
  set (cy := cardinality_map stats (fst y)) in *.
  destruct (set_count (fst x) used); destruct (set_count (fst y) used);
    try reflexivity.
  destruct (negb (has_join_condition conditions used (fst x))
            && other_tables_have_joins stats conditions used (fst x));
    destruct (negb (has_join_condition conditions used (fst y))
              && other_tables_have_joins stats conditions used (fst y));
    try reflexivity.
  destruct (Z.ltb_spec cx (snd a)); destruct (Z.ltb_spec cy (snd a));
    cbn [snd fst].
  - destruct (Z.ltb_spec cy cx); destruct (Z.ltb_spec cx cy);
      try reflexivity; lia.
  - destruct (Z.ltb_spec cy cx); [lia|].
    destruct (Z.ltb_spec cx (snd a)); [reflexivity | lia].
  - destruct (Z.ltb_spec cx cy); [lia|].
    destruct (Z.ltb_spec cy (snd a)); [reflexivity | lia].
  - destruct (Z.ltb_spec cy (snd a)); [lia|].
    destruct (Z.ltb_spec cx (snd a)); [lia | reflexivity].
Qed.

Section PermutedStatistics.

Variables stats1 stats2 : list stat.
Variables conds1 conds2 : list Condition.

Hypothesis Hperm : Permutation stats1 stats2.
Hypothesis Hnames : NoDup (map fst stats1).
Hypothesis Hcards : NoDup (map snd stats1).
Hypothesis Hedges :
  forall t u, join_graph conds1 t u = join_graph conds2 t u.

Lemma names_of_permuted_stats : NoDup (map fst stats2).
Proof.
  eapply Permutation_NoDup; [|exact Hnames].
  apply Permutation_map. exact Hperm.
Qed.

Lemma consider_permuted (used : list string) (a : string * Z) (st : stat) :
  In st stats1 ->
  consider stats1 conds1 used a st = consider stats2 conds2 used a st.
Proof.
  intros Hin. unfold consider.
  assert (Hj : forall t, has_join_condition conds1 used t
                         = has_join_condition conds2 used t).
  { intros t. unfold has_join_condition.
    apply existsb_ext_all. intros u. apply Hedges. }
  assert (Ho : forall t, other_tables_have_joins stats1 conds1 used t
                         = other_tables_have_joins stats2 conds2 used t).
  { intros t. unfold other_tables_have_joins.
    rewrite (existsb_permutation _ Hperm).
    apply existsb_ext_all. intros o. rewrite Hj. reflexivity. }
  assert (Hc : cardinality_map stats1 (fst st) = cardinality_map stats2 (fst st)).
  { destruct st as [t c]. simpl.
    rewrite (@cardinality_map_in stats1 t c Hnames Hin).
    symmetry. apply cardinality_map_in; [apply names_of_permuted_stats|].
    eapply Permutation_in; [exact Hperm | exact Hin]. }
  rewrite Hj, Ho, Hc. reflexivity.
Qed.

Lemma best_table_permuted (used : list string) (a : string * Z) :
  fold_left (consider stats1 conds1 used) stats1 a
  = fold_left (consider stats2 conds2 used) stats2 a.
Proof.
  rewrite (@fold_left_ext_in _ _ (consider stats1 conds1 used)
             (consider stats2 conds2 used) stats1)
    by (intros b x Hx; apply consider_permuted; exact Hx).
  apply fold_left_permutation; [exact Hperm|].
  intros x y b Hx Hy. apply consider_comm.
  assert (Hx2 : In x stats2) by (eapply Permutation_in; eassumption).
  assert (Hy2 : In y stats2) by (eapply Permutation_in; eassumption).
  destruct (@stats_equal_or_apart stats1 x y Hcards Hx Hy) as [E|E];
    [left; exact E | right].
  destruct x as [tx cx], y as [ty cy]. simpl in *.
  rewrite (@cardinality_map_in stats2 tx cx names_of_permuted_stats Hx2).
  rewrite (@cardinality_map_in stats2 ty cy names_of_permuted_stats Hy2).
  exact E.
Qed.

Lemma greedy_loop_permuted (sorted : list stat) :
  forall fuel result used,
    greedy_loop fuel stats1 sorted conds1 result used
    = greedy_loop fuel stats2 sorted conds2 result used.
Proof.
  induction fuel as [|fuel IH]; intros result used; simpl;
    rewrite (Permutation_length Hperm).
  - reflexivity.
  - destruct (List.length used <? List.length stats2)%nat; [|reflexivity].
    rewrite best_table_permuted.
    destruct (negb (String.eqb
                      (fst (fold_left (consider stats2 conds2 used) stats2
                                      (EmptyString, SIZE_MAX)))
                      EmptyString)).
    + apply IH.
    + match goal with
      | |- context [find ?f sorted] => destruct (find f sorted)
      end; [apply IH | reflexivity].
Qed.

Lemma greedy_permuted :
  (3 <= List.length stats1)%nat ->
  greedy_join_order_optimization stats1 conds1
  = greedy_join_order_optimization stats2 conds2.
Proof.
  intros Hlen. unfold greedy_join_order_optimization.
  rewrite <- (Permutation_length Hperm).
  rewrite <- (std_sort_permutation_invariant Hperm Hcards).
  destruct (List.length stats1 <=? 2)%nat; [reflexivity|].
  destruct (std_sort stats1) as [|s0 [|s1 sorted]];
    [reflexivity | apply greedy_loop_permuted | apply greedy_loop_permuted].
Qed.

End PermutedStatistics.

(** *** The loop returns when no table is listed twice *)

Lemma set_count_true (x : string) (s : list string) :
  set_count x s = true <-> In x s.
Proof.
  unfold set_count. rewrite existsb_exists. split.
  - intros [y [Hy E]]. apply String.eqb_eq in E. subst. exact Hy.
  - intros H. exists x. split; [exact H | apply String.eqb_refl].
Qed.

Lemma set_insert_length (x : string) (s : list string) :
  set_count x s = false ->
  List.length (set_insert x s) = S (List.length s).
Proof.
  induction s as [|y s IH]; simpl; intros H; [reflexivity|].
  apply orb_false_iff in H. destruct H as [Hxy Hs].
  destruct (String.compare x y) eqn:E; simpl.
  - apply String.compare_eq_iff in E. subst.
    rewrite String.eqb_refl in Hxy. discriminate.
  - reflexivity.
  - rewrite (IH Hs). reflexivity.
Qed.

Lemma best_table_unused (stats : list stat) (conditions : list Condition)
    (used : list string) (l : list stat) :
  forall a,
    fst a = EmptyString \/ set_count (fst a) used = false ->
    fst (fold_left (consider stats conditions used) l a) = EmptyString
    \/ set_count (fst (fold_left (consider stats conditions used) l a)) used
       = false.
Proof.
  induction l as [|st l IH]; intros a Ha; simpl; [exact Ha|].
  apply IH. unfold consider.
  destruct (set_count (fst st) used) eqn:Eu; [exact Ha|].
  destruct (negb _ && _); [exact Ha|].
  destruct (_ <? _)%Z; [right; exact Eu | exact Ha].
Qed.

Lemma unused_table_found (stats sorted : list stat) (used : list string) :
  NoDup (map fst stats) ->
  Permutation sorted stats ->
  (List.length used < List.length stats)%nat ->
  exists st,
    find (fun st => negb (set_count (fst st) used)) sorted = Some st
    /\ set_count (fst st) used = false.
Proof.
  intros Hnd Hp Hlen.
  destruct (find (fun st => negb (set_count (fst st) used)) sorted)
    as [st|] eqn:E.
  - exists st. split; [reflexivity|].
    apply find_some in E. destruct E as [_ E].
    apply negb_true_iff in E. exact E.
  - exfalso.
    assert (Hincl : incl (map fst stats) used).
    { intros t Ht. apply in_map_iff in Ht. destruct Ht as [st [Et Hst]].
      subst t. apply set_count_true.
      assert (Hs : In st sorted)
        by (eapply Permutation_in; [apply Permutation_sym, Hp | exact Hst]).
      pose proof (find_none _ _ E st Hs) as Hn. simpl in Hn.
      apply negb_false_iff in Hn. exact Hn. }
    pose proof (NoDup_incl_length Hnd Hincl) as Hle.
    rewrite length_map in Hle. lia.
Qed.

Lemma greedy_loop_returns (stats sorted : list stat)
    (conditions : list Condition) :
  NoDup (map fst stats) ->
  Permutation sorted stats ->
  forall fuel result used,
    (List.length stats <= fuel + List.length used)%nat ->
    exists table_order,
      greedy_loop fuel stats sorted conditions result used = Ret table_order.
Proof.
  intros Hnd Hp. induction fuel as [|fuel IH]; intros result used Hfuel; simpl.
  - destruct (Nat.ltb_spec (List.length used) (List.length stats)); [lia|].
    eexists. reflexivity.
  - destruct (Nat.ltb_spec (List.length used) (List.length stats)) as [Hlt|Hge];
      [|eexists; reflexivity].
    destruct (@best_table_unused stats conditions used stats
                (EmptyString, SIZE_MAX) (or_introl eq_refl)) as [Hb|Hb].
    + rewrite Hb. simpl.
      destruct (@unused_table_found stats sorted used Hnd Hp Hlt)
        as [st [Hfind Hun]].
      rewrite Hfind. apply IH. rewrite (set_insert_length _ _ Hun). lia.
    + destruct (negb (String.eqb _ EmptyString)).
      * apply IH. rewrite (set_insert_length _ _ Hb). lia.
      * destruct (@unused_table_found stats sorted used Hnd Hp Hlt)
          as [st [Hfind Hun]].
        rewrite Hfind. apply IH. rewrite (set_insert_length _ _ Hun). lia.
Qed.

Lemma greedy_returns (stats : list stat) (conditions : list Condition) :
  NoDup (map fst stats) ->
  (3 <= List.length stats)%nat ->
  exists table_order,
    greedy_join_order_optimization stats conditions = Ret table_order.
Proof.
  intros Hnd Hlen. unfold greedy_join_order_optimization.
  destruct (Nat.leb_spec (List.length stats) 2); [lia|].
  pose proof (std_sort_permutation stats) as Hp.
  pose proof (Permutation_length Hp) as Hl.
  destruct (std_sort stats) as [|s0 [|s1 sorted]]; simpl in Hl; try lia.
  apply greedy_loop_returns; [exact Hnd | exact Hp | lia].
Qed.

(** *** The statistics of a permuted table list *)

Lemma collect_table_stats_cons (sm : SmManager) (t : string)
    (tabs : list string) (stats : list stat) :
  collect_table_stats sm (t :: tabs) = Ret stats ->
  exists n rest,
    try_catch_all (estimate_table_cardinality sm t) 1000%Z = Ret n
    /\ collect_table_stats sm tabs = Ret rest
    /\ stats = (t, n) :: rest.
Proof.
  simpl. intros H.
  apply bind_Ret_inv in H. destruct H as [n [Hn H]].
  apply bind_Ret_inv in H. destruct H as [rest [Hr H]].
  inversion H. exists n, rest. repeat split; assumption.
Qed.

Lemma collect_table_stats_names (sm : SmManager) (tabs : list string) :
  forall stats,
    collect_table_stats sm tabs = Ret stats -> map fst stats = tabs.
Proof.
  induction tabs as [|t tabs IH]; intros stats H.
  - inversion H. reflexivity.
  - apply collect_table_stats_cons in H.
    destruct H as [n [rest [_ [Hr E]]]]. subst. simpl.
    rewrite (IH rest Hr). reflexivity.
Qed.

Lemma collect_table_stats_permutation (sm : SmManager)
    (tabs tabs' : list string) :
  Permutation tabs tabs' ->
  forall stats,
    collect_table_stats sm tabs = Ret stats ->
    exists stats',
      collect_table_stats sm tabs' = Ret stats' /\ Permutation stats stats'.
Proof.
  induction 1 as [|t l l' _ IH|x y l|l l' l'' _ IH1 _ IH2]; intros stats H.
  - exists stats. split; [exact H | apply Permutation_refl].
  - apply collect_table_stats_cons in H.
    destruct H as [n [rest [Hn [Hr E]]]]. subst.
    destruct (IH rest Hr) as [rest' [Hr' Hp]].
    exists ((t, n) :: rest'). split; [|apply perm_skip, Hp].
    simpl. rewrite Hn, Hr'. reflexivity.
  - apply collect_table_stats_cons in H.
    destruct H as [ny [rest [Hny [Hr E]]]]. subst.
    apply collect_table_stats_cons in Hr.
    destruct Hr as [nx [rest' [Hnx [Hr E]]]]. subst.
    exists ((x, nx) :: (y, ny) :: rest'). split; [|apply perm_swap].
    simpl. rewrite Hnx, Hny, Hr. reflexivity.
  - destruct (IH1 stats H) as [s' [H' Hp']].
    destruct (IH2 s' H') as [s'' [H'' Hp'']].
    exists s''. split; [exact H'' | eapply perm_trans; eassumption].
Qed.

(** C8, amended. For two queries over at least three tables that list
    the same tables, none twice, in a different order, with the same
    join edges, and whose estimated cardinalities are pairwise
    different, [join_order_optimization] returns, and it writes the
    same table order into both. *)
Theorem join_order_independent_of_listing (sm : SmManager)
    (query1 query2 : Query) (table_stats : list stat) :
  (3 <= List.length (tables query1))%nat ->
  Permutation (tables query1) (tables query2) ->
  NoDup (tables query1) ->
  (forall t u,
      join_graph (conds query1) t u = join_graph (conds query2) t u) ->
  collect_table_stats sm (tables query1) = Ret table_stats ->
  NoDup (map snd table_stats) ->
  exists table_order,
    join_order sm query1 = Ret table_order
    /\ join_order sm query2 = Ret table_order.
Proof.
  intros Hlen Hperm Hnd Hedges Hstats Hcards.
  destruct (collect_table_stats_permutation sm Hperm Hstats)
    as [table_stats2 [Hstats2 Hp]].
  pose proof (collect_table_stats_names sm _ Hstats) as Hnames.
  assert (Hnd1 : NoDup (map fst table_stats)) by (rewrite Hnames; exact Hnd).
  assert (Hlen1 : (3 <= List.length table_stats)%nat)
    by (rewrite <- (length_map fst), Hnames; exact Hlen).
  destruct (@greedy_returns table_stats (conds query1) Hnd1 Hlen1)
    as [table_order Hret].
  exists table_order.
  unfold join_order, join_order_optimization.
  rewrite <- (Permutation_length Hperm).
  destruct (Nat.leb_spec (List.length (tables query1)) 2); [lia|].
  rewrite Hstats, Hstats2. simpl.
  rewrite <- (@greedy_permuted table_stats table_stats2
                (conds query1) (conds query2) Hp Hnd1 Hcards Hedges Hlen1).
  rewrite Hret. split; reflexivity.
Qed.

Lemma join_order_independent_of_listing_witness :
  exists table_order,
    join_order sm_abc chain_query = Ret table_order
    /\ join_order sm_abc (set_tables chain_query ["c"; "a"; "b"])
       = Ret table_order.
Proof.
  apply (@join_order_independent_of_listing sm_abc chain_query
           (set_tables chain_query ["c"; "a"; "b"])
           [("a", 1000%Z); ("b", 10%Z); ("c", 100%Z)]).
  - simpl. lia.
  - simpl. apply Permutation_sym.
    apply (Permutation_cons_app ["a"; "b"] [] "c"). apply Permutation_refl.
  - repeat constructor; simpl; intuition discriminate.
  - reflexivity.
  - vm_compute. reflexivity.
  - repeat constructor; simpl; intuition discriminate.
Defined.

(** The bound on the rounds is never what stops the loop: one more
    round allowed gives the same outcome, so [Diverge] stands for a
    round that changes nothing. *)
Lemma greedy_loop_fuel_irrelevant (stats sorted : list stat)
    (conditions : list Condition) :
  forall fuel result used,
    (List.length stats <= fuel + List.length used)%nat ->
    greedy_loop (S fuel) stats sorted conditions result used
    = greedy_loop fuel stats sorted conditions result used.
Proof.
  induction fuel as [|fuel IH]; intros result used Hfuel.
  - simpl.
    destruct (Nat.ltb_spec (List.length used) (List.length stats)); [lia|].
    reflexivity.
  - change (greedy_loop (S (S fuel)) stats sorted conditions result used)
      with (if (List.length used <? List.length stats)%nat
            then
              let best_table :=
                fst (fold_left (consider stats conditions used) stats
                               (EmptyString, SIZE_MAX)) in
              if negb (String.eqb best_table EmptyString)
              then greedy_loop (S fuel) stats sorted conditions
                     (result ++ [best_table]) (set_insert best_table used)
              else
                match find (fun st => negb (set_count (fst st) used)) sorted with
                | Some st =>
                    greedy_loop (S fuel) stats sorted conditions
                      (result ++ [fst st]) (set_insert (fst st) used)
                | None => Diverge
                end
            else Ret result).
    change (greedy_loop (S fuel) stats sorted conditions result used)
      with (if (List.length used <? List.length stats)%nat
            then
              let best_table :=
                fst (fold_left (consider stats conditions used) stats
                               (EmptyString, SIZE_MAX)) in
              if negb (String.eqb best_table EmptyString)
              then greedy_loop fuel stats sorted conditions
                     (result ++ [best_table]) (set_insert best_table used)
              else
                match find (fun st => negb (set_count (fst st) used)) sorted with
                | Some st =>
                    greedy_loop fuel stats sorted conditions
                      (result ++ [fst st]) (set_insert (fst st) used)
                | None => Diverge
                end
            else Ret result).
    destruct (List.length used <? List.length stats)%nat; [|reflexivity].
    cbv zeta.
    destruct (@best_table_unused stats conditions used stats
                (EmptyString, SIZE_MAX) (or_introl eq_refl)) as [Hb|Hb].
    + rewrite Hb. simpl negb. cbv iota.
      destruct (find (fun st => negb (set_count (fst st) used)) sorted)
        as [st|] eqn:E; [|reflexivity].
      apply find_some in E. destruct E as [_ E]. apply negb_true_iff in E.
      apply IH. rewrite (set_insert_length _ _ E). lia.
    + destruct (negb (String.eqb _ EmptyString)).
      * apply IH. rewrite (set_insert_length _ _ Hb). lia.
      * destruct (find (fun st => negb (set_count (fst st) used)) sorted)
          as [st|] eqn:E; [|reflexivity].
        apply find_some in E. destruct E as [_ E]. apply negb_true_iff in E.
        apply IH. rewrite (set_insert_length _ _ E). lia.
Qed.

(** A table listed twice among three: the set of used tables stays
    smaller than the list, and the loop does not exit. *)
Example join_order_of_repeated_table :
  join_order sm_abc (tables_query ["a"; "a"; "b"]) = Diverge.
Proof. vm_compute. reflexivity. Qed.

(* ===================================================================== *)
(** * Further properties of the planner and of the scan executor *)
(* ===================================================================== *)

Unset Implicit Arguments.

(** ** The string sets *)

Lemma string_lt_trans (a b c : string) :
  string_lt a b -> string_lt b c -> string_lt a c.
Proof.
  unfold string_lt. intros H1 H2.
  exact (@RelationClasses.StrictOrder_Transitive _ _
           OrdersEx.String_as_OT.lt_strorder a b c H1 H2).
Qed.

Lemma string_lt_irrefl (a : string) : ~ string_lt a a.
Proof.
  unfold string_lt. intros H.
  exact (@RelationClasses.StrictOrder_Irreflexive _ _
           OrdersEx.String_as_OT.lt_strorder a H).
Qed.

Lemma string_compare_gt (x y : string) :
  String.compare x y = Gt -> string_lt y x.
Proof.
  unfold string_lt. intros H.
  rewrite String.compare_antisym, H. reflexivity.
Qed.

Lemma set_insert_in (x z : string) (s : list string) :
  In z (set_insert x s) <-> z = x \/ In z s.
Proof.
  induction s as [|y s IH]; simpl.
  - intuition.
  - destruct (String.compare x y) eqn:E; simpl.
    + apply String.compare_eq_iff in E. subst. intuition.
    + intuition.
    + rewrite IH. intuition.
Qed.

Lemma set_insert_increasing (x : string) (s : list string) :
  strictly_increasing s -> strictly_increasing (set_insert x s).
Proof.
  unfold strictly_increasing.
  induction s as [|y s IH]; simpl; intros Hs.
  - constructor; constructor.
  - inversion Hs as [|y' s' Hs' Hall]; subst.
    destruct (String.compare x y) eqn:E.
    + exact Hs.
    + constructor; [exact Hs|]. constructor; [exact E|].
      eapply Forall_impl; [|exact Hall].
      intros z Hz. eapply string_lt_trans; [exact E | exact Hz].
    + constructor; [apply IH, Hs'|].
      apply Forall_forall. intros z Hz. apply set_insert_in in Hz.
      destruct Hz as [Hz|Hz].
      * subst. apply string_compare_gt, E.
      * rewrite Forall_forall in Hall. apply Hall, Hz.
Qed.

Lemma strictly_increasing_NoDup (s : list string) :
  strictly_increasing s -> NoDup s.
Proof.
  induction 1 as [|y s Hs IH Hall]; constructor; [|exact IH].
  intros Hin. rewrite Forall_forall in Hall.
  exact (string_lt_irrefl _ (Hall y Hin)).
Qed.

(** ** The index-match oracle *)

Lemma indexed_columns_fold (tab : string) (conds : list Condition) :
  forall acc,
    strictly_increasing acc ->
    let r :=
      fold_left
        (fun acc cond =>
           if is_rhs_val cond && String.eqb (tab_name (lhs_col cond)) tab
           then if op_supports_index (op cond)
                then set_insert (col_name (lhs_col cond)) acc
                else acc
           else acc)
        conds acc in
    strictly_increasing r
    /\ (forall c, In c r <->
                  In c acc \/ exists cond, In cond conds /\ offers_column tab c cond).
Proof.
  induction conds as [|cond conds IH]; intros acc Hacc; simpl.
  - split; [exact Hacc|]. intros c. split; [auto|].
    intros [H|[cond [[] _]]]. exact H.
  - set (acc' := if is_rhs_val cond && String.eqb (tab_name (lhs_col cond)) tab
                 then if op_supports_index (op cond)
                      then set_insert (col_name (lhs_col cond)) acc
                      else acc
                 else acc).
    assert (Hacc' : strictly_increasing acc'
                    /\ forall c, In c acc' <-> In c acc \/ offers_column tab c cond).
    { unfold acc', offers_column.
      destruct (is_rhs_val cond) eqn:Ev; simpl.
      - destruct (String.eqb_spec (tab_name (lhs_col cond)) tab) as [Et|Et].
        + assert (Hop : op_supports_index (op cond) = true)
            by (destruct (op cond); reflexivity).
          rewrite Hop. split; [apply set_insert_increasing, Hacc|].
          intros c. rewrite set_insert_in. intuition.
        + split; [exact Hacc|]. intros c. intuition.
      - split; [exact Hacc|]. intros c. intuition discriminate. }
    destruct Hacc' as [Hinc Hin].
    destruct (IH acc' Hinc) as [Hr Hm]. split; [exact Hr|].
    intros c. rewrite Hm, Hin. split.
    + intros [[H|H]|[cond' [Hc Ho]]].
      * left. exact H.
      * right. exists cond. split; [left; reflexivity | exact H].
      * right. exists cond'. split; [right; exact Hc | exact Ho].
    + intros [H|[cond' [[Hc|Hc] Ho]]].
      * left. left. exact H.
      * subst. left. right. exact Ho.
      * right. exists cond'. split; assumption.
Qed.

(** The next theorem in the form the later proofs use. *)
Lemma indexed_columns_facts (tab : string) (conds : list Condition) :
  strictly_increasing (indexed_columns tab conds)
  /\ NoDup (indexed_columns tab conds)
  /\ (forall c,
         In c (indexed_columns tab conds)
         <-> exists cond, In cond conds /\ offers_column tab c cond).
Proof.
  destruct (@indexed_columns_fold tab conds [] (SSorted_nil _)) as [Hs Hm].
  split; [exact Hs|]. split; [apply strictly_increasing_NoDup, Hs|].
  intros c. unfold indexed_columns. rewrite Hm. simpl. intuition.
Qed.

(** X1. The candidate columns of [get_index_cols] come in strictly
    increasing order, so none twice, and a column is a candidate exactly
    when some condition compares it, as a column of the table, with a
    literal; every comparison operator qualifies. *)
Theorem indexed_columns_spec (tab : string) (conds : list Condition) :
  strictly_increasing (indexed_columns tab conds)
  /\ NoDup (indexed_columns tab conds)
  /\ (forall c,
         In c (indexed_columns tab conds)
         <-> exists cond, In cond conds /\ offers_column tab c cond).
Proof. exact (indexed_columns_facts tab conds). Qed.

Lemma find_single_col_index_some (tabm : TabMeta) (cs : list string)
    (found : list string) :
  find_single_col_index tabm cs = Some found ->
  exists before c after,
    cs = before ++ c :: after
    /\ found = [c]
    /\ is_index tabm [c] = true
    /\ Forall (fun b => is_index tabm [b] = false) before.
Proof.
  induction cs as [|c cs IH]; simpl; [discriminate|].
  destruct (is_index tabm [c]) eqn:E.
  - intros H. inversion H. exists [], c, cs. repeat split; auto.
  - intros H. destruct (IH H) as [before [c' [after [Hcs [Hf [Hi Hb]]]]]].
    exists (c :: before), c', after. subst. repeat split; auto.
Qed.

Lemma find_single_col_index_none (tabm : TabMeta) (cs : list string) :
  find_single_col_index tabm cs = None ->
  Forall (fun c => is_index tabm [c] = false) cs.
Proof.
  induction cs as [|c cs IH]; simpl; [constructor|].
  destruct (is_index tabm [c]) eqn:E; [discriminate|].
  intros H. constructor; [exact E | apply IH, H].
Qed.

(** The next theorem in the form the later proofs use. *)
Lemma get_index_cols_true_inv (sm : SmManager) (tab : string)
    (curr_conds : list Condition) (index_col_names : list string) :
  get_index_cols sm tab curr_conds = Ret (true, index_col_names) ->
  exists tabm,
    db_get_table sm tab = Some tabm
    /\ is_index tabm index_col_names = true
    /\ index_col_names <> []
    /\ ((exists c, index_col_names = [c]
                   /\ In c (indexed_columns tab curr_conds))
        \/ (index_col_names = indexed_columns tab curr_conds
            /\ Forall (fun c => is_index tabm [c] = false)
                      (indexed_columns tab curr_conds))).
Proof.
  unfold get_index_cols, get_table. intros H.
  destruct (db_get_table sm tab) as [tabm|]; [|discriminate].
  simpl in H. exists tabm. split; [reflexivity|].
  destruct (indexed_columns tab curr_conds) as [|c0 cs] eqn:E;
    [discriminate|].
  destruct (find_single_col_index tabm (c0 :: cs)) as [found|] eqn:Ef.
  - inversion H; subst.
    apply find_single_col_index_some in Ef.
    destruct Ef as [before [c [after [Hcs [Hf [Hi _]]]]]]. subst.
    split; [exact Hi|]. split; [discriminate|].
    left. exists c. split; [reflexivity|].
    rewrite Hcs. apply in_or_app. right. left. reflexivity.
  - destruct (is_index tabm (c0 :: cs)) eqn:Ei; inversion H; subst.
    split; [exact Ei|]. split; [discriminate|].
    right. split; [reflexivity|].
    apply find_single_col_index_none, Ef.
Qed.

(** X2. When [get_index_cols] answers [true], the table is in the
    catalog and the column list it hands back is an index of the table:
    either a single candidate column, or the whole candidate list when
    no candidate has an index of its own. *)
Theorem get_index_cols_true (sm : SmManager) (tab : string)
    (curr_conds : list Condition) (index_col_names : list string) :
  get_index_cols sm tab curr_conds = Ret (true, index_col_names) ->
  exists tabm,
    db_get_table sm tab = Some tabm
    /\ is_index tabm index_col_names = true
    /\ index_col_names <> []
    /\ ((exists c, index_col_names = [c]
                   /\ In c (indexed_columns tab curr_conds))
        \/ (index_col_names = indexed_columns tab curr_conds
            /\ Forall (fun c => is_index tabm [c] = false)
                      (indexed_columns tab curr_conds))).
Proof. exact (get_index_cols_true_inv sm tab curr_conds index_col_names). Qed.

Lemma get_index_cols_true_witness :
  exists tabm,
    db_get_table sm_index_on_b "t" = Some tabm
    /\ is_index tabm ["b"] = true
    /\ ["b"] <> []
    /\ ((exists c, ["b"] = [c]
                   /\ In c (indexed_columns "t" [val_cond "t" "b" OP_GE 3]))
        \/ (["b"] = indexed_columns "t" [val_cond "t" "b" OP_GE 3]
            /\ Forall (fun c => is_index tabm [c] = false)
                      (indexed_columns "t" [val_cond "t" "b" OP_GE 3]))).
Proof.
  apply (@get_index_cols_true sm_index_on_b "t"
           [val_cond "t" "b" OP_GE 3] ["b"]).
  reflexivity.
Defined.

Lemma strictly_increasing_split (before after : list string) (c x : string) :
  strictly_increasing (before ++ c :: after) ->
  In x (before ++ c :: after) ->
  In x before \/ x = c \/ string_lt c x.
Proof.
  unfold strictly_increasing.
  induction before as [|b before IH]; simpl; intros Hs Hin.
  - inversion Hs as [|c' l' _ Hall]; subst.
    destruct Hin as [Hin|Hin]; [right; left; auto|].
    right. right. rewrite Forall_forall in Hall. apply Hall, Hin.
  - inversion Hs as [|b' l' Hs' _]; subst.
    destruct Hin as [Hin|Hin]; [left; left; exact Hin|].
    destruct (IH Hs' Hin) as [H|[H|H]]; auto.
Qed.

(** X3. A single-column index is preferred, and among the candidates
    with one the first in the order of the strings wins: when some
    candidate column [c] has an index of its own, [get_index_cols]
    answers [true] with one column that has such an index and is [c] or
    comes before [c]. *)
Theorem single_column_index_preferred (sm : SmManager) (tab : string)
    (curr_conds : list Condition) (tabm : TabMeta) (c : string) :
  db_get_table sm tab = Some tabm ->
  In c (indexed_columns tab curr_conds) ->
  is_index tabm [c] = true ->
  exists c',
    get_index_cols sm tab curr_conds = Ret (true, [c'])
    /\ is_index tabm [c'] = true
    /\ In c' (indexed_columns tab curr_conds)
    /\ (c' = c \/ string_lt c' c).
Proof.
  intros Ht Hin Hidx. unfold get_index_cols, get_table. rewrite Ht. simpl.
  pose proof (proj1 (indexed_columns_facts tab curr_conds)) as Hinc.
  destruct (indexed_columns tab curr_conds) as [|c0 cs] eqn:E;
    [contradiction|].
  destruct (find_single_col_index tabm (c0 :: cs)) as [found|] eqn:Ef.
  - apply find_single_col_index_some in Ef.
    destruct Ef as [before [c' [after [Hcs [Hf [Hi Hb]]]]]]. subst found.
    exists c'. split; [reflexivity|]. split; [exact Hi|].
    split; [rewrite Hcs; apply in_or_app; right; left; reflexivity|].
    rewrite Hcs in Hinc, Hin.
    destruct (strictly_increasing_split _ _ _ _ Hinc Hin) as [H|[H|H]].
    + rewrite Forall_forall in Hb. rewrite (Hb c H) in Hidx. discriminate.
    + left. symmetry. exact H.
    + right. exact H.
  - apply find_single_col_index_none in Ef.
    rewrite Forall_forall in Ef. rewrite (Ef c Hin) in Hidx. discriminate.
Qed.

Lemma single_column_index_preferred_witness :
  exists c',
    get_index_cols sm_index_on_b "t"
      [val_cond "t" "b" OP_LT 9; val_cond "t" "a" OP_EQ 1]
    = Ret (true, [c'])
    /\ is_index (indexed_table "t" ["a"; "b"] [["b"]]) [c'] = true
    /\ In c' (indexed_columns "t"
                [val_cond "t" "b" OP_LT 9; val_cond "t" "a" OP_EQ 1])
    /\ (c' = "b" \/ string_lt c' "b").
Proof.
  apply (@single_column_index_preferred sm_index_on_b "t"
           [val_cond "t" "b" OP_LT 9; val_cond "t" "a" OP_EQ 1]
           (indexed_table "t" ["a"; "b"] [["b"]]) "b").
  - reflexivity.
  - vm_compute. right. left. reflexivity.
  - reflexivity.
Defined.

(** X4. [get_index_cols] looks the table up in the catalog whatever the
    conditions are: on an unknown table it throws [TableNotFoundError],
    also for an empty condition list. On a known table without any
    literal condition on one of its columns it answers [false] with an
    empty list. *)
Theorem get_index_cols_without_candidate (sm : SmManager) (tab : string)
    (curr_conds : list Condition) :
  (db_get_table sm tab = None ->
   get_index_cols sm tab curr_conds = Throw (TableNotFoundError tab))
  /\ (db_get_table sm tab <> None ->
      (forall cond, In cond curr_conds ->
                    is_rhs_val cond = false
                    \/ tab_name (lhs_col cond) <> tab) ->
      get_index_cols sm tab curr_conds = Ret (false, [])).
Proof.
  unfold get_index_cols, get_table. split.
  - intros H. rewrite H. reflexivity.
  - intros Ht Hc.
    destruct (db_get_table sm tab) as [tabm|]; [|congruence]. simpl.
    destruct (indexed_columns tab curr_conds) as [|c cs] eqn:E;
      [reflexivity|].
    exfalso.
    assert (Hin : In c (indexed_columns tab curr_conds))
      by (rewrite E; left; reflexivity).
    apply (proj2 (proj2 (indexed_columns_facts tab curr_conds))) in Hin.
    destruct Hin as [cond [Hcond [Hv [Htab _]]]].
    destruct (Hc cond Hcond); congruence.
Qed.

Lemma get_index_cols_without_candidate_witness :
  get_index_cols sm_t "u" [] = Throw (TableNotFoundError "u")
  /\ get_index_cols sm_t "t" [col_cond "t" "a" OP_EQ "u" "a"] = Ret (false, []).
Proof.
  split.
  - apply (proj1 (get_index_cols_without_candidate sm_t "u" [])).
    reflexivity.
  - apply (proj2 (get_index_cols_without_candidate sm_t "t"
                    [col_cond "t" "a" OP_EQ "u" "a"])).
    + discriminate.
    + intros cond [H|[]]. subst. left. reflexivity.
Defined.

(** ** The predicate classifier and the per-table scans *)

Lemma pop_conds_filter (conds : list Condition) (tab : string) :
  pop_conds conds tab
  = (filter (pops tab) conds, filter (fun c => negb (pops tab c)) conds).
Proof.
  induction conds as [|c conds IH]; simpl; [reflexivity|].
  rewrite IH. destruct (pops tab c); reflexivity.
Qed.

Lemma filter_partition_permutation {A : Type} (f : A -> bool) (l : list A) :
  Permutation l (filter f l ++ filter (fun x => negb (f x)) l).
Proof.
  induction l as [|x l IH]; simpl; [constructor|].
  destruct (f x); simpl.
  - apply perm_skip, IH.
  - apply Permutation_cons_app, IH.
Qed.

(** X5. [pop_conds] splits the list and loses nothing: the removed
    conditions followed by the remaining ones are a permutation of the
    list passed in, both parts keep the order of the list, the removed
    ones are exactly the conditions that are literal conditions on the
    table or have the same table on both sides, and a second call for
    the same table on what remains removes nothing. *)
Theorem pop_conds_partition (conds : list Condition) (tab : string) :
  let solved := fst (pop_conds conds tab) in
  let remaining := snd (pop_conds conds tab) in
  Permutation conds (solved ++ remaining)
  /\ solved = filter (pops tab) conds
  /\ remaining = filter (fun c => negb (pops tab c)) conds
  /\ pop_conds remaining tab = ([], remaining).
Proof.
  rewrite pop_conds_filter. simpl.
  split; [apply filter_partition_permutation|].
  split; [reflexivity|]. split; [reflexivity|].
  rewrite pop_conds_filter. f_equal.
  - induction conds as [|c conds IH]; simpl; [reflexivity|].
    destruct (pops tab c) eqn:E; simpl; [exact IH|].
    rewrite E. exact IH.
  - induction conds as [|c conds IH]; simpl; [reflexivity|].
    destruct (pops tab c) eqn:E; simpl; [exact IH|].
    rewrite E. simpl. rewrite IH. reflexivity.
Qed.

Lemma make_scans_cons (sm : SmManager) (t : string) (ts : list string)
    (cs : list Condition) (scans : list ScanPlan) (rest : list Condition) :
  make_scans sm (t :: ts) cs = Ret (scans, rest) ->
  exists index_exist index_col_names scans',
    get_index_cols sm t (filter (pops t) cs)
      = Ret (index_exist, index_col_names)
    /\ make_scans sm ts (filter (fun c => negb (pops t c)) cs)
       = Ret (scans', rest)
    /\ scans =
         (if index_exist
          then new_ScanPlan T_IndexScan t (filter (pops t) cs) index_col_names
          else new_ScanPlan T_SeqScan t (filter (pops t) cs) [])
         :: scans'.
Proof.
  simpl. rewrite pop_conds_filter. simpl. intros H.
  apply bind_Ret_inv in H. destruct H as [[ie icn] [Hg H]].
  apply bind_Ret_inv in H. destruct H as [[scans' rest'] [Hm H]].
  inversion H; subst. exists ie, icn, scans'. repeat split; assumption.
Qed.

(** The next theorem in the form the later proofs use. *)
Lemma make_scans_spec (sm : SmManager) (tabs : list string) :
  forall (cs : list Condition) (scans : list ScanPlan) (rest : list Condition),
    make_scans sm tabs cs = Ret (scans, rest) ->
    map tab_name_ scans = tabs
    /\ Permutation cs (flat_map conds_ scans ++ rest)
    /\ Forall (fun s => fed_conds_ s = conds_ s) scans
    /\ rest = residual_conds tabs cs.
Proof.
  induction tabs as [|t ts IH]; intros cs scans rest H.
  - inversion H; subst. simpl. repeat split; auto.
  - apply make_scans_cons in H.
    destruct H as [ie [icn [scans' [_ [Hm Hs]]]]].
    destruct (IH _ _ _ Hm) as [Hn [Hp [Hf Hr]]].
    assert (Hc : conds_ (if ie
                         then new_ScanPlan T_IndexScan t (filter (pops t) cs) icn
                         else new_ScanPlan T_SeqScan t (filter (pops t) cs) [])
                 = filter (pops t) cs) by (destruct ie; reflexivity).
    subst scans. simpl. rewrite Hc. repeat split.
    + rewrite Hn. destruct ie; reflexivity.
    + rewrite <- app_assoc.
      eapply perm_trans; [apply (filter_partition_permutation (pops t))|].
      apply Permutation_app_head, Hp.
    + constructor; [destruct ie; reflexivity | exact Hf].
    + unfold residual_conds. simpl. rewrite pop_conds_filter. simpl.
      exact Hr.
Qed.

(** X6. The first phase of [make_one_rel] builds one scan per table, in
    the order of the table list, and distributes the conditions without
    losing or repeating one: the conditions of the scans together with
    the conditions left for the joins are a permutation of the
    conditions of the query. Each scan holds its conditions twice, as
    [conds_] and as [fed_conds_]. *)
Theorem make_scans_distributes (sm : SmManager) (tabs : list string) :
  forall (cs : list Condition) (scans : list ScanPlan) (rest : list Condition),
    make_scans sm tabs cs = Ret (scans, rest) ->
    map tab_name_ scans = tabs
    /\ Permutation cs (flat_map conds_ scans ++ rest)
    /\ Forall (fun s => fed_conds_ s = conds_ s) scans
    /\ rest = residual_conds tabs cs.
Proof. exact (make_scans_spec sm tabs). Qed.

Lemma make_scans_distributes_witness :
  map tab_name_
      [new_ScanPlan T_SeqScan "a" [val_cond "a" "x" OP_EQ 5] [];
       new_ScanPlan T_SeqScan "b" [] []]
  = ["a"; "b"]
  /\ Permutation
       [col_cond "a" "k" OP_EQ "b" "k"; val_cond "a" "x" OP_EQ 5]
       (flat_map conds_
                 [new_ScanPlan T_SeqScan "a" [val_cond "a" "x" OP_EQ 5] [];
                  new_ScanPlan T_SeqScan "b" [] []]
        ++ [col_cond "a" "k" OP_EQ "b" "k"])
  /\ Forall (fun s => fed_conds_ s = conds_ s)
            [new_ScanPlan T_SeqScan "a" [val_cond "a" "x" OP_EQ 5] [];
             new_ScanPlan T_SeqScan "b" [] []]
  /\ [col_cond "a" "k" OP_EQ "b" "k"]
     = residual_conds ["a"; "b"]
         [col_cond "a" "k" OP_EQ "b" "k"; val_cond "a" "x" OP_EQ 5].
Proof.
  apply (make_scans_distributes sm_abc ["a"; "b"]
           [col_cond "a" "k" OP_EQ "b" "k"; val_cond "a" "x" OP_EQ 5]).
  reflexivity.
Defined.

(** X7. Access path: every scan of the first phase is either a
    [SeqScan] without index columns or an [IndexScan] whose index
    columns are an index of its table in the catalog. *)
Theorem make_scans_access_path (sm : SmManager) (tabs : list string) :
  forall (cs : list Condition) (scans : list ScanPlan) (rest : list Condition),
    make_scans sm tabs cs = Ret (scans, rest) ->
    Forall
      (fun s =>
         (scan_tag s = T_SeqScan /\ index_col_names_ s = [])
         \/ (scan_tag s = T_IndexScan
             /\ exists tabm,
                 db_get_table sm (tab_name_ s) = Some tabm
                 /\ is_index tabm (index_col_names_ s) = true))
      scans.
Proof.
  induction tabs as [|t ts IH]; intros cs scans rest H.
  - inversion H. constructor.
  - apply make_scans_cons in H.
    destruct H as [ie [icn [scans' [Hg [Hm Hs]]]]]. subst scans.
    constructor; [|exact (IH _ _ _ Hm)].
    destruct ie; simpl.
    + right. split; [reflexivity|].
      apply get_index_cols_true_inv in Hg.
      destruct Hg as [tabm [Ht [Hi _]]]. exists tabm. split; assumption.
    + left. split; reflexivity.
Qed.

Lemma make_scans_access_path_witness :
  Forall
    (fun s =>
       (scan_tag s = T_SeqScan /\ index_col_names_ s = [])
       \/ (scan_tag s = T_IndexScan
           /\ exists tabm,
               db_get_table sm_index_on_b (tab_name_ s) = Some tabm
               /\ is_index tabm (index_col_names_ s) = true))
    [new_ScanPlan T_IndexScan "t" [val_cond "t" "b" OP_EQ 1] ["b"]].
Proof.
  apply (make_scans_access_path sm_index_on_b ["t"]
           [val_cond "t" "b" OP_EQ 1] _ []).
  reflexivity.
Defined.

Lemma residual_conds_filter (tabs : list string) :
  forall cs,
    residual_conds tabs cs
    = filter (fun c => negb (existsb (fun t => pops t c) tabs)) cs.
Proof.
  unfold residual_conds.
  induction tabs as [|t ts IH]; intros cs; simpl.
  - induction cs as [|c cs IHc]; simpl; [reflexivity|]. rewrite <- IHc.
    reflexivity.
  - rewrite pop_conds_filter. simpl. rewrite IH.
    induction cs as [|c cs IHc]; simpl; [reflexivity|].
    destruct (pops t c); simpl; [exact IHc|].
    destruct (existsb (fun t0 => pops t0 c) ts); simpl; [exact IHc|].
    rewrite IHc. reflexivity.
Qed.

(** The next theorem in the form the later proofs use. *)
Lemma residual_conds_in (tabs : list string) (cs : list Condition)
    (c : Condition) :
  tabs <> [] ->
  In c (residual_conds tabs cs) ->
  In c cs
  /\ tab_name (lhs_col c) <> tab_name (rhs_col c)
  /\ (is_rhs_val c = true -> ~ In (tab_name (lhs_col c)) tabs).
Proof.
  intros Hne Hin. rewrite residual_conds_filter in Hin.
  apply filter_In in Hin. destruct Hin as [Hin Hf].
  apply negb_true_iff in Hf.
  assert (Hall : forall t, In t tabs -> pops t c = false).
  { intros t Ht. destruct (pops t c) eqn:E; [|reflexivity].
    assert (existsb (fun t => pops t c) tabs = true)
      by (apply existsb_exists; exists t; split; assumption).
    congruence. }
  split; [exact Hin|]. split.
  - destruct tabs as [|t ts]; [congruence|].
    pose proof (Hall t (or_introl eq_refl)) as Hp. unfold pops in Hp.
    apply orb_false_iff in Hp. destruct Hp as [_ Hp].
    apply String.eqb_neq in Hp. exact Hp.
  - intros Hv Ht. pose proof (Hall _ Ht) as Hp. unfold pops in Hp.
    apply orb_false_iff in Hp. destruct Hp as [Hp _].
    rewrite Hv, String.eqb_refl in Hp. discriminate.
Qed.

(** X8. What the scans leave for the joins: when the query has at least
    one table, every condition left after the first phase is a
    condition of the query whose two sides name different tables, and
    if it is a literal condition its table is not a table of the
    query. *)
Theorem residual_conds_cross_table (tabs : list string) (cs : list Condition)
    (c : Condition) :
  tabs <> [] ->
  In c (residual_conds tabs cs) ->
  In c cs
  /\ tab_name (lhs_col c) <> tab_name (rhs_col c)
  /\ (is_rhs_val c = true -> ~ In (tab_name (lhs_col c)) tabs).
Proof. exact (residual_conds_in tabs cs c). Qed.

Lemma residual_conds_cross_table_witness :
  In (col_cond "a" "k" OP_EQ "b" "k")
     [col_cond "a" "k" OP_EQ "b" "k"; val_cond "a" "x" OP_EQ 5]
  /\ "a" <> "b"
  /\ (false = true -> ~ In "a" ["a"; "b"]).
Proof.
  apply (residual_conds_cross_table ["a"; "b"]
           [col_cond "a" "k" OP_EQ "b" "k"; val_cond "a" "x" OP_EQ 5]
           (col_cond "a" "k" OP_EQ "b" "k")).
  - discriminate.
  - vm_compute. left. reflexivity.
Defined.

(** X9. A condition with the same table on both sides goes to the scan
    of the first table of the query, whichever table it names. *)
Theorem same_table_condition_goes_to_first_scan (sm : SmManager)
    (t : string) (ts : list string) (cs : list Condition)
    (scans : list ScanPlan) (rest : list Condition) (c : Condition) :
  make_scans sm (t :: ts) cs = Ret (scans, rest) ->
  In c cs ->
  tab_name (lhs_col c) = tab_name (rhs_col c) ->
  exists first others,
    scans = first :: others
    /\ tab_name_ first = t
    /\ In c (conds_ first).
Proof.
  intros H Hin Heq. apply make_scans_cons in H.
  destruct H as [ie [icn [scans' [_ [_ Hs]]]]].
  eexists. exists scans'. split; [exact Hs|].
  assert (Hc : In c (filter (pops t) cs)).
  { apply filter_In. split; [exact Hin|]. unfold pops.
    rewrite Heq, String.eqb_refl. apply orb_true_r. }
  destruct ie; simpl; split; auto.
Qed.

Lemma same_table_condition_goes_to_first_scan_witness :
  exists first others,
    [new_ScanPlan T_SeqScan "a" [col_cond "b" "k" OP_EQ "b" "k"] [];
     new_ScanPlan T_SeqScan "b" [] []]
    = first :: others
    /\ tab_name_ first = "a"
    /\ In (col_cond "b" "k" OP_EQ "b" "k") (conds_ first).
Proof.
  apply (same_table_condition_goes_to_first_scan sm_abc "a" ["b"]
           [col_cond "b" "k" OP_EQ "b" "k"] _ []).
  - reflexivity.
  - left. reflexivity.
  - reflexivity.
Defined.

(** ** Attaching a condition to the join tree *)

Lemma permutation_attach {A : Type} (c : A) (cs l r l' : list A) :
  Permutation (c :: l) l' ->
  Permutation (c :: cs ++ l ++ r) (cs ++ l' ++ r).
Proof.
  intros H.
  eapply perm_trans; [apply Permutation_middle|].
  apply Permutation_app_head.
  change (c :: l ++ r) with ((c :: l) ++ r).
  apply Permutation_app_tail, H.
Qed.

Lemma permutation_attach_right {A : Type} (c : A) (cs l r r' : list A) :
  Permutation (c :: r) r' ->
  Permutation (c :: cs ++ l ++ r) (cs ++ l ++ r').
Proof.
  intros H.
  eapply perm_trans; [apply Permutation_middle|].
  apply Permutation_app_head.
  eapply perm_trans; [apply Permutation_middle|].
  apply Permutation_app_head, H.
Qed.

(** The next theorem in the form the later proofs use. *)
Lemma push_conds_spec (cond : Condition) (plan : Plan) :
  let res := fst (push_conds cond plan) in
  let plan' := snd (push_conds cond plan) in
  (res = 0 \/ res = 1 \/ res = 2 \/ res = 3)%Z
  /\ plan_scans plan' = plan_scans plan
  /\ (res = 3%Z ->
      exists c',
        (c' = cond \/ c' = swap_sides cond)
        /\ Permutation (c' :: plan_conditions plan) (plan_conditions plan'))
  /\ (res <> 3%Z -> plan' = plan).
Proof.
  cbv zeta.
  induction plan as [|x|tag l IHl r IHr cs|sub IH cs|sub IH cs|sub IH key desc];
    simpl;
    try (split; [auto|]; split; [reflexivity|]; split;
         [discriminate | reflexivity]).
  - destruct (String.eqb _ _); simpl;
      [split; [auto|]; split; [reflexivity|]; split;
       [discriminate | reflexivity]|].
    destruct (String.eqb _ _); simpl;
      (split; [auto|]; split; [reflexivity|]; split;
       [discriminate | reflexivity]).
  - destruct (push_conds cond l) as [left_res l'].
    destruct (push_conds cond r) as [right_res r'].
    simpl in IHl, IHr.
    destruct IHl as [Hlc [Hls [Hl3 Hln]]].
    destruct IHr as [Hrc [Hrs [Hr3 Hrn]]].
    destruct (Z.eqb_spec left_res 3) as [El|El]; simpl.
    + split; [auto|]. split; [rewrite Hls; reflexivity|].
      split; [|congruence]. intros _.
      destruct (Hl3 El) as [c' [Hc' Hp]]. exists c'. split; [exact Hc'|].
      apply permutation_attach, Hp.
    + rewrite (Hln El).
      destruct (Z.eqb_spec right_res 3) as [Er|Er]; simpl.
      * split; [auto|]. split; [rewrite Hrs; reflexivity|].
        split; [|congruence]. intros _.
        destruct (Hr3 Er) as [c' [Hc' Hp]]. exists c'. split; [exact Hc'|].
        apply permutation_attach_right, Hp.
      * rewrite (Hrn Er).
        destruct ((left_res =? 0)%Z || (right_res =? 0)%Z) eqn:E0; simpl.
        -- split; [|split; [reflexivity|split; [|reflexivity]]].
           ++ apply orb_true_iff in E0.
              destruct E0 as [E0|E0]; apply Z.eqb_eq in E0; subst; lia.
           ++ apply orb_true_iff in E0.
              destruct E0 as [E0|E0]; apply Z.eqb_eq in E0; subst; lia.
        -- split; [auto|]. split; [reflexivity|]. split; [|congruence].
           intros _.
           exists (if (left_res =? 2)%Z then swap_sides cond else cond).
           split; [destruct (left_res =? 2)%Z; auto|].
           rewrite <- app_assoc. simpl. apply Permutation_middle.
Qed.

(** X10. [push_conds] answers 0, 1, 2 or 3 and never touches a scan.
    With the answer 3 the tree has gained exactly one condition, the
    condition passed in or that condition with its sides reversed, and
    has lost none; with any other answer the tree is unchanged. *)
Theorem push_conds_attaches_once (cond : Condition) (plan : Plan) :
  let res := fst (push_conds cond plan) in
  let plan' := snd (push_conds cond plan) in
  (res = 0 \/ res = 1 \/ res = 2 \/ res = 3)%Z
  /\ plan_scans plan' = plan_scans plan
  /\ (res = 3%Z ->
      exists c',
        (c' = cond \/ c' = swap_sides cond)
        /\ Permutation (c' :: plan_conditions plan) (plan_conditions plan'))
  /\ (res <> 3%Z -> plan' = plan).
Proof. exact (push_conds_spec cond plan). Qed.

Lemma mem_string_true (x : string) (l : list string) :
  mem_string x l = true <-> In x l.
Proof. apply set_count_true. Qed.

Lemma mem_string_app (x : string) (l r : list string) :
  mem_string x (l ++ r) = mem_string x l || mem_string x r.
Proof. unfold mem_string. apply existsb_app. Qed.

Lemma mem_string_false_true (x : string) (l r : list string) :
  NoDup (l ++ r) -> mem_string x l = true -> mem_string x r = false.
Proof.
  intros Hnd Hl. destruct (mem_string x r) eqn:Hr; [|reflexivity].
  apply mem_string_true in Hl, Hr.
  exfalso. revert Hnd Hl Hr. clear.
  induction l as [|y l IH]; simpl; intros Hnd Hl Hr; [contradiction|].
  inversion Hnd as [|y' l' Hnotin Hnd']; subst.
  destruct Hl as [Hl|Hl].
  - subst. apply Hnotin, in_or_app. right. exact Hr.
  - exact (IH Hnd' Hl Hr).
Qed.

(** The next theorem in the form the later proofs use. *)
Lemma push_conds_owner (cond : Condition) (plan : Plan) :
  scan_join_only plan = true ->
  NoDup (scan_tables plan) ->
  tab_name (lhs_col cond) <> tab_name (rhs_col cond) ->
  fst (push_conds cond plan) = owner_code cond plan.
Proof.
  intros Hshape Hnd Hne. unfold owner_code.
  induction plan as [|x|tag l IHl r IHr cs|sub IH cs|sub IH cs|sub IH key desc];
    simpl in Hshape; try discriminate.
  - unfold scan_tables. simpl. unfold mem_string. simpl.
    rewrite (String.eqb_sym (tab_name (lhs_col cond)) (tab_name_ x)).
    rewrite (String.eqb_sym (tab_name (rhs_col cond)) (tab_name_ x)).
    destruct (String.eqb_spec (tab_name_ x) (tab_name (lhs_col cond))) as [E|E];
      simpl.
    + destruct (String.eqb_spec (tab_name_ x) (tab_name (rhs_col cond)));
        [congruence | reflexivity].
    + destruct (String.eqb (tab_name_ x) (tab_name (rhs_col cond)));
        reflexivity.
  - apply andb_true_iff in Hshape. destruct Hshape as [Hsl Hsr].
    unfold scan_tables in *. simpl in Hnd. rewrite map_app in Hnd.
    specialize (IHl Hsl (NoDup_app_remove_r _ _ Hnd)).
    specialize (IHr Hsr (NoDup_app_remove_l _ _ Hnd)).
    simpl. rewrite map_app, !mem_string_app.
    pose proof (mem_string_false_true (tab_name (lhs_col cond)) _ _ Hnd) as Hl1.
    pose proof (mem_string_false_true (tab_name (rhs_col cond)) _ _ Hnd) as Hl2.
    destruct (push_conds cond l) as [left_res l'].
    destruct (push_conds cond r) as [right_res r'].
    simpl in IHl, IHr. subst left_res right_res.
    destruct (mem_string (tab_name (lhs_col cond)) (map tab_name_ (plan_scans l)));
      destruct (mem_string (tab_name (rhs_col cond)) (map tab_name_ (plan_scans l)));
      try rewrite (Hl1 eq_refl); try rewrite (Hl2 eq_refl); simpl;
      try reflexivity;
      destruct (mem_string (tab_name (lhs_col cond)) (map tab_name_ (plan_scans r)));
      destruct (mem_string (tab_name (rhs_col cond)) (map tab_name_ (plan_scans r)));
      reflexivity.
Qed.

(** X11. On a tree of scans and joins in which no table is scanned
    twice, and for a condition between two different tables,
    [push_conds] answers 3 (the condition is attached) exactly when
    both tables are scanned in the tree, 1 when only the left-hand
    table is, 2 when only the right-hand table is, and 0 when neither
    is. *)
Theorem push_conds_answer (cond : Condition) (plan : Plan) :
  scan_join_only plan = true ->
  NoDup (scan_tables plan) ->
  tab_name (lhs_col cond) <> tab_name (rhs_col cond) ->
  fst (push_conds cond plan) = owner_code cond plan.
Proof. exact (push_conds_owner cond plan). Qed.

Lemma push_conds_answer_witness :
  fst (push_conds (col_cond "b" "k" OP_LT "a" "k")
         (PJoin T_NestLoop (scan_of "a") (scan_of "b") []))
  = 3%Z.
Proof.
  apply (push_conds_answer (col_cond "b" "k" OP_LT "a" "k")
           (PJoin T_NestLoop (scan_of "a") (scan_of "b") [])).
  - reflexivity.
  - repeat constructor; simpl; intuition discriminate.
  - discriminate.
Defined.

(** ** The join tree of [make_one_rel] *)

Lemma find_scan_some (table : string) (plans : list ScanPlan) :
  forall k i,
    find_scan table plans k = Some i ->
    exists x,
      (k <= i)%nat /\ nth_error plans (i - k) = Some x /\ tab_name_ x = table.
Proof.
  induction plans as [|p plans IH]; simpl; intros k i H; [discriminate|].
  destruct (String.eqb_spec (tab_name_ p) table) as [E|E].
  - inversion H; subst. exists p. rewrite Nat.sub_diag. auto.
  - destruct (IH _ _ H) as [x [Hk [Hn Ht]]]. exists x.
    split; [lia|]. split; [|exact Ht].
    replace (i - k)%nat with (S (i - S k)) by lia. exact Hn.
Qed.

Lemma find_scan_none (table : string) (plans : list ScanPlan) :
  forall k, find_scan table plans k = None -> ~ In table (map tab_name_ plans).
Proof.
  induction plans as [|p plans IH]; simpl; intros k H; [tauto|].
  destruct (String.eqb_spec (tab_name_ p) table) as [E|E]; [discriminate|].
  intros [Hin|Hin]; [contradiction|]. exact (IH _ H Hin).
Qed.

Lemma pop_scan_cases (tbl : list Z) (table : string) (joined : list string)
    (scans : list ScanPlan) :
  (pop_scan tbl table joined scans = (PNull, tbl, joined)
   /\ ~ In table (map tab_name_ scans))
  \/ exists i x,
      nth_error scans i = Some x
      /\ tab_name_ x = table
      /\ pop_scan tbl table joined scans
         = (PScan x, set_nth i 1%Z tbl, joined ++ [table]).
Proof.
  unfold pop_scan. destruct (find_scan table scans 0) as [i|] eqn:E.
  - right. destruct (find_scan_some _ _ _ _ E) as [x [_ [Hn Ht]]].
    rewrite Nat.sub_0_r in Hn. exists i, x. rewrite Hn, Ht. auto.
  - left. split; [reflexivity|]. exact (find_scan_none _ _ _ E).
Qed.

Lemma set_nth_length {A : Type} (v : A) (l : list A) :
  forall i, List.length (set_nth i v l) = List.length l.
Proof.
  induction l as [|x l IH]; intros [|i]; simpl; auto.
Qed.

Lemma nth_error_set_nth {A : Type} (v : A) (l : list A) :
  forall i j,
    nth_error (set_nth i v l) j
    = if Nat.eqb i j
      then match nth_error l j with Some _ => Some v | None => None end
      else nth_error l j.
Proof.
  induction l as [|x l IH]; intros i j.
  - destruct i, j; simpl; try reflexivity; destruct (Nat.eqb _ _); reflexivity.
  - destruct i, j; simpl; try reflexivity. apply IH.
Qed.

Lemma Forall_set_nth {A : Type} (P : A -> Prop) (v : A) (l : list A) :
  P v -> Forall P l -> forall i, Forall P (set_nth i v l).
Proof.
  intros Hv Hl. induction Hl as [|x l Hx Hl IH]; intros [|i]; simpl;
    constructor; auto.
Qed.

Lemma used_scans_set_nth (scans : list ScanPlan) :
  forall tbl i x,
    nth_error scans i = Some x ->
    nth_error tbl i = Some (-1)%Z ->
    Permutation (x :: used_scans scans tbl)
                (used_scans scans (set_nth i 1%Z tbl)).
Proof.
  induction scans as [|s scans IH]; intros tbl i x Hs Ht.
  - destruct i; discriminate.
  - destruct tbl as [|f tbl]; [destruct i; discriminate|].
    destruct i as [|i]; simpl in *.
    + inversion Hs; inversion Ht; subst. simpl. apply Permutation_refl.
    + destruct (f =? -1)%Z.
      * apply IH; assumption.
      * eapply perm_trans; [apply perm_swap|].
        apply perm_skip, IH; assumption.
Qed.

(** Taking the scan of a table that is not yet joined. *)
Lemma pop_new_table (scans : list ScanPlan) (tbl : list Z)
    (joined : list string) (table : string) :
  List.length tbl = List.length scans ->
  Forall (fun f => f = 1%Z \/ f = (-1)%Z) tbl ->
  (forall i x, nth_error scans i = Some x ->
               nth_error tbl i = Some 1%Z -> In (tab_name_ x) joined) ->
  ~ In table joined ->
  In table (map tab_name_ scans) ->
  exists x tbl',
    pop_scan tbl table joined scans = (PScan x, tbl', joined ++ [table])
    /\ tab_name_ x = table
    /\ List.length tbl' = List.length scans
    /\ Forall (fun f => f = 1%Z \/ f = (-1)%Z) tbl'
    /\ (forall i y, nth_error scans i = Some y ->
                    nth_error tbl' i = Some 1%Z ->
                    In (tab_name_ y) (joined ++ [table]))
    /\ Permutation (x :: used_scans scans tbl) (used_scans scans tbl').
Proof.
  intros Hlen Hflags Hmarked Hnot Hknown.
  destruct (pop_scan_cases tbl table joined scans)
    as [[_ Hunknown]|[i [x [Hn [Ht Hpop]]]]]; [contradiction|].
  exists x, (set_nth i 1%Z tbl). split; [exact Hpop|]. split; [exact Ht|].
  assert (Hfi : nth_error tbl i = Some (-1)%Z).
  { destruct (nth_error tbl i) as [f|] eqn:Ef.
    - assert (Hf : f = 1%Z \/ f = (-1)%Z).
      { rewrite Forall_forall in Hflags. apply Hflags.
        eapply nth_error_In, Ef. }
      destruct Hf as [Hf|Hf]; subst f; [|reflexivity].
      exfalso. apply Hnot. rewrite <- Ht. eapply Hmarked; eassumption.
    - exfalso. apply nth_error_None in Ef.
      assert (i < List.length scans)%nat
        by (apply nth_error_Some; congruence).
      lia. }
  split; [rewrite set_nth_length; exact Hlen|].
  split; [apply Forall_set_nth; auto|].
  split.
  - intros j y Hy Hj. rewrite nth_error_set_nth in Hj.
    destruct (Nat.eqb_spec i j) as [E|E].
    + subst j. rewrite Hn in Hy. inversion Hy; subst y.
      apply in_or_app. right. left. symmetry. exact Ht.
    + apply in_or_app. left. eapply Hmarked; eassumption.
  - apply used_scans_set_nth; assumption.
Qed.

Lemma owner_code_cases (cond : Condition) (p : Plan) :
  owner_code cond p <> 0%Z ->
  owner_code cond p <> 3%Z ->
  (owner_code cond p = 1%Z
   /\ In (tab_name (lhs_col cond)) (scan_tables p)
   /\ ~ In (tab_name (rhs_col cond)) (scan_tables p))
  \/ (owner_code cond p = 2%Z
      /\ ~ In (tab_name (lhs_col cond)) (scan_tables p)
      /\ In (tab_name (rhs_col cond)) (scan_tables p)).
Proof.
  unfold owner_code.
  destruct (mem_string (tab_name (lhs_col cond)) (scan_tables p)) eqn:E1;
    destruct (mem_string (tab_name (rhs_col cond)) (scan_tables p)) eqn:E2;
    intros H0 H3; try congruence.
  - left. split; [reflexivity|]. split; [apply mem_string_true, E1|].
    intros H. apply mem_string_true in H. congruence.
  - right. split; [reflexivity|]. split; [|apply mem_string_true, E2].
    intros H. apply mem_string_true in H. congruence.
Qed.

Lemma NoDup_app_disjoint {A : Type} (l r : list A) (x : A) :
  NoDup (l ++ r) -> In x l -> In x r -> False.
Proof.
  induction l as [|y l IH]; simpl; intros Hnd Hl Hr; [contradiction|].
  inversion Hnd as [|y' l' Hnotin Hnd']; subst.
  destruct Hl as [Hl|Hl].
  - subst. apply Hnotin, in_or_app. right. exact Hr.
  - exact (IH Hnd' Hl Hr).
Qed.

(** Attaching a condition keeps the tree a tree of scans and joins and
    keeps it oriented. *)
Lemma push_conds_keeps_tree (cond : Condition) (plan : Plan) :
  scan_join_only plan = true ->
  NoDup (scan_tables plan) ->
  oriented plan ->
  tab_name (lhs_col cond) <> tab_name (rhs_col cond) ->
  scan_join_only (snd (push_conds cond plan)) = true
  /\ oriented (snd (push_conds cond plan))
  /\ (fst (push_conds cond plan) = 3%Z ->
      exists c',
        same_predicate cond c'
        /\ Permutation (c' :: plan_join_conds plan)
                       (plan_join_conds (snd (push_conds cond plan)))).
Proof.
  intros Hshape Hnd Hor Hne.
  induction plan as [|x|tag l IHl r IHr cs|sub IH cs|sub IH cs|sub IH key desc];
    simpl in Hshape; try discriminate.
  - simpl. destruct (String.eqb _ _); simpl;
      [split; [reflexivity|]; split; [exact I|]; discriminate|].
    destruct (String.eqb _ _); simpl;
      (split; [reflexivity|]; split; [exact I|]; discriminate).
  - apply andb_true_iff in Hshape. destruct Hshape as [Hsl Hsr].
    assert (Hndl : NoDup (scan_tables l)).
    { unfold scan_tables in *. simpl in Hnd. rewrite map_app in Hnd.
      exact (NoDup_app_remove_r _ _ Hnd). }
    assert (Hndr : NoDup (scan_tables r)).
    { unfold scan_tables in *. simpl in Hnd. rewrite map_app in Hnd.
      exact (NoDup_app_remove_l _ _ Hnd). }
    assert (Hdis : forall t, In t (scan_tables l) -> In t (scan_tables r) -> False).
    { intros t. unfold scan_tables in *. simpl in Hnd. rewrite map_app in Hnd.
      apply NoDup_app_disjoint, Hnd. }
    simpl in Hor. destruct Hor as [Hcs [Hol Hor]].
    specialize (IHl Hsl Hndl Hol). specialize (IHr Hsr Hndr Hor).
    pose proof (push_conds_owner cond l Hsl Hndl Hne) as Hal.
    pose proof (push_conds_owner cond r Hsr Hndr Hne) as Har.
    pose proof (push_conds_spec cond l) as Hxl.
    pose proof (push_conds_spec cond r) as Hxr.
    cbv zeta in Hxl, Hxr.
    simpl.
    destruct (push_conds cond l) as [left_res l'].
    destruct (push_conds cond r) as [right_res r'].
    simpl in *.
    destruct IHl as [Hsl' [Hol' Hcl]]. destruct IHr as [Hsr' [Hor' Hcr]].
    destruct Hxl as [_ [Hscl [_ Hnl]]]. destruct Hxr as [_ [Hscr [_ Hnr]]].
    assert (Htl : scan_tables l' = scan_tables l)
      by (unfold scan_tables; rewrite Hscl; reflexivity).
    assert (Htr : scan_tables r' = scan_tables r)
      by (unfold scan_tables; rewrite Hscr; reflexivity).
    destruct (Z.eqb_spec left_res 3) as [El|El]; simpl.
    + split; [rewrite Hsl', Hsr; reflexivity|].
      split; [rewrite Htl; auto|]. intros _.
      destruct (Hcl El) as [c' [Hc' Hp]]. exists c'. split; [exact Hc'|].
      apply permutation_attach, Hp.
    + rewrite (Hnl El) in *.
      destruct (Z.eqb_spec right_res 3) as [Er|Er]; simpl.
      * split; [rewrite Hsl, Hsr'; reflexivity|].
        split; [rewrite Htr; auto|]. intros _.
        destruct (Hcr Er) as [c' [Hc' Hp]]. exists c'. split; [exact Hc'|].
        apply permutation_attach_right, Hp.
      * rewrite (Hnr Er) in *.
        destruct ((left_res =? 0)%Z || (right_res =? 0)%Z) eqn:E0; simpl.
        -- split; [rewrite Hsl, Hsr; reflexivity|]. split; [auto|].
           intros H3. exfalso. apply orb_true_iff in E0.
           destruct E0 as [E0|E0]; apply Z.eqb_eq in E0; lia.
        -- apply orb_false_iff in E0. destruct E0 as [E0l E0r].
           apply Z.eqb_neq in E0l, E0r.
           split; [rewrite Hsl, Hsr; reflexivity|].
           assert (Hnew :
             In (tab_name (lhs_col (if (left_res =? 2)%Z
                                    then swap_sides cond else cond)))
                (scan_tables l)
             /\ In (tab_name (rhs_col (if (left_res =? 2)%Z
                                       then swap_sides cond else cond)))
                   (scan_tables r)).
           { rewrite Hal in *. rewrite Har in *.
             destruct (owner_code_cases cond l E0l El)
               as [[Hc [Hin Hout]]|[Hc [Hout Hin]]];
               destruct (owner_code_cases cond r E0r Er)
                 as [[Hc' [Hin' Hout']]|[Hc' [Hout' Hin']]];
               rewrite Hc; simpl.
             - exfalso. exact (Hdis _ Hin Hin').
             - split; assumption.
             - split; assumption.
             - exfalso. exact (Hdis _ Hin Hin'). }
           split.
           ++ split; [|split; assumption].
              apply Forall_app. split; [exact Hcs|].
              constructor; [exact Hnew | constructor].
           ++ intros _.
              exists (if (left_res =? 2)%Z then swap_sides cond else cond).
              split; [unfold same_predicate;
                      destruct (left_res =? 2)%Z; auto|].
              rewrite <- app_assoc. simpl. apply Permutation_middle.
Qed.

Lemma scan_tables_join (tag : PlanTag) (l r : Plan) (cs : list Condition) :
  scan_tables (PJoin tag l r cs) = scan_tables l ++ scan_tables r.
Proof. unfold scan_tables. simpl. apply map_app. Qed.

Lemma same_predicates_snoc (placed l attached attached' : list Condition)
    (c c' : Condition) :
  Forall2 same_predicate placed l ->
  Permutation l attached ->
  same_predicate c c' ->
  Permutation (c' :: attached) attached' ->
  exists l',
    Forall2 same_predicate (placed ++ [c]) l' /\ Permutation l' attached'.
Proof.
  intros Hf Hp Hc Hp'. exists (l ++ [c']). split.
  - apply Forall2_app; [exact Hf|]. constructor; [exact Hc | constructor].
  - eapply perm_trans; [apply Permutation_sym, Permutation_cons_append|].
    eapply perm_trans; [apply perm_skip, Hp | exact Hp'].
Qed.

(** One new table put on top of the tree. *)
Lemma attach_new_table (scans : list ScanPlan) (placed : list Condition)
    (root : Plan) (tbl tbl' : list Z) (joined : list string)
    (x : ScanPlan) (it c' : Condition) :
  join_invariant scans placed (mkJoinState root tbl joined) ->
  ~ In (tab_name_ x) joined ->
  List.length tbl' = List.length scans ->
  Forall (fun f => f = 1%Z \/ f = (-1)%Z) tbl' ->
  (forall i y, nth_error scans i = Some y ->
               nth_error tbl' i = Some 1%Z ->
               In (tab_name_ y) (joined ++ [tab_name_ x])) ->
  Permutation (x :: used_scans scans tbl) (used_scans scans tbl') ->
  same_predicate it c' ->
  tab_name (lhs_col c') = tab_name_ x ->
  In (tab_name (rhs_col c')) (scan_tables root) ->
  join_invariant scans (placed ++ [it])
    (mkJoinState (PJoin T_NestLoop (PScan x) root [c']) tbl'
                 (joined ++ [tab_name_ x])).
Proof.
  intros [Hshape Hlen Hflags Hscans Hmarked Hjoined Hin Hnd Hor Hconds]
         Hnot Hlen' Hflags' Hmarked' Hperm Hsame Hlhs Hrhs.
  simpl in *. destruct Hconds as [l [Hf Hp]].
  constructor; cbn [table_join_executors scantbl joined_tables].
  - simpl. exact Hshape.
  - exact Hlen'.
  - exact Hflags'.
  - simpl. eapply perm_trans; [apply perm_skip, Hscans | exact Hperm].
  - exact Hmarked'.
  - intros t Ht. rewrite scan_tables_join. apply in_app_or in Ht.
    destruct Ht as [Ht|[Ht|[]]].
    + destruct (Hjoined t Ht) as [E|E]; [left; exact E|].
      right. apply in_or_app. right. exact E.
    + right. apply in_or_app. left. left. exact Ht.
  - intros t Ht. rewrite scan_tables_join in Ht. apply in_or_app.
    apply in_app_or in Ht.
    destruct Ht as [[Ht|[]]|Ht]; [right; left; exact Ht|].
    left. apply Hin, Ht.
  - rewrite scan_tables_join. unfold scan_tables at 1. simpl.
    constructor; [|exact Hnd].
    intros H. apply Hnot, Hin, H.
  - simpl. split; [|split; [exact I | exact Hor]].
    constructor; [|constructor]. split; [|exact Hrhs].
    left. symmetry. exact Hlhs.
  - simpl. eapply same_predicates_snoc; [exact Hf | exact Hp | exact Hsame|].
    apply Permutation_refl.
Qed.

Lemma mem_string_snoc_false (x y : string) (l : list string) :
  x <> y -> mem_string x (l ++ [y]) = mem_string x l.
Proof.
  intros H. rewrite mem_string_app. unfold mem_string at 2. simpl.
  destruct (String.eqb_spec x y); [contradiction|].
  rewrite !orb_false_r. reflexivity.
Qed.

Lemma mem_string_false (x : string) (l : list string) :
  mem_string x l = false -> ~ In x l.
Proof.
  intros H Hin. apply mem_string_true in Hin. congruence.
Qed.

(** A round of the extension loop keeps the invariant of the join
    phase. *)
Lemma extend_join_invariant (scans : list ScanPlan) (placed : list Condition)
    (st : JoinState) (it : Condition) :
  join_invariant scans placed st ->
  tables_known (map tab_name_ scans) it ->
  tab_name (lhs_col it) <> tab_name (rhs_col it) ->
  tab_name (lhs_col it) <> EmptyString ->
  tab_name (rhs_col it) <> EmptyString ->
  join_invariant scans (placed ++ [it]) (extend_join scans st it).
Proof.
  intros Hinv [Hkl Hkr] Hne Hle Hre.
  destruct st as [root tbl joined].
  pose proof Hinv as
    [Hshape Hlen Hflags Hscans Hmarked Hjoined Hin Hnd Hor Hconds].
  simpl in *.
  unfold extend_join. simpl.
  destruct (mem_string (tab_name (lhs_col it)) joined) eqn:Ml; simpl.
  - assert (Hlt : In (tab_name (lhs_col it)) (scan_tables root)).
    { apply mem_string_true in Ml.
      destruct (Hjoined _ Ml); [contradiction | assumption]. }
    destruct (mem_string (tab_name (rhs_col it)) joined) eqn:Mr; simpl.
    + assert (Hrt : In (tab_name (rhs_col it)) (scan_tables root)).
      { apply mem_string_true in Mr.
        destruct (Hjoined _ Mr); [contradiction | assumption]. }
      pose proof (push_conds_owner it root Hshape Hnd Hne) as Hans.
      unfold owner_code in Hans.
      rewrite (proj2 (mem_string_true _ _) Hlt) in Hans.
      rewrite (proj2 (mem_string_true _ _) Hrt) in Hans.
      destruct (push_conds_keeps_tree it root Hshape Hnd Hor Hne)
        as [Hs' [Ho' Hc']].
      destruct (Hc' Hans) as [c' [Hsame Hp']].
      pose proof (push_conds_spec it root) as Hx.
      cbv zeta in Hx. destruct Hx as [_ [Hsc _]].
      assert (Hst : scan_tables (snd (push_conds it root)) = scan_tables root)
        by (unfold scan_tables; rewrite Hsc; reflexivity).
      destruct Hconds as [l [Hf Hp]].
      constructor; cbn [table_join_executors scantbl joined_tables].
      * exact Hs'.
      * exact Hlen.
      * exact Hflags.
      * rewrite Hsc. exact Hscans.
      * exact Hmarked.
      * rewrite Hst. exact Hjoined.
      * rewrite Hst. exact Hin.
      * rewrite Hst. exact Hnd.
      * exact Ho'.
      * eapply same_predicates_snoc; eassumption.
    + apply mem_string_false in Mr.
      destruct (pop_new_table scans tbl joined (tab_name (rhs_col it))
                  Hlen Hflags Hmarked Mr Hkr)
        as [y [tbl' [Hpop [Hy [Hlen' [Hflags' [Hmarked' Hperm]]]]]]].
      rewrite Hpop. simpl. rewrite <- Hy in *.
      apply (attach_new_table scans placed root tbl tbl' joined y it
               (swap_sides it) Hinv); auto;
        try solve [right; reflexivity | simpl; symmetry; exact Hy].
  - apply mem_string_false in Ml.
    destruct (pop_new_table scans tbl joined (tab_name (lhs_col it))
                Hlen Hflags Hmarked Ml Hkl)
      as [x [tbl1 [Hpop [Hx [Hlen1 [Hflags1 [Hmarked1 Hperm1]]]]]]].
    rewrite Hpop.
    rewrite (mem_string_snoc_false _ _ joined (not_eq_sym Hne)).
    destruct (mem_string (tab_name (rhs_col it)) joined) eqn:Mr; simpl.
    + assert (Hrt : In (tab_name (rhs_col it)) (scan_tables root)).
      { apply mem_string_true in Mr.
        destruct (Hjoined _ Mr); [contradiction | assumption]. }
      rewrite <- Hx in *.
      apply (attach_new_table scans placed root tbl tbl1 joined x it it Hinv);
        auto; try solve [left; reflexivity].
    + apply mem_string_false in Mr.
      assert (Mr1 : ~ In (tab_name (rhs_col it))
                      (joined ++ [tab_name (lhs_col it)])).
      { intros H. apply in_app_or in H. destruct H as [H|[H|[]]];
          [exact (Mr H) | exact (Hne H)]. }
      destruct (pop_new_table scans tbl1 _ (tab_name (rhs_col it))
                  Hlen1 Hflags1 Hmarked1 Mr1 Hkr)
        as [y [tbl2 [Hpop2 [Hy [Hlen2 [Hflags2 [Hmarked2 Hperm2]]]]]]].
      rewrite Hpop2. simpl.
      destruct Hconds as [l [Hf Hp]].
      constructor; cbn [table_join_executors scantbl joined_tables].
      * simpl. exact Hshape.
      * exact Hlen2.
      * exact Hflags2.
      * simpl. eapply perm_trans; [|exact Hperm2].
        eapply perm_trans; [apply perm_swap|].
        apply perm_skip.
        eapply perm_trans; [apply perm_skip, Hscans | exact Hperm1].
      * exact Hmarked2.
      * intros t Ht. rewrite !scan_tables_join.
        apply in_app_or in Ht. destruct Ht as [Ht|[Ht|[]]].
        -- apply in_app_or in Ht. destruct Ht as [Ht|[Ht|[]]].
           ++ destruct (Hjoined t Ht) as [E|E]; [left; exact E|].
              right. apply in_or_app. right. exact E.
           ++ right. apply in_or_app. left. apply in_or_app. left.
              left. congruence.
        -- right. apply in_or_app. left. apply in_or_app. right.
           left. congruence.
      * intros t Ht. rewrite !scan_tables_join in Ht.
        apply in_app_or in Ht. destruct Ht as [Ht|Ht].
        -- apply in_app_or in Ht. destruct Ht as [[Ht|[]]|[Ht|[]]].
           ++ apply in_or_app. left. apply in_or_app. right. left. congruence.
           ++ apply in_or_app. right. left. congruence.
        -- apply in_or_app. left. apply in_or_app. left. apply Hin, Ht.
      * rewrite !scan_tables_join. unfold scan_tables at 1 2. simpl.
        rewrite Hx, Hy.
        constructor.
        -- intros [H|H]; [exact (Hne (eq_sym H))|]. apply Ml, Hin, H.
        -- constructor; [|exact Hnd]. intros H. apply Mr, Hin, H.
      * simpl. split; [constructor|]. split; [|exact Hor].
        split; [|split; exact I].
        constructor; [|constructor]. unfold scan_tables. simpl.
        split; left; assumption.
      * simpl. eapply same_predicates_snoc;
          [exact Hf | exact Hp | left; reflexivity|].
        simpl. apply Permutation_refl.
Qed.

Lemma used_scans_none (scans : list ScanPlan) :
  forall n, used_scans scans (repeat (-1)%Z n) = [].
Proof.
  induction scans as [|x scans IH]; intros [|n]; simpl; auto.
Qed.

Lemma nth_error_repeat {A : Type} (v w : A) (n i : nat) :
  nth_error (repeat v n) i = Some w -> w = v.
Proof.
  intros H. apply nth_error_In, repeat_spec in H. exact H.
Qed.

(** The seed establishes the invariant of the join phase. *)
Lemma seed_join_invariant (k : Knobs) (scans : list ScanPlan)
    (it : Condition) (st : JoinState) :
  seed_join k scans (List.length scans) it = Ret st ->
  tables_known (map tab_name_ scans) it ->
  tab_name (lhs_col it) <> tab_name (rhs_col it) ->
  tab_name (lhs_col it) <> EmptyString ->
  tab_name (rhs_col it) <> EmptyString ->
  join_invariant scans [it] st.
Proof.
  intros Hseed [Hkl Hkr] Hne Hle Hre. unfold seed_join in Hseed.
  set (n := List.length scans) in *.
  assert (Hl0 : ~ In (tab_name (lhs_col it)) (repeat EmptyString n)).
  { intros H. apply repeat_spec in H. contradiction. }
  assert (Hm0 : forall i x, nth_error scans i = Some x ->
                            nth_error (repeat (-1)%Z n) i = Some 1%Z ->
                            In (tab_name_ x) (repeat EmptyString n)).
  { intros i x _ H. apply nth_error_repeat in H. discriminate. }
  assert (Hf0 : Forall (fun f => f = 1%Z \/ f = (-1)%Z) (repeat (-1)%Z n)).
  { apply Forall_forall. intros f H. apply repeat_spec in H. right. exact H. }
  destruct (pop_new_table scans (repeat (-1)%Z n) (repeat EmptyString n)
              (tab_name (lhs_col it)) (repeat_length _ _) Hf0 Hm0 Hl0 Hkl)
    as [x [tbl1 [Hpop [Hx [Hlen1 [Hflags1 [Hmarked1 Hperm1]]]]]]].
  rewrite Hpop in Hseed.
  assert (Hr1 : ~ In (tab_name (rhs_col it))
                  (repeat EmptyString n ++ [tab_name (lhs_col it)])).
  { intros H. apply in_app_or in H. destruct H as [H|[H|[]]].
    - apply repeat_spec in H. contradiction.
    - exact (Hne H). }
  destruct (pop_new_table scans tbl1 _ (tab_name (rhs_col it))
              Hlen1 Hflags1 Hmarked1 Hr1 Hkr)
    as [y [tbl2 [Hpop2 [Hy [Hlen2 [Hflags2 [Hmarked2 Hperm2]]]]]]].
  rewrite Hpop2 in Hseed.
  apply bind_Ret_inv in Hseed. destruct Hseed as [tag [_ Hseed]].
  inversion Hseed; subst st. clear Hseed.
  rewrite used_scans_none in Hperm1.
  constructor; cbn [table_join_executors scantbl joined_tables].
  - reflexivity.
  - exact Hlen2.
  - exact Hflags2.
  - simpl. eapply perm_trans; [apply perm_swap|].
    eapply perm_trans; [apply perm_skip, Hperm1 | exact Hperm2].
  - exact Hmarked2.
  - intros t Ht. unfold scan_tables. simpl.
    apply in_app_or in Ht. destruct Ht as [Ht|[Ht|[]]].
    + apply in_app_or in Ht. destruct Ht as [Ht|[Ht|[]]].
      * left. apply repeat_spec in Ht. exact Ht.
      * right. left. congruence.
    + right. right. left. congruence.
  - intros t Ht. unfold scan_tables in Ht. simpl in Ht.
    destruct Ht as [Ht|[Ht|[]]].
    + apply in_or_app. left. apply in_or_app. right. left. congruence.
    + apply in_or_app. right. left. congruence.
  - unfold scan_tables. simpl. rewrite Hx, Hy.
    constructor; [intros [H|[]]; exact (Hne (eq_sym H))|].
    constructor; [intros [] | constructor].
  - simpl. split; [|split; exact I].
    constructor; [|constructor]. unfold scan_tables. simpl.
    split; left; assumption.
  - exists [it]. split; [constructor; [left; reflexivity | constructor]|].
    simpl. apply Permutation_refl.
Qed.

Lemma extension_loop_invariant (scans : list ScanPlan) (rest : list Condition) :
  forall placed st,
    join_invariant scans placed st ->
    Forall (fun it =>
              tables_known (map tab_name_ scans) it
              /\ tab_name (lhs_col it) <> tab_name (rhs_col it)
              /\ tab_name (lhs_col it) <> EmptyString
              /\ tab_name (rhs_col it) <> EmptyString) rest ->
    join_invariant scans (placed ++ rest)
                   (fold_left (extend_join scans) rest st).
Proof.
  induction rest as [|it rest IH]; intros placed st Hinv Hall; simpl.
  - rewrite app_nil_r. exact Hinv.
  - inversion Hall as [|it' rest' [Hk [Hne [Hl Hr]]] Hall']; subst.
    replace (placed ++ it :: rest) with ((placed ++ [it]) ++ rest)
      by (rewrite <- app_assoc; reflexivity).
    apply IH; [|exact Hall'].
    apply extend_join_invariant; assumption.
Qed.

Lemma cartesian_attach_tree (scans : list ScanPlan) :
  forall tbl root,
    scan_join_only root = true ->
    oriented root ->
    scan_join_only (cartesian_attach scans tbl root) = true
    /\ oriented (cartesian_attach scans tbl root)
    /\ plan_join_conds (cartesian_attach scans tbl root) = plan_join_conds root
    /\ Permutation (plan_scans (cartesian_attach scans tbl root))
                   (unused_scans scans tbl ++ plan_scans root).
Proof.
  induction scans as [|x scans IH]; intros tbl root Hs Ho; simpl.
  - repeat split; auto.
  - destruct tbl as [|used tbl]; [repeat split; auto|].
    destruct (used =? -1)%Z.
    + destruct (IH tbl (PJoin T_NestLoop (PScan x) root []))
        as [Hs' [Ho' [Hc' Hp']]].
      * simpl. exact Hs.
      * simpl. split; [constructor | split; [exact I | exact Ho]].
      * split; [exact Hs'|]. split; [exact Ho'|]. split; [exact Hc'|].
        eapply perm_trans; [exact Hp'|]. simpl.
        apply Permutation_sym, Permutation_middle.
    + apply IH; assumption.
Qed.

Lemma used_unused_scans (scans : list ScanPlan) :
  forall tbl,
    List.length tbl = List.length scans ->
    Permutation (unused_scans scans tbl ++ used_scans scans tbl) scans.
Proof.
  induction scans as [|x scans IH]; intros [|f tbl] Hlen; simpl in *;
    try discriminate; [constructor|].
  injection Hlen as Hlen.
  destruct (f =? -1)%Z; simpl.
  - apply perm_skip, IH, Hlen.
  - eapply perm_trans; [apply Permutation_sym, Permutation_middle|].
    apply perm_skip, IH, Hlen.
Qed.

Lemma plan_conditions_split (p : Plan) :
  scan_join_only p = true ->
  Permutation (plan_conditions p)
              (flat_map conds_ (plan_scans p) ++ plan_join_conds p).
Proof.
  induction p as [|x|tag l IHl r IHr cs|sub IH cs|sub IH cs|sub IH key desc];
    simpl; intros H; try discriminate.
  - rewrite !app_nil_r. apply Permutation_refl.
  - apply andb_true_iff in H. destruct H as [Hl Hr].
    rewrite flat_map_app.
    eapply perm_trans;
      [apply Permutation_app_head, Permutation_app;
       [exact (IHl Hl) | exact (IHr Hr)]|].
    set (sl := flat_map conds_ (plan_scans l)).
    set (sr := flat_map conds_ (plan_scans r)).
    set (jl := plan_join_conds l). set (jr := plan_join_conds r).
    apply Permutation_trans with (l' := (sl ++ sr) ++ cs ++ jl ++ jr);
      [|apply Permutation_refl].
    eapply perm_trans; [apply Permutation_app_comm|].
    rewrite <- !app_assoc.
    apply Permutation_app_head.
    eapply perm_trans; [apply Permutation_app_comm|].
    rewrite <- !app_assoc.
    apply Permutation_app_head.
    eapply perm_trans; [apply Permutation_app_comm|].
    rewrite <- !app_assoc. apply Permutation_refl.
Qed.

Lemma join_phase_tree (k : Knobs) (scans : list ScanPlan)
    (rest : list Condition) (st : JoinState) :
  join_phase k scans rest = Ret st ->
  Forall (fun it =>
            tables_known (map tab_name_ scans) it
            /\ tab_name (lhs_col it) <> tab_name (rhs_col it)
            /\ tab_name (lhs_col it) <> EmptyString
            /\ tab_name (rhs_col it) <> EmptyString) rest ->
  let plan := cartesian_attach scans (scantbl st) (table_join_executors st) in
  scan_join_only plan = true
  /\ Permutation (plan_scans plan) scans
  /\ oriented plan
  /\ exists l,
      Forall2 same_predicate rest l /\ Permutation l (plan_join_conds plan).
Proof.
  intros Hj Hall. cbv zeta.
  assert (Hfinal :
    scan_join_only (table_join_executors st) = true
    /\ oriented (table_join_executors st)
    /\ List.length (scantbl st) = List.length scans
    /\ Permutation (plan_scans (table_join_executors st))
                   (used_scans scans (scantbl st))
    /\ exists l, Forall2 same_predicate rest l
                 /\ Permutation l (plan_join_conds (table_join_executors st))).
  { unfold join_phase in Hj. destruct rest as [|it rest].
    - destruct scans as [|x scans]; [discriminate|].
      inversion Hj; subst st. simpl.
      split; [reflexivity|]. split; [exact I|].
      split; [rewrite repeat_length; reflexivity|].
      split; [|exists []; split; constructor].
      destruct (Z.eqb_spec 1 (-1)); [discriminate|].
      rewrite used_scans_none. apply Permutation_refl.
    - apply bind_Ret_inv in Hj. destruct Hj as [st0 [Hseed Hj]].
      inversion Hj; subst st. clear Hj.
      inversion Hall as [|it' rest' [Hk [Hne [Hl Hr]]] Hall']; subst.
      pose proof (seed_join_invariant k scans it st0 Hseed Hk Hne Hl Hr)
        as Hinv0.
      pose proof (extension_loop_invariant scans rest [it] st0 Hinv0 Hall')
        as Hinv.
      simpl in Hinv.
      destruct Hinv as [Hs Hlen _ Hsc _ _ _ _ Ho Hc].
      repeat split; assumption. }
  destruct Hfinal as [Hs [Ho [Hlen [Hsc [l [Hf Hp]]]]]].
  destruct (cartesian_attach_tree scans (scantbl st)
              (table_join_executors st) Hs Ho)
    as [Hs' [Ho' [Hc' Hp']]].
  split; [exact Hs'|]. split; [|split; [exact Ho'|]].
  - eapply perm_trans; [exact Hp'|].
    eapply perm_trans; [apply Permutation_app_head, Hsc|].
    apply used_unused_scans, Hlen.
  - exists l. split; [exact Hf|]. rewrite Hc'. exact Hp.
Qed.

Lemma Forall2_same_predicate_refl (l : list Condition) :
  Forall2 same_predicate l l.
Proof.
  induction l; constructor; [left; reflexivity | assumption].
Qed.

(** The tree that [make_one_rel] returns, when every condition left for
    the joins is between tables of the query and no table has the empty
    name. *)
Lemma make_one_rel_tree (sm : SmManager) (k : Knobs) (query query1 : Query)
    (plan : Plan) :
  make_one_rel sm k query = Ret (plan, query1) ->
  Forall (tables_known (tables query))
         (residual_conds (tables query) (conds query)) ->
  ~ In EmptyString (tables query) ->
  exists scans,
    make_scans sm (tables query) (conds query)
      = Ret (scans, residual_conds (tables query) (conds query))
    /\ scan_join_only plan = true
    /\ Permutation (plan_scans plan) scans
    /\ oriented plan
    /\ exists l,
        Forall2 same_predicate
                (residual_conds (tables query) (conds query)) l
        /\ Permutation l (plan_join_conds plan).
Proof.
  intros H Hknown Hempty. unfold make_one_rel in H.
  apply bind_Ret_inv in H. destruct H as [[scans rest] [Hm H]].
  destruct (make_scans_spec sm _ _ _ _ Hm) as [Hnames [_ [_ Hrest]]].
  subst rest. exists scans. split; [exact Hm|].
  assert (Hall :
    tables query <> [] ->
    Forall (fun it =>
              tables_known (map tab_name_ scans) it
              /\ tab_name (lhs_col it) <> tab_name (rhs_col it)
              /\ tab_name (lhs_col it) <> EmptyString
              /\ tab_name (rhs_col it) <> EmptyString)
           (residual_conds (tables query) (conds query))).
  { intros Hne. apply Forall_forall. intros it Hit.
    rewrite Forall_forall in Hknown. pose proof (Hknown it Hit) as [Hl Hr].
    destruct (residual_conds_in _ _ _ Hne Hit) as [_ [Hd _]].
    rewrite Hnames. split; [split; assumption|]. split; [exact Hd|].
    split; intros E; apply Hempty; rewrite <- E; assumption. }
  assert (Hjoin :
    forall st,
      join_phase k scans (residual_conds (tables query) (conds query)) = Ret st ->
      plan = cartesian_attach scans (scantbl st) (table_join_executors st) ->
      scan_join_only plan = true
      /\ Permutation (plan_scans plan) scans
      /\ oriented plan
      /\ exists l,
          Forall2 same_predicate
                  (residual_conds (tables query) (conds query)) l
          /\ Permutation l (plan_join_conds plan)).
  { intros st Hj Hplan. subst plan.
    destruct (tables query) as [|t ts] eqn:Et.
    - destruct scans; [|discriminate].
      unfold residual_conds in Hj. simpl in Hj.
      destruct (conds query) as [|c cs].
      + discriminate.
      + exfalso. unfold residual_conds in Hknown. simpl in Hknown.
        inversion Hknown as [|c' cs' [[] _] _].
    - apply (join_phase_tree k scans _ st Hj). apply Hall. discriminate. }
  destruct scans as [|x [|y scans]].
  - apply bind_Ret_inv in H. destruct H as [st [Hj H]].
    apply (Hjoin st Hj). congruence.
  - assert (Hp : plan = PScan x) by congruence. subst plan.
    split; [reflexivity|]. split; [apply Permutation_refl|].
    split; [exact I|]. exists []. split; [|constructor].
    destruct (residual_conds (tables query) (conds query)) as [|c cs] eqn:Er;
      [constructor|].
    exfalso.
    assert (Hc : In c (residual_conds (tables query) (conds query)))
      by (rewrite Er; left; reflexivity).
    destruct (tables query) as [|t [|t' ts]] eqn:Et; try discriminate.
    destruct (residual_conds_in [t] _ c ltac:(discriminate) Hc)
      as [_ [Hd _]].
    rewrite Forall_forall in Hknown.
    destruct (Hknown c (or_introl eq_refl)) as [Hl Hr].
    destruct Hl as [Hl|[]]. destruct Hr as [Hr|[]]. congruence.
  - apply bind_Ret_inv in H. destruct H as [st [Hj H]].
    apply (Hjoin st Hj). congruence.
Qed.

Lemma chain_query_planned :
  make_one_rel sm_abc both_on chain_query
  = Ret (chain_plan, set_conds chain_query []).
Proof. reflexivity. Qed.

Lemma chain_query_conditions_known :
  Forall (tables_known (tables chain_query))
         (residual_conds (tables chain_query) (conds chain_query)).
Proof.
  apply Forall_forall. intros c Hc. vm_compute in Hc.
  destruct Hc as [Hc|[Hc|[]]]; subst c; split; simpl; auto 6.
Qed.

Lemma chain_query_tables_named : ~ In EmptyString (tables chain_query).
Proof. simpl. intuition discriminate. Qed.

(** X12. No table is lost or scanned twice: when every condition left
    for the joins is between tables of the query and no table has the
    empty name, the plan of [make_one_rel] is made of joins and scans
    only, without null child, and its scans are the tables of the
    query, each as often as the query lists it. *)
Theorem every_table_scanned_once (sm : SmManager) (k : Knobs)
    (query query1 : Query) (plan : Plan) :
  make_one_rel sm k query = Ret (plan, query1) ->
  Forall (tables_known (tables query))
         (residual_conds (tables query) (conds query)) ->
  ~ In EmptyString (tables query) ->
  scan_join_only plan = true
  /\ Permutation (scan_tables plan) (tables query).
Proof.
  intros H Hk He.
  destruct (make_one_rel_tree sm k query query1 plan H Hk He)
    as [scans [Hm [Hs [Hp _]]]].
  split; [exact Hs|].
  destruct (make_scans_spec sm _ _ _ _ Hm) as [Hnames _].
  rewrite <- Hnames. unfold scan_tables. apply Permutation_map, Hp.
Qed.

Lemma every_table_scanned_once_witness :
  scan_join_only chain_plan = true
  /\ Permutation (scan_tables chain_plan) (tables chain_query).
Proof.
  exact (every_table_scanned_once sm_abc both_on chain_query
           (set_conds chain_query []) chain_plan chain_query_planned
           chain_query_conditions_known chain_query_tables_named).
Defined.

(** X13. Under the same conditions every condition that [make_one_rel]
    puts on a join node has its left-hand table scanned in the left
    subtree of that node and its right-hand table in the right
    subtree. *)
Theorem join_conditions_oriented (sm : SmManager) (k : Knobs)
    (query query1 : Query) (plan : Plan) :
  make_one_rel sm k query = Ret (plan, query1) ->
  Forall (tables_known (tables query))
         (residual_conds (tables query) (conds query)) ->
  ~ In EmptyString (tables query) ->
  oriented plan.
Proof.
  intros H Hk He.
  destruct (make_one_rel_tree sm k query query1 plan H Hk He)
    as [scans [_ [_ [_ [Ho _]]]]].
  exact Ho.
Qed.

Lemma join_conditions_oriented_witness : oriented chain_plan.
Proof.
  exact (join_conditions_oriented sm_abc both_on chain_query
           (set_conds chain_query []) chain_plan chain_query_planned
           chain_query_conditions_known chain_query_tables_named).
Defined.

(** The next theorem in the form the later proofs use. *)
Lemma make_one_rel_predicates (sm : SmManager) (k : Knobs)
    (query query1 : Query) (plan : Plan) :
  make_one_rel sm k query = Ret (plan, query1) ->
  Forall (tables_known (tables query))
         (residual_conds (tables query) (conds query)) ->
  ~ In EmptyString (tables query) ->
  same_predicates (conds query) (plan_conditions plan).
Proof.
  intros H Hk He.
  destruct (make_one_rel_tree sm k query query1 plan H Hk He)
    as [scans [Hm [Hs [Hp [_ [l [Hf Hl]]]]]]].
  destruct (make_scans_spec sm _ _ _ _ Hm) as [_ [Hd _]].
  exists (flat_map conds_ scans
          ++ residual_conds (tables query) (conds query)),
         (flat_map conds_ scans ++ l).
  split; [exact Hd|]. split.
  - apply Forall2_app; [apply Forall2_same_predicate_refl | exact Hf].
  - eapply perm_trans; [|apply Permutation_sym, plan_conditions_split, Hs].
    apply Permutation_app; [|exact Hl].
    apply Permutation_flat_map, Permutation_sym, Hp.
Qed.

(** X14. Under the same conditions [make_one_rel] loses and repeats no
    predicate: the conditions held by the scans and the joins of its
    plan are the conditions of the query, each once, a condition on a
    join possibly with its sides reversed. *)
Theorem make_one_rel_keeps_predicates (sm : SmManager) (k : Knobs)
    (query query1 : Query) (plan : Plan) :
  make_one_rel sm k query = Ret (plan, query1) ->
  Forall (tables_known (tables query))
         (residual_conds (tables query) (conds query)) ->
  ~ In EmptyString (tables query) ->
  same_predicates (conds query) (plan_conditions plan).
Proof. exact (make_one_rel_predicates sm k query query1 plan). Qed.

Lemma make_one_rel_keeps_predicates_witness :
  same_predicates (conds chain_query) (plan_conditions chain_plan).
Proof.
  exact (make_one_rel_keeps_predicates sm_abc both_on chain_query
           (set_conds chain_query []) chain_plan chain_query_planned
           chain_query_conditions_known chain_query_tables_named).
Defined.

(** ** The predicate-pushdown refiner *)

Lemma bare_extract (p : Plan) :
  bare p = true -> extract_conditions_from_plan p = [].
Proof.
  induction p as [|x|tag l IHl r IHr cs|sub IH cs|sub IH cs|sub IH key desc];
    simpl; intros H; try reflexivity.
  - destruct (conds_ x); [reflexivity | discriminate].
  - apply andb_true_iff in H. destruct H as [Hl Hr].
    rewrite (IHl Hl), (IHr Hr). reflexivity.
Qed.

Lemma bare_clear (p : Plan) : bare (clear_conditions_from_plan p) = true.
Proof.
  induction p as [|x|tag l IHl r IHr cs|sub IH cs|sub IH cs|sub IH key desc];
    simpl; try reflexivity.
  rewrite IHl, IHr. reflexivity.
Qed.

Lemma clear_of_bare (p : Plan) :
  bare p = true -> clear_conditions_from_plan p = p.
Proof.
  induction p as [|x|tag l IHl r IHr cs|sub IH cs|sub IH cs|sub IH key desc];
    simpl; intros H; try reflexivity.
  - destruct x as [tag t cs fed idx]. simpl in H.
    destruct cs; [reflexivity | discriminate].
  - apply andb_true_iff in H. destruct H as [Hl Hr].
    rewrite (IHl Hl), (IHr Hr). reflexivity.
Qed.

Lemma settled_clear (p : Plan) :
  settled p = true -> settled (clear_conditions_from_plan p) = true.
Proof.
  induction p as [|x|tag l IHl r IHr cs|sub IH cs|sub IH cs|sub IH key desc];
    simpl; intros H; try reflexivity.
  apply andb_true_iff in H. destruct H as [H Hbr].
  apply andb_true_iff in H. destruct H as [H Hbl].
  apply andb_true_iff in H. destruct H as [Hl Hr].
  rewrite (IHl Hl), (IHr Hr), !bare_clear. reflexivity.
Qed.

Lemma settled_fixed (p : Plan) :
  settled p = true -> push_filters_down p = p.
Proof.
  induction p as [|x|tag l IHl r IHr cs|sub IH cs|sub IH cs|sub IH key desc];
    simpl; intros H; try reflexivity.
  - rewrite H. reflexivity.
  - apply andb_true_iff in H. destruct H as [H Hbr].
    apply andb_true_iff in H. destruct H as [H Hbl].
    apply andb_true_iff in H. destruct H as [Hl Hr].
    rewrite (IHl Hl), (IHr Hr), (bare_extract l Hbl), (bare_extract r Hbr).
    simpl. rewrite (clear_of_bare l Hbl), (clear_of_bare r Hbr).
    reflexivity.
Qed.

(** The join case of [push_filters_down], with the two condition lists
    it hoists. *)
Lemma push_filters_down_join (tag : PlanTag) (l r : Plan)
    (cs : list Condition) :
  exists lc rc,
    push_filters_down (PJoin tag l r cs)
    = PJoin tag
        (clear_conditions_from_plan
           (if is_empty lc then push_filters_down l
            else PFilter (push_filters_down l) lc))
        (clear_conditions_from_plan
           (if is_empty rc then push_filters_down r
            else PFilter (push_filters_down r) rc))
        cs
    /\ (forall c, In c lc ->
                  is_rhs_val c = true
                  /\ In c (extract_conditions_from_plan (push_filters_down l)
                           ++ extract_conditions_from_plan (push_filters_down r))
                  /\ set_count (tab_name (lhs_col c))
                       (collect_table_names_from_plan (push_filters_down l) [])
                     = true)
    /\ (forall c, In c rc ->
                  is_rhs_val c = true
                  /\ In c (extract_conditions_from_plan (push_filters_down l)
                           ++ extract_conditions_from_plan (push_filters_down r))
                  /\ set_count (tab_name (lhs_col c))
                       (collect_table_names_from_plan (push_filters_down r) [])
                     = true).
Proof.
  eexists. eexists. split; [reflexivity|]. split.
  - intros c Hc. apply filter_In in Hc. destruct Hc as [Hin Hc].
    apply andb_true_iff in Hc. destruct Hc as [Hv Ht]. auto.
  - intros c Hc. apply filter_In in Hc. destruct Hc as [Hin Hc].
    apply andb_true_iff in Hc. destruct Hc as [Hc Ht].
    apply andb_true_iff in Hc. destruct Hc as [Hv _]. auto.
Qed.

Lemma push_filters_down_settled (p : Plan) :
  settled (push_filters_down p) = true.
Proof.
  induction p as [|x|tag l IHl r IHr cs|sub IH cs|sub IH cs|sub IH key desc];
    try reflexivity.
  - simpl. destruct (is_empty (table_conditions x)) eqn:E; simpl;
      [exact E | reflexivity].
  - destruct (push_filters_down_join tag l r cs) as [lc [rc [Heq _]]].
    rewrite Heq. simpl. rewrite !bare_clear.
    assert (Hl2 : forall q c, settled q = true ->
                  settled (clear_conditions_from_plan
                             (if is_empty c then q else PFilter q c)) = true).
    { intros q c Hq. destruct (is_empty c); [apply settled_clear, Hq|].
      reflexivity. }
    rewrite (Hl2 _ lc IHl), (Hl2 _ rc IHr). reflexivity.
Qed.

(** X15. The predicate-pushdown refiner is idempotent: applied to its
    own result it changes nothing. *)
Theorem apply_predicate_pushdown_idempotent (plan : Plan) (query : Query) :
  apply_predicate_pushdown (apply_predicate_pushdown plan query) query
  = apply_predicate_pushdown plan query.
Proof.
  unfold apply_predicate_pushdown.
  apply settled_fixed, push_filters_down_settled.
Qed.

Lemma plan_scans_clear (p : Plan) :
  map tab_name_ (plan_scans (clear_conditions_from_plan p))
  = map tab_name_ (plan_scans p)
  /\ plan_join_conds (clear_conditions_from_plan p) = plan_join_conds p.
Proof.
  induction p as [|x|tag l IHl r IHr cs|sub IH cs|sub IH cs|sub IH key desc];
    simpl; try (split; reflexivity).
  destruct IHl as [Hl1 Hl2]. destruct IHr as [Hr1 Hr2].
  rewrite !map_app, Hl1, Hr1, Hl2, Hr2. split; reflexivity.
Qed.

(** X16. The refiner keeps the join tree as it is: the plan it returns
    scans the same tables in the same order and its join nodes hold the
    same conditions as before. *)
Theorem push_filters_down_keeps_joins (plan : Plan) :
  scan_tables (push_filters_down plan) = scan_tables plan
  /\ plan_join_conds (push_filters_down plan) = plan_join_conds plan.
Proof.
  unfold scan_tables.
  induction plan as [|x|tag l IHl r IHr cs|sub IH cs|sub IH cs|sub IH key desc];
    try (split; reflexivity).
  - simpl. destruct (is_empty (table_conditions x)); split; reflexivity.
  - destruct (push_filters_down_join tag l r cs) as [lc [rc [Heq _]]].
    rewrite Heq. simpl.
    destruct IHl as [Hl1 Hl2]. destruct IHr as [Hr1 Hr2].
    assert (Hw : forall q c,
              map tab_name_ (plan_scans (clear_conditions_from_plan
                               (if is_empty c then q else PFilter q c)))
              = map tab_name_ (plan_scans q)
              /\ plan_join_conds (clear_conditions_from_plan
                                    (if is_empty c then q else PFilter q c))
                 = plan_join_conds q).
    { intros q c. destruct (is_empty c); [apply plan_scans_clear|].
      split; reflexivity. }
    destruct (Hw (push_filters_down l) lc) as [Ha Hb].
    destruct (Hw (push_filters_down r) rc) as [Hc Hd].
    rewrite !map_app, Ha, Hb, Hc, Hd, Hl1, Hl2, Hr1, Hr2.
    split; reflexivity.
Qed.

Lemma collect_table_names_in (p : Plan) :
  forall acc t,
    In t (collect_table_names_from_plan p acc) ->
    In t acc \/ In t (scan_tables p).
Proof.
  unfold scan_tables.
  induction p as [|x|tag l IHl r IHr cs|sub IH cs|sub IH cs|sub IH key desc];
    simpl; intros acc t H; auto.
  - apply set_insert_in in H. destruct H as [H|H]; auto.
  - rewrite map_app. apply IHr in H. destruct H as [H|H].
    + apply IHl in H. destruct H as [H|H]; auto.
      right. apply in_or_app. auto.
    + right. apply in_or_app. auto.
Qed.

Lemma filters_clear (p : Plan) :
  filters_on_scanned_tables p ->
  filters_on_scanned_tables (clear_conditions_from_plan p).
Proof.
  induction p as [|x|tag l IHl r IHr cs|sub IH cs|sub IH cs|sub IH key desc];
    simpl; auto.
  intros [Hl Hr]. split; auto.
Qed.

(** X17. Every filter node that the refiner inserts holds at least one
    condition, and only literal conditions whose table is scanned below
    the filter. *)
Theorem push_filters_down_filters (plan : Plan) :
  filters_on_scanned_tables plan ->
  filters_on_scanned_tables (push_filters_down plan).
Proof.
  induction plan as [|x|tag l IHl r IHr cs|sub IH cs|sub IH cs|sub IH key desc];
    intros H; try exact H.
  - simpl. destruct (table_conditions x) as [|c0 tc] eqn:E; simpl; [exact I|].
    split; [discriminate|]. split; [|exact I].
    rewrite <- E. apply Forall_forall. intros c Hc.
    unfold table_conditions in Hc. apply filter_In in Hc.
    destruct Hc as [_ Hc]. apply andb_true_iff in Hc. destruct Hc as [Hv Ht].
    split; [exact Hv|]. apply String.eqb_eq in Ht.
    unfold scan_tables. simpl. left. symmetry. exact Ht.
  - simpl in H. destruct H as [Hl Hr].
    destruct (push_filters_down_join tag l r cs) as [lc [rc [Heq [Hlc Hrc]]]].
    rewrite Heq. simpl.
    assert (Hw : forall q c,
              filters_on_scanned_tables q ->
              (forall c0, In c0 c ->
                          is_rhs_val c0 = true
                          /\ set_count (tab_name (lhs_col c0))
                               (collect_table_names_from_plan q []) = true) ->
              filters_on_scanned_tables
                (clear_conditions_from_plan
                   (if is_empty c then q else PFilter q c))).
    { intros q c Hq Hc. destruct c as [|c0 c]; simpl; [apply filters_clear, Hq|].
      split; [discriminate|]. split; [|exact Hq].
      apply Forall_forall. intros c1 Hc1. destruct (Hc c1 Hc1) as [Hv Ht].
      split; [exact Hv|]. apply set_count_true in Ht.
      apply collect_table_names_in in Ht. destruct Ht as [[]|Ht]. exact Ht. }
    split; apply Hw; auto.
    + intros c0 Hc0. destruct (Hlc c0 Hc0) as [Hv [_ Ht]]. auto.
    + intros c0 Hc0. destruct (Hrc c0 Hc0) as [Hv [_ Ht]]. auto.
Qed.

Lemma push_filters_down_filters_witness :
  filters_on_scanned_tables
    (push_filters_down
       (PJoin T_NestLoop
          (PScan (new_ScanPlan T_SeqScan "a" [val_cond "a" "x" OP_EQ 5] []))
          (scan_of "b") [col_cond "a" "k" OP_EQ "b" "k"])).
Proof.
  apply push_filters_down_filters. simpl. split; exact I.
Defined.

Lemma extract_in_plan_conditions (p : Plan) :
  incl (extract_conditions_from_plan p) (plan_conditions p).
Proof.
  induction p as [|x|tag l IHl r IHr cs|sub IH cs|sub IH cs|sub IH key desc];
    simpl; intros c Hc; try contradiction; auto.
  apply in_or_app. right. apply in_app_or in Hc.
  apply in_or_app. destruct Hc; [left; apply IHl | right; apply IHr]; auto.
Qed.

Lemma clear_in_plan_conditions (p : Plan) :
  incl (plan_conditions (clear_conditions_from_plan p)) (plan_conditions p).
Proof.
  induction p as [|x|tag l IHl r IHr cs|sub IH cs|sub IH cs|sub IH key desc];
    simpl; intros c Hc; auto; try contradiction.
  apply in_app_or in Hc. apply in_or_app.
  destruct Hc as [Hc|Hc]; [left; exact Hc | right].
  apply in_app_or in Hc. apply in_or_app.
  destruct Hc; [left; apply IHl | right; apply IHr]; auto.
Qed.

(** X18. The refiner invents no predicate: every condition held
    anywhere in the plan it returns was held somewhere in the plan it
    was given. *)
Theorem push_filters_down_invents_nothing (plan : Plan) :
  incl (plan_conditions (push_filters_down plan)) (plan_conditions plan).
Proof.
  induction plan as [|x|tag l IHl r IHr cs|sub IH cs|sub IH cs|sub IH key desc];
    try apply incl_refl.
  - simpl. destruct (is_empty (table_conditions x)); [apply incl_refl|].
    simpl. rewrite app_nil_r. unfold table_conditions.
    intros c Hc. apply filter_In in Hc. tauto.
  - destruct (push_filters_down_join tag l r cs) as [lc [rc [Heq [Hlc Hrc]]]].
    rewrite Heq. simpl.
    assert (Hsub : incl (extract_conditions_from_plan (push_filters_down l)
                         ++ extract_conditions_from_plan (push_filters_down r))
                        (plan_conditions l ++ plan_conditions r)).
    { intros c Hc. apply in_app_or in Hc. apply in_or_app.
      destruct Hc as [Hc|Hc]; [left; apply IHl | right; apply IHr];
        apply extract_in_plan_conditions, Hc. }
    assert (Hw : forall q q0 c,
              incl (plan_conditions q) (plan_conditions q0) ->
              incl (plan_conditions q0) (plan_conditions l ++ plan_conditions r) ->
              (forall c0, In c0 c ->
                 In c0 (extract_conditions_from_plan (push_filters_down l)
                        ++ extract_conditions_from_plan (push_filters_down r))) ->
              incl (plan_conditions
                      (clear_conditions_from_plan
                         (if is_empty c then q else PFilter q c)))
                   (plan_conditions l ++ plan_conditions r)).
    { intros q q0 c Hq Hq0 Hc c1 Hc1.
      apply clear_in_plan_conditions in Hc1.
      destruct (is_empty c); [apply Hq0, Hq, Hc1|].
      simpl in Hc1. apply in_app_or in Hc1.
      destruct Hc1 as [Hc1|Hc1]; [apply Hsub, Hc, Hc1 | apply Hq0, Hq, Hc1]. }
    intros c Hc. apply in_app_or in Hc. apply in_or_app.
    destruct Hc as [Hc|Hc]; [left; exact Hc | right].
    apply in_app_or in Hc. destruct Hc as [Hc|Hc].
    + apply (Hw (push_filters_down l) l lc IHl); auto.
      * apply incl_appl, incl_refl.
      * intros c0 Hc0. apply Hlc, Hc0.
    + apply (Hw (push_filters_down r) r rc IHr); auto.
      * apply incl_appr, incl_refl.
      * intros c0 Hc0. apply Hrc, Hc0.
Qed.

Lemma filter_all {A : Type} (f : A -> bool) (l : list A) :
  (forall x, In x l -> f x = true) -> filter f l = l.
Proof.
  induction l as [|x l IH]; simpl; intros H; [reflexivity|].
  rewrite (H x (or_introl eq_refl)), IH; [reflexivity|].
  intros y Hy. apply H. right. exact Hy.
Qed.

Lemma table_conditions_of_literal_scan (s : ScanPlan) :
  Forall (fun c => is_rhs_val c = true
                   /\ tab_name (lhs_col c) = tab_name_ s) (conds_ s) ->
  table_conditions s = conds_ s.
Proof.
  intros H. unfold table_conditions. apply filter_all.
  rewrite Forall_forall in H. intros c Hc. destruct (H c Hc) as [Hv Ht].
  rewrite Hv, Ht, String.eqb_refl. reflexivity.
Qed.

Lemma literal_scans_join (tag : PlanTag) (l r : Plan) (cs : list Condition) :
  literal_scans (PJoin tag l r cs) -> literal_scans l /\ literal_scans r.
Proof.
  unfold literal_scans. simpl. intros H. apply Forall_app in H. exact H.
Qed.

Lemma push_filters_down_bare (p : Plan) :
  scan_join_only p = true -> literal_scans p ->
  bare (push_filters_down p) = true.
Proof.
  destruct p as [|x|tag l r cs|sub cs|sub cs|sub key desc];
    intros Hs Hl; try discriminate.
  - simpl. unfold literal_scans in Hl. simpl in Hl.
    inversion Hl as [|x' l' Hx _]; subst.
    rewrite (table_conditions_of_literal_scan x Hx).
    destruct (conds_ x) eqn:E; simpl; [rewrite E|]; reflexivity.
  - destruct (push_filters_down_join tag l r cs) as [lc [rc [Heq _]]].
    rewrite Heq. simpl. rewrite !bare_clear. reflexivity.
Qed.

(** The next theorem in the form the later proofs use. *)
Lemma push_filters_down_literal (plan : Plan) :
  scan_join_only plan = true ->
  literal_scans plan ->
  plan_conditions (push_filters_down plan) = plan_conditions plan.
Proof.
  induction plan as [|x|tag l IHl r IHr cs|sub IH cs|sub IH cs|sub IH key desc];
    intros Hs Hl; try discriminate.
  - simpl. unfold literal_scans in Hl. simpl in Hl.
    inversion Hl as [|x' l' Hx _]; subst.
    rewrite (table_conditions_of_literal_scan x Hx).
    destruct (conds_ x) eqn:E; simpl; [exact E|].
    rewrite app_nil_r. reflexivity.
  - simpl in Hs. apply andb_true_iff in Hs. destruct Hs as [Hsl Hsr].
    destruct (literal_scans_join tag l r cs Hl) as [Hll Hlr].
    destruct (push_filters_down_join tag l r cs) as [lc [rc [Heq [Hlc Hrc]]]].
    pose proof (push_filters_down_bare l Hsl Hll) as Hbl.
    pose proof (push_filters_down_bare r Hsr Hlr) as Hbr.
    rewrite (bare_extract _ Hbl), (bare_extract _ Hbr) in Hlc, Hrc.
    assert (Elc : lc = []).
    { destruct lc as [|c lc]; [reflexivity|].
      destruct (Hlc c (or_introl eq_refl)) as [_ [[] _]]. }
    assert (Erc : rc = []).
    { destruct rc as [|c rc]; [reflexivity|].
      destruct (Hrc c (or_introl eq_refl)) as [_ [[] _]]. }
    rewrite Heq. subst lc rc. simpl.
    rewrite (clear_of_bare _ Hbl), (clear_of_bare _ Hbr).
    rewrite (IHl Hsl Hll), (IHr Hsr Hlr). reflexivity.
Qed.

Lemma push_filters_down_literal_join (tag : PlanTag) (l r : Plan)
    (cs : list Condition) :
  scan_join_only (PJoin tag l r cs) = true ->
  literal_scans (PJoin tag l r cs) ->
  push_filters_down (PJoin tag l r cs)
  = PJoin tag (push_filters_down l) (push_filters_down r) cs.
Proof.
  intros Hs Hl.
  simpl in Hs. apply andb_true_iff in Hs. destruct Hs as [Hsl Hsr].
  destruct (literal_scans_join tag l r cs Hl) as [Hll Hlr].
  destruct (push_filters_down_join tag l r cs) as [lc [rc [Heq [Hlc Hrc]]]].
  pose proof (push_filters_down_bare l Hsl Hll) as Hbl.
  pose proof (push_filters_down_bare r Hsr Hlr) as Hbr.
  rewrite (bare_extract _ Hbl), (bare_extract _ Hbr) in Hlc, Hrc.
  assert (Elc : lc = []).
  { destruct lc as [|c lc]; [reflexivity|].
    destruct (Hlc c (or_introl eq_refl)) as [_ [[] _]]. }
  assert (Erc : rc = []).
  { destruct rc as [|c rc]; [reflexivity|].
    destruct (Hrc c (or_introl eq_refl)) as [_ [[] _]]. }
  rewrite Heq. subst lc rc. simpl.
  rewrite (clear_of_bare _ Hbl), (clear_of_bare _ Hbr). reflexivity.
Qed.

(** Where the conditions of the scans are afterwards: in the filter
    nodes, in the order of the scans, and no longer on a scan. *)
Lemma push_filters_down_literal_filters (plan : Plan) :
  scan_join_only plan = true ->
  literal_scans plan ->
  Forall (fun s => conds_ s = []) (plan_scans (push_filters_down plan))
  /\ plan_filter_conds (push_filters_down plan)
     = flat_map conds_ (plan_scans plan)
  /\ plan_join_conds (push_filters_down plan) = plan_join_conds plan.
Proof.
  induction plan as [|x|tag l IHl r IHr cs|sub IH cs|sub IH cs|sub IH key desc];
    intros Hs Hl; try discriminate.
  - simpl. unfold literal_scans in Hl. simpl in Hl.
    inversion Hl as [|x' l' Hx _]; subst.
    rewrite (table_conditions_of_literal_scan x Hx).
    destruct (conds_ x) eqn:E; simpl.
    + rewrite ?E. repeat split. constructor; [exact E | constructor].
    + repeat split. constructor; [reflexivity | constructor].
  - rewrite (push_filters_down_literal_join tag l r cs Hs Hl).
    simpl in Hs. apply andb_true_iff in Hs. destruct Hs as [Hsl Hsr].
    destruct (literal_scans_join tag l r cs Hl) as [Hll Hlr].
    destruct (IHl Hsl Hll) as [Hl1 [Hl2 Hl3]].
    destruct (IHr Hsr Hlr) as [Hr1 [Hr2 Hr3]].
    simpl. rewrite Hl2, Hr2, Hl3, Hr3, flat_map_app.
    repeat split. apply Forall_app. split; assumption.
Qed.

(** X19. When every condition held by a scan is a literal condition on
    the table of that scan, the refiner loses and repeats nothing: the
    plan it returns for a tree of joins and scans holds the same
    conditions, and the conditions of the scans are now in filter
    nodes: no scan of the plan returned holds a condition, and its
    filter nodes hold the conditions the scans held, in the order of
    the scans. *)
Theorem push_filters_down_keeps_literal_predicates (plan : Plan) :
  scan_join_only plan = true ->
  literal_scans plan ->
  plan_conditions (push_filters_down plan) = plan_conditions plan
  /\ Forall (fun s => conds_ s = []) (plan_scans (push_filters_down plan))
  /\ plan_filter_conds (push_filters_down plan)
     = flat_map conds_ (plan_scans plan).
Proof.
  intros Hs Hl. split; [exact (push_filters_down_literal plan Hs Hl)|].
  destruct (push_filters_down_literal_filters plan Hs Hl)
    as [Hscans [Hfilters _]].
  split; [exact Hscans | exact Hfilters].
Qed.

Lemma push_filters_down_keeps_literal_predicates_witness :
  plan_conditions (push_filters_down filtered_chain_plan)
  = plan_conditions filtered_chain_plan
  /\ Forall (fun s => conds_ s = [])
            (plan_scans (push_filters_down filtered_chain_plan))
  /\ plan_filter_conds (push_filters_down filtered_chain_plan)
     = [val_cond "b" "k" OP_GT 5].
Proof.
  apply (push_filters_down_keeps_literal_predicates filtered_chain_plan).
  - reflexivity.
  - repeat constructor.
Defined.

Lemma make_scans_conds (sm : SmManager) (tabs : list string) :
  forall (cs : list Condition) (scans : list ScanPlan) (rest : list Condition),
    make_scans sm tabs cs = Ret (scans, rest) ->
    Forall (fun s => Forall (fun c => In c cs /\ pops (tab_name_ s) c = true)
                            (conds_ s))
           scans.
Proof.
  induction tabs as [|t ts IH]; intros cs scans rest H.
  - inversion H. constructor.
  - apply make_scans_cons in H.
    destruct H as [ie [icn [scans' [_ [Hm Hs]]]]]. subst scans.
    constructor.
    + assert (Hc : forall c, In c (filter (pops t) cs) ->
                             In c cs /\ pops t c = true)
        by (intros c Hc; apply filter_In in Hc; exact Hc).
      destruct ie; simpl; apply Forall_forall; exact Hc.
    + eapply Forall_impl; [|exact (IH _ _ _ Hm)].
      intros s Hs. eapply Forall_impl; [|exact Hs].
      intros c [Hc Hp]. split; [|exact Hp].
      apply filter_In in Hc. tauto.
Qed.

Lemma same_predicates_permutation (cs l l' : list Condition) :
  same_predicates cs l -> Permutation l l' -> same_predicates cs l'.
Proof.
  intros [l0 [l1 [H0 [H1 H2]]]] Hp. exists l0, l1.
  repeat split; [exact H0 | exact H1 | eapply perm_trans; eassumption].
Qed.

Lemma filtered_chain_query_planned :
  make_one_rel sm_abc both_on filtered_chain_query
  = Ret (filtered_chain_plan, set_conds filtered_chain_query []).
Proof. vm_compute. reflexivity. Qed.

Lemma filtered_chain_query_conditions_known :
  Forall (tables_known (tables filtered_chain_query))
         (residual_conds (tables filtered_chain_query)
                         (conds filtered_chain_query)).
Proof.
  apply Forall_forall. intros c Hc. vm_compute in Hc.
  destruct Hc as [Hc|[Hc|[]]]; subst c; split; simpl; auto 6.
Qed.

(** X20. Planning keeps the predicates of a well-formed query: when no
    condition has the same table on both sides, every condition left
    for the joins is between tables of the query and no table has the
    empty name, the plan after [make_one_rel] and the predicate
    pushdown holds the conditions of the query, each once, a join
    condition possibly with its sides reversed; no scan of that plan
    holds a condition, so that each of them is on a filter or on a
    join. *)
Theorem planning_keeps_predicates (sm : SmManager) (k : Knobs)
    (query query1 : Query) (plan : Plan) :
  make_one_rel sm k query = Ret (plan, query1) ->
  Forall (tables_known (tables query))
         (residual_conds (tables query) (conds query)) ->
  ~ In EmptyString (tables query) ->
  Forall (fun c => tab_name (lhs_col c) <> tab_name (rhs_col c))
         (conds query) ->
  same_predicates (conds query)
                  (plan_conditions (apply_predicate_pushdown plan query1))
  /\ Forall (fun s => conds_ s = [])
            (plan_scans (apply_predicate_pushdown plan query1))
  /\ same_predicates
       (conds query)
       (plan_filter_conds (apply_predicate_pushdown plan query1)
        ++ plan_join_conds (apply_predicate_pushdown plan query1)).
Proof.
  intros H Hk He Hd.
  destruct (make_one_rel_tree sm k query query1 plan H Hk He)
    as [scans [Hm [Hs [Hp _]]]].
  assert (Hlit : literal_scans plan).
  { unfold literal_scans.
    eapply Permutation_Forall; [apply Permutation_sym, Hp|].
    eapply Forall_impl; [|exact (make_scans_conds sm _ _ _ _ Hm)].
    intros s Hsc. eapply Forall_impl; [|exact Hsc].
    intros c [Hc Hpops]. rewrite Forall_forall in Hd.
    pose proof (Hd c Hc) as Hne. unfold pops in Hpops.
    apply orb_true_iff in Hpops. destruct Hpops as [Hpops|Hpops].
    - apply andb_true_iff in Hpops. destruct Hpops as [Ht Hv].
      apply String.eqb_eq in Ht. auto.
    - apply String.eqb_eq in Hpops. contradiction. }
  pose proof (make_one_rel_predicates sm k query query1 plan H Hk He) as Hsame.
  destruct (push_filters_down_literal_filters plan Hs Hlit)
    as [Hscans [Hfilters Hjoins]].
  unfold apply_predicate_pushdown.
  split; [|split].
  - rewrite (push_filters_down_literal plan Hs Hlit). exact Hsame.
  - exact Hscans.
  - rewrite Hfilters, Hjoins.
    eapply same_predicates_permutation; [exact Hsame|].
    apply plan_conditions_split, Hs.
Qed.

Lemma planning_keeps_predicates_witness :
  same_predicates (conds filtered_chain_query)
    (plan_conditions
       (apply_predicate_pushdown filtered_chain_plan
                                 (set_conds filtered_chain_query [])))
  /\ Forall (fun s => conds_ s = [])
            (plan_scans
               (apply_predicate_pushdown filtered_chain_plan
                                         (set_conds filtered_chain_query [])))
  /\ same_predicates (conds filtered_chain_query)
       ([val_cond "b" "k" OP_GT 5]
        ++ [col_cond "c" "k" OP_EQ "b" "k"; col_cond "a" "k" OP_EQ "b" "k"]).
Proof.
  apply (planning_keeps_predicates sm_abc both_on filtered_chain_query
           (set_conds filtered_chain_query []) filtered_chain_plan
           filtered_chain_query_planned
           filtered_chain_query_conditions_known).
  - simpl. intuition discriminate.
  - repeat constructor; discriminate.
Defined.

(** ** The scans whose conditions are hoisted (C6) *)

Lemma own_literals_join (tag : PlanTag) (l r : Plan) (cs : list Condition) :
  own_literals (PJoin tag l r cs) -> own_literals l /\ own_literals r.
Proof.
  unfold own_literals. simpl. intros H. apply Forall_app in H. exact H.
Qed.

(** After the refiner, no scan that is reached through join nodes only
    holds a literal condition. *)
Lemma push_filters_down_no_literal_left (p : Plan) :
  scan_join_only p = true ->
  own_literals p ->
  Forall (fun c => is_rhs_val c = false)
         (extract_conditions_from_plan (push_filters_down p)).
Proof.
  destruct p as [|x|tag l r cs|sub cs|sub cs|sub key desc];
    intros Hs Ho; try discriminate.
  - simpl. unfold own_literals in Ho. simpl in Ho.
    inversion Ho as [|x' l' Hx _]; subst.
    destruct (table_conditions x) eqn:E; simpl; [|constructor].
    apply Forall_forall. intros c Hc.
    destruct (is_rhs_val c) eqn:Ev; [|reflexivity].
    rewrite Forall_forall in Hx. pose proof (Hx c Hc Ev) as Ht.
    assert (Hin : In c (table_conditions x)).
    { unfold table_conditions. apply filter_In. split; [exact Hc|].
      rewrite Ev, Ht, String.eqb_refl. reflexivity. }
    rewrite E in Hin. contradiction.
  - destruct (push_filters_down_join tag l r cs) as [lc [rc [Heq _]]].
    rewrite Heq. simpl.
    rewrite (bare_extract _ (bare_clear _)), (bare_extract _ (bare_clear _)).
    constructor.
Qed.

(** With every literal condition on the scan of its table, a join node
    hoists nothing: it clears the conditions below it. *)
Lemma push_filters_down_own_join (tag : PlanTag) (l r : Plan)
    (cs : list Condition) :
  scan_join_only (PJoin tag l r cs) = true ->
  own_literals (PJoin tag l r cs) ->
  push_filters_down (PJoin tag l r cs)
  = PJoin tag (clear_conditions_from_plan (push_filters_down l))
          (clear_conditions_from_plan (push_filters_down r)) cs.
Proof.
  intros Hs Ho.
  simpl in Hs. apply andb_true_iff in Hs. destruct Hs as [Hsl Hsr].
  destruct (own_literals_join tag l r cs Ho) as [Hol Hor].
  destruct (push_filters_down_join tag l r cs) as [lc [rc [Heq [Hlc Hrc]]]].
  assert (Hnone : Forall (fun c => is_rhs_val c = false)
                    (extract_conditions_from_plan (push_filters_down l)
                     ++ extract_conditions_from_plan (push_filters_down r))).
  { apply Forall_app. split; apply push_filters_down_no_literal_left;
      assumption. }
  rewrite Forall_forall in Hnone.
  assert (Elc : lc = []).
  { destruct lc as [|c lc]; [reflexivity|].
    destruct (Hlc c (or_introl eq_refl)) as [Hv [Hin _]].
    rewrite (Hnone c Hin) in Hv. discriminate. }
  assert (Erc : rc = []).
  { destruct rc as [|c rc]; [reflexivity|].
    destruct (Hrc c (or_introl eq_refl)) as [Hv [Hin _]].
    rewrite (Hnone c Hin) in Hv. discriminate. }
  rewrite Heq. subst lc rc. reflexivity.
Qed.

Lemma clear_conditions_filters (p : Plan) :
  plan_filter_conds (clear_conditions_from_plan p) = plan_filter_conds p.
Proof.
  induction p as [|x|tag l IHl r IHr cs|sub IH cs|sub IH cs|sub IH key desc];
    simpl; try reflexivity.
  rewrite IHl, IHr. reflexivity.
Qed.

Lemma clear_conditions_scans (p : Plan) :
  Forall2 (fun s s' => s' = s \/ s' = clear_conds s)
          (plan_scans p) (plan_scans (clear_conditions_from_plan p)).
Proof.
  assert (Hrefl : forall l : list ScanPlan,
             Forall2 (fun s s' => s' = s \/ s' = clear_conds s) l l).
  { induction l as [|s l IH]; constructor; [left; reflexivity | exact IH]. }
  induction p as [|x|tag l IHl r IHr cs|sub IH cs|sub IH cs|sub IH key desc];
    simpl; try apply Hrefl.
  - constructor; [right; reflexivity | constructor].
  - apply Forall2_app; assumption.
Qed.

Lemma Forall2_compose {A : Type} (R S T : A -> A -> Prop) (l l1 l2 : list A) :
  (forall x y z, R x y -> S y z -> T x z) ->
  Forall2 R l l1 -> Forall2 S l1 l2 -> Forall2 T l l2.
Proof.
  intros H HR. revert l2.
  induction HR as [|x y l l1 Hxy _ IH]; intros l2 HS;
    inversion HS; subst; constructor; eauto.
Qed.

Lemma Forall2_with {A : Type} (P : A -> Prop) (R T : A -> A -> Prop)
    (l l' : list A) :
  (forall x y, P x -> R x y -> T x y) ->
  Forall P l -> Forall2 R l l' -> Forall2 T l l'.
Proof.
  intros H HP HR. induction HR as [|x y l l' Hxy _ IH]; constructor.
  - inversion HP; subst. auto.
  - inversion HP; subst. auto.
Qed.

(** The filter nodes of the refined plan hold what the scans hand to
    them, and nothing else. *)
Lemma push_filters_down_own_filters (p : Plan) :
  scan_join_only p = true ->
  own_literals p ->
  plan_filter_conds (push_filters_down p)
  = flat_map table_conditions (plan_scans p).
Proof.
  induction p as [|x|tag l IHl r IHr cs|sub IH cs|sub IH cs|sub IH key desc];
    intros Hs Ho; try discriminate.
  - simpl. destruct (table_conditions x); reflexivity.
  - rewrite (push_filters_down_own_join tag l r cs Hs Ho).
    simpl in Hs. apply andb_true_iff in Hs. destruct Hs as [Hsl Hsr].
    destruct (own_literals_join tag l r cs Ho) as [Hol Hor].
    simpl. rewrite !clear_conditions_filters, (IHl Hsl Hol), (IHr Hsr Hor).
    rewrite flat_map_app. reflexivity.
Qed.

(** A scan that hands conditions to a filter ends with both lists
    empty; every scan keeps its tag, its table and its index columns. *)
Lemma push_filters_down_own_scans (p : Plan) :
  scan_join_only p = true ->
  own_literals p ->
  Forall2 (fun s s' =>
             scan_tag s' = scan_tag s
             /\ tab_name_ s' = tab_name_ s
             /\ index_col_names_ s' = index_col_names_ s
             /\ (table_conditions s <> [] ->
                 conds_ s' = [] /\ fed_conds_ s' = []))
          (plan_scans p) (plan_scans (push_filters_down p)).
Proof.
  induction p as [|x|tag l IHl r IHr cs|sub IH cs|sub IH cs|sub IH key desc];
    intros Hs Ho; try discriminate.
  - simpl. destruct (table_conditions x) eqn:E; simpl.
    + constructor; [|constructor]. repeat split; congruence.
    + constructor; [|constructor]. repeat split; reflexivity.
  - rewrite (push_filters_down_own_join tag l r cs Hs Ho).
    simpl in Hs. apply andb_true_iff in Hs. destruct Hs as [Hsl Hsr].
    destruct (own_literals_join tag l r cs Ho) as [Hol Hor].
    simpl. apply Forall2_app.
    + eapply Forall2_compose;
        [|exact (IHl Hsl Hol) | apply clear_conditions_scans].
      intros s s1 s2 [H1 [H2 [H3 H4]]] [E|E]; subst s2; simpl;
        (split; [exact H1 | split; [exact H2 | split; [exact H3|]]]);
        [exact H4|].
      intros Hne. destruct (H4 Hne) as [_ Hfed]. split; [reflexivity | exact Hfed].
    + eapply Forall2_compose;
        [|exact (IHr Hsr Hor) | apply clear_conditions_scans].
      intros s s1 s2 [H1 [H2 [H3 H4]]] [E|E]; subst s2; simpl;
        (split; [exact H1 | split; [exact H2 | split; [exact H3|]]]);
        [exact H4|].
      intros Hne. destruct (H4 Hne) as [_ Hfed]. split; [reflexivity | exact Hfed].
Qed.

(** The scans of [make_one_rel] hold their own literal conditions. *)
Lemma make_one_rel_own_literals (sm : SmManager) (k : Knobs)
    (query query1 : Query) (plan : Plan) :
  make_one_rel sm k query = Ret (plan, query1) ->
  Forall (tables_known (tables query))
         (residual_conds (tables query) (conds query)) ->
  ~ In EmptyString (tables query) ->
  Forall literal_apart (conds query) ->
  scan_join_only plan = true /\ own_literals plan.
Proof.
  intros H Hk He Hd.
  destruct (make_one_rel_tree sm k query query1 plan H Hk He)
    as [scans [Hm [Hs [Hp _]]]].
  split; [exact Hs|].
  unfold own_literals.
  eapply Permutation_Forall; [apply Permutation_sym, Hp|].
  eapply Forall_impl; [|exact (make_scans_conds sm _ _ _ _ Hm)].
  intros s Hsc. eapply Forall_impl; [|exact Hsc].
  intros c [Hc Hpops] Hv. rewrite Forall_forall in Hd.
  pose proof (Hd c Hc Hv) as Hne. unfold pops in Hpops.
  apply orb_true_iff in Hpops. destruct Hpops as [Hpops|Hpops].
  - apply andb_true_iff in Hpops. destruct Hpops as [Ht _].
    apply String.eqb_eq in Ht. auto.
  - apply String.eqb_eq in Hpops. contradiction.
Qed.

Lemma mixed_query_planned :
  make_one_rel sm_abc both_on mixed_query
  = Ret (mixed_plan, set_conds mixed_query []).
Proof. vm_compute. reflexivity. Qed.

(** C6. For a query whose literal conditions have no column on their
    right-hand side, as the grammar gives them, whose conditions left
    for the joins are between tables of the query, and whose tables
    have a name: in the plan that [apply_predicate_pushdown] returns
    for the plan of [make_one_rel], every scan of which a condition
    stands in a filter node has both [conds_] and [fed_conds_] empty,
    and every scan keeps its tag, its table and its index columns. The
    scans concerned are the scans that held a literal condition: each
    literal condition of a scan stands in a filter node afterwards. *)
Theorem hoisted_scans_are_cleared (sm : SmManager) (k : Knobs)
    (query query1 : Query) (plan : Plan) :
  make_one_rel sm k query = Ret (plan, query1) ->
  Forall (tables_known (tables query))
         (residual_conds (tables query) (conds query)) ->
  ~ In EmptyString (tables query) ->
  Forall literal_apart (conds query) ->
  Forall2 (scan_refined (apply_predicate_pushdown plan query1))
          (plan_scans plan)
          (plan_scans (apply_predicate_pushdown plan query1))
  /\ Forall (fun s =>
               forall c, In c (conds_ s) -> is_rhs_val c = true ->
                         In c (plan_filter_conds
                                 (apply_predicate_pushdown plan query1)))
            (plan_scans plan).
Proof.
  intros H Hk He Hd.
  destruct (make_one_rel_own_literals sm k query query1 plan H Hk He Hd)
    as [Hs Ho].
  unfold apply_predicate_pushdown.
  pose proof (push_filters_down_own_filters plan Hs Ho) as Hfilters.
  assert (Hown : forall s c,
             In s (plan_scans plan) -> In c (conds_ s) ->
             is_rhs_val c = true -> In c (table_conditions s)).
  { intros s c Hsin Hc Hv. unfold own_literals in Ho.
    rewrite Forall_forall in Ho. pose proof (Ho s Hsin) as Hsl.
    rewrite Forall_forall in Hsl.
    unfold table_conditions. apply filter_In. split; [exact Hc|].
    rewrite Hv, (Hsl c Hc Hv), String.eqb_refl. reflexivity. }
  split.
  - eapply (Forall2_with (fun s => In s (plan_scans plan)));
      [| apply Forall_forall; intros s Hsin; exact Hsin
       | exact (push_filters_down_own_scans plan Hs Ho)].
    intros s s' Hsin [H1 [H2 [H3 H4]]].
    unfold scan_refined.
    split; [exact H1 | split; [exact H2 | split; [exact H3|]]].
    intros [c [Hc Hf]]. apply H4.
    rewrite Hfilters in Hf. apply in_flat_map in Hf.
    destruct Hf as [t [_ Hct]].
    unfold table_conditions in Hct. apply filter_In in Hct.
    destruct Hct as [_ Hlit]. apply andb_true_iff in Hlit.
    destruct Hlit as [Hv _].
    intros E. pose proof (Hown s c Hsin Hc Hv) as Hin.
    rewrite E in Hin. contradiction.
  - apply Forall_forall. intros s Hsin c Hc Hv.
    rewrite Hfilters. apply in_flat_map. exists s.
    split; [exact Hsin | exact (Hown s c Hsin Hc Hv)].
Qed.

Lemma hoisted_scans_are_cleared_witness :
  Forall2 (scan_refined
             (apply_predicate_pushdown mixed_plan (set_conds mixed_query [])))
          (plan_scans mixed_plan)
          [new_ScanPlan T_SeqScan "a" [] []; new_ScanPlan T_SeqScan "b" [] []]
  /\ Forall (fun s =>
               forall c, In c (conds_ s) -> is_rhs_val c = true ->
                         In c [val_cond "a" "x" OP_EQ 5])
            (plan_scans mixed_plan).
Proof.
  apply (hoisted_scans_are_cleared sm_abc both_on mixed_query
           (set_conds mixed_query []) mixed_plan mixed_query_planned).
  - apply Forall_forall. intros c Hc. vm_compute in Hc.
    destruct Hc as [Hc|[]]; subst c; split; simpl; auto.
  - simpl. intuition discriminate.
  - repeat constructor; simpl; discriminate.
Defined.

(** The condition on the literal conditions is needed. [literal_on_b]
    is a literal condition whose [rhs_col], which the grammar leaves
    empty, names the table [b]. The scan on [a], the first table, takes
    it; the join node hoists it into a filter above the scan on [b] and
    clears the scans below by [clear_conditions_from_plan], so that the
    scan on [a] keeps the condition in [fed_conds_]. *)
Remark join_path_keeps_fed_conds :
  ~ literal_apart literal_on_b
  /\ make_one_rel sm_abc both_on literal_on_b_query
     = Ret (PJoin T_NestLoop (scan_of "b")
                  (PScan (new_ScanPlan T_SeqScan "a" [literal_on_b] [])) [],
            set_conds literal_on_b_query [])
  /\ apply_predicate_pushdown
       (PJoin T_NestLoop (scan_of "b")
              (PScan (new_ScanPlan T_SeqScan "a" [literal_on_b] [])) [])
       (set_conds literal_on_b_query [])
     = PJoin T_NestLoop
             (PFilter (scan_of "b") [literal_on_b])
             (PScan (mkScanPlan T_SeqScan "a" [] [literal_on_b] []))
             [].
Proof.
  split; [|split; reflexivity].
  intros H. exact (H eq_refl eq_refl).
Qed.

(** ** The projection-pushdown refiner *)

Lemma split_dot_some (s a b : string) :
  split_dot s = Some (a, b) ->
  s = (a ++ "." ++ b)%string /\ has_dot a = false.
Proof.
  revert a b. induction s as [|c s IH]; simpl; intros a b H; [discriminate|].
  destruct (Ascii.eqb_spec c "."%char) as [E|E].
  - inversion H; subst. split; reflexivity.
  - destruct (split_dot s) as [[a' b']|]; [|discriminate].
    inversion H; subst. destruct (IH a' b eq_refl) as [Hs Hd].
    split; [simpl; rewrite Hs; reflexivity|].
    simpl. rewrite Hd. destruct (Ascii.eqb_spec c "."%char); [contradiction|].
    reflexivity.
Qed.

Lemma split_dot_qualified (a b : string) :
  has_dot a = false -> split_dot (a ++ "." ++ b)%string = Some (a, b).
Proof.
  induction a as [|c a IH]; simpl; intros H; [reflexivity|].
  apply orb_false_iff in H. destruct H as [Hc Ha].
  pose proof (IH Ha) as IH'. simpl in IH'.
  rewrite Hc, IH'. reflexivity.
Qed.

(** X21. The column names travel through the set of needed columns as
    [table.column] and are split again at the first dot: for a table
    whose name has no dot, the columns put into its projection are
    exactly the needed columns of that table. *)
Theorem table_needed_cols_spec (table_name : string)
    (needed_columns : list string) (c : TabCol) :
  has_dot table_name = false ->
  (In c (table_needed_cols table_name needed_columns)
   <-> tab_name c = table_name /\ In (qualified c) needed_columns).
Proof.
  intros Hd. unfold table_needed_cols. rewrite in_flat_map. split.
  - intros [n [Hn Hc]].
    destruct (split_dot n) as [[tab cl]|] eqn:E; [|contradiction].
    destruct (String.eqb_spec tab table_name) as [Et|Et]; [|contradiction].
    destruct Hc as [Hc|[]]. subst c. simpl.
    apply split_dot_some in E. destruct E as [E _].
    split; [exact Et|]. rewrite E in Hn. exact Hn.
  - intros [Ht Hq]. exists (qualified c). split; [exact Hq|].
    replace (split_dot (qualified c)) with (Some (tab_name c, col_name c))
      by (symmetry; apply split_dot_qualified; rewrite Ht; exact Hd).
    rewrite Ht, String.eqb_refl. left. destruct c. simpl in *. subst.
    reflexivity.
Qed.

Lemma table_needed_cols_spec_witness :
  In (col "a" "k") (table_needed_cols "a" ["a.k"; "b.k"])
  <-> tab_name (col "a" "k") = "a"
      /\ In (qualified (col "a" "k")) ["a.k"; "b.k"].
Proof.
  apply table_needed_cols_spec. reflexivity.
Defined.

Lemma table_needed_cols_sound (table_name : string)
    (needed_columns : list string) :
  Forall (fun c => tab_name c = table_name /\ In (qualified c) needed_columns)
         (table_needed_cols table_name needed_columns).
Proof.
  apply Forall_forall. intros c Hc. unfold table_needed_cols in Hc.
  apply in_flat_map in Hc. destruct Hc as [n [Hn Hc]].
  destruct (split_dot n) as [[tab cl]|] eqn:E; [|contradiction].
  destruct (String.eqb_spec tab table_name) as [Et|Et]; [|contradiction].
  destruct Hc as [Hc|[]]. subst c. simpl.
  apply split_dot_some in E. destruct E as [E _].
  split; [exact Et|]. rewrite E in Hn. exact Hn.
Qed.

(** X22. The projection nodes put into the tree stand directly above
    scans; each lists at least one column, only needed columns of the
    table of its scan, and never as many columns as the catalog has
    for that table. The conditions and the scanned tables of the plan
    stay as they are. *)
Theorem insert_project_nodes_spec (sm : SmManager) (plan : Plan)
    (needed_columns : list string) :
  (projections_pruned sm needed_columns plan ->
   projections_pruned sm needed_columns
     (insert_project_nodes sm plan needed_columns))
  /\ plan_conditions (insert_project_nodes sm plan needed_columns)
     = plan_conditions plan
  /\ plan_scans (insert_project_nodes sm plan needed_columns)
     = plan_scans plan.
Proof.
  induction plan as [|x|tag l IHl r IHr cs|sub IH cs|sub IH cs|sub IH key desc];
    try (split; [auto | split; reflexivity]).
  - cbn [insert_project_nodes].
    destruct (table_needed_cols (tab_name_ x) needed_columns) as [|c0 tc] eqn:E;
      cbn [is_empty]; [split; [auto | split; reflexivity]|].
    destruct (db_get_table sm (tab_name_ x)) as [tab|] eqn:Et.
    + destruct (Nat.eqb_spec (List.length (c0 :: tc))
                             (List.length (tm_cols tab))) as [El|El];
        [split; [auto | split; reflexivity]|].
      split; [|split; reflexivity]. intros _.
      cbn [projections_pruned].
      split; [discriminate|]. split.
      * rewrite <- E. apply table_needed_cols_sound.
      * intros tab' Htab'. rewrite Et in Htab'. inversion Htab'; subst.
        exact El.
    + split; [|split; reflexivity]. intros _.
      cbn [projections_pruned].
      split; [discriminate|]. split.
      * rewrite <- E. apply table_needed_cols_sound.
      * intros tab' Htab'. rewrite Et in Htab'. discriminate.
  - destruct IHl as [Hl1 [Hl2 Hl3]]. destruct IHr as [Hr1 [Hr2 Hr3]].
    simpl. rewrite Hl2, Hl3, Hr2, Hr3. split; [|split; reflexivity].
    intros [Hl Hr]. split; auto.
  - destruct IH as [H1 [H2 H3]]. simpl. rewrite H2, H3.
    split; [auto | split; reflexivity].
Qed.

Lemma insert_project_nodes_spec_witness :
  projections_pruned sm_abc ["a.k"; "b.k"]
    (insert_project_nodes sm_abc
       (PJoin T_NestLoop (scan_of "a") (scan_of "b")
              [col_cond "a" "k" OP_EQ "b" "k"])
       ["a.k"; "b.k"]).
Proof.
  apply (proj1 (insert_project_nodes_spec sm_abc
                  (PJoin T_NestLoop (scan_of "a") (scan_of "b")
                         [col_cond "a" "k" OP_EQ "b" "k"])
                  ["a.k"; "b.k"])).
  simpl. split; exact I.
Defined.

(** X23. For a SELECT without ORDER BY the plan returned by
    [generate_select_plan] has at its root the projection on the select
    list of the query, as the query lists it. *)
Theorem projection_at_the_root (sm : SmManager) (k : Knobs) (query : Query)
    (plan : Plan) :
  has_sort (parse query) = false ->
  generate_select_plan sm k query = Ret plan ->
  exists tree, plan = PProjection tree (cols query).
Proof.
  intros Hsort H. unfold generate_select_plan in H.
  apply bind_Ret_inv in H. destruct H as [q1 [Hlog H]].
  pose proof (@logical_optimization_returns sm query q1 Hlog) as [Hp1 Hc1].
  unfold physical_optimization in H.
  apply bind_Ret_inv in H. destruct H as [[p0 q2] [Hrel H]].
  pose proof (@make_one_rel_returns sm k q1 q2 p0 Hrel) as [Hnn [Hp2 [Hc2 Ht2]]].
  unfold generate_sort_plan in H. rewrite Hp2, Hp1, Hsort in H. simpl in H.
  inversion H as [Hplan]. clear H.
  pose proof (@push_filters_down_not_null p0 Hnn) as Hnn'.
  unfold apply_projection_pushdown, apply_predicate_pushdown.
  rewrite Hc2, Hc1.
  destruct (push_filters_down p0); try discriminate; eexists; reflexivity.
Qed.

Lemma projection_at_the_root_witness :
  exists tree,
    PProjection (PFilter (scan_of "a") [val_cond "a" "x" OP_EQ 5])
                [col "a" "k"; col "a" "x"]
    = PProjection tree (cols two_predicates_query).
Proof.
  apply (projection_at_the_root sm_abc both_on two_predicates_query).
  - reflexivity.
  - reflexivity.
Defined.

(** ** The sort generator *)

Lemma find_first {A : Type} (f : A -> bool) (before after : list A) (x : A) :
  Forall (fun y => f y = false) before -> f x = true ->
  find f (before ++ x :: after) = Some x.
Proof.
  induction 1 as [|y before Hy _ IH]; simpl; intros Hx.
  - rewrite Hx. reflexivity.
  - rewrite Hy. apply IH, Hx.
Qed.

Lemma find_nothing {A : Type} (f : A -> bool) (l : list A) :
  Forall (fun y => f y = false) l -> find f l = None.
Proof.
  induction 1 as [|y l Hy _ IH]; simpl; [reflexivity|].
  rewrite Hy. exact IH.
Qed.

(** X24. The ORDER BY column is looked up by its name alone in the
    columns of the tables of the query, in the order of the tables, and
    the first column of that name gives the sort key with its table.
    A name that no table has is not rejected: the plan is sorted on
    the column reference with empty table and column name. *)
Theorem sort_key_resolution (sm : SmManager) (query : Query) (plan : Plan)
    (ob : OrderBy) (all_cols : list ColMeta) :
  has_sort (parse query) = true ->
  order (parse query) = Some ob ->
  all_cols_of sm (tables query) = Ret all_cols ->
  (forall before c after,
      all_cols = before ++ c :: after ->
      cm_name c = ob_col_name ob ->
      Forall (fun b => cm_name b <> ob_col_name ob) before ->
      generate_sort_plan sm query plan
      = Ret (PSort plan (mkTabCol (cm_tab_name c) (cm_name c))
                   (OrderByDir_eqb (orderby_dir ob) OrderBy_DESC)))
  /\ (Forall (fun b => cm_name b <> ob_col_name ob) all_cols ->
      generate_sort_plan sm query plan
      = Ret (PSort plan (mkTabCol EmptyString EmptyString)
                   (OrderByDir_eqb (orderby_dir ob) OrderBy_DESC))).
Proof.
  intros Hs Ho Ha. unfold generate_sort_plan. rewrite Hs, Ha, Ho. simpl.
  assert (Hneq : forall l,
            Forall (fun b => cm_name b <> ob_col_name ob) l ->
            Forall (fun b => String.eqb (cm_name b) (ob_col_name ob) = false) l).
  { intros l Hl. eapply Forall_impl; [|exact Hl].
    intros b Hb. apply String.eqb_neq, Hb. }
  split.
  - intros before c after Hall Hc Hb. subst all_cols.
    rewrite (find_first _ before after c (Hneq _ Hb))
      by (apply String.eqb_eq, Hc).
    reflexivity.
  - intros Hnone. rewrite (find_nothing _ _ (Hneq _ Hnone)). reflexivity.
Qed.

Lemma sort_key_resolution_witness :
  generate_sort_plan sm_abc
    (mkQuery (mkSelect true (Some (mkOrderBy "k" OrderBy_ASC)))
             ["b"; "a"] [] [] true)
    PNull
  = Ret (PSort PNull (mkTabCol "b" "k") false)
  /\ generate_sort_plan sm_abc
       (mkQuery (mkSelect true (Some (mkOrderBy "z" OrderBy_DESC)))
                ["b"; "a"] [] [] true)
       PNull
     = Ret (PSort PNull (mkTabCol "" "") true).
Proof.
  split.
  - apply (proj1 (sort_key_resolution sm_abc
                    (mkQuery (mkSelect true (Some (mkOrderBy "k" OrderBy_ASC)))
                             ["b"; "a"] [] [] true)
                    PNull (mkOrderBy "k" OrderBy_ASC)
                    [mkColMeta "b" "k"; mkColMeta "a" "k"; mkColMeta "a" "x"]
                    eq_refl eq_refl eq_refl)
             [] (mkColMeta "b" "k") [mkColMeta "a" "k"; mkColMeta "a" "x"]).
    + reflexivity.
    + reflexivity.
    + constructor.
  - apply (proj2 (sort_key_resolution sm_abc
                    (mkQuery (mkSelect true (Some (mkOrderBy "z" OrderBy_DESC)))
                             ["b"; "a"] [] [] true)
                    PNull (mkOrderBy "z" OrderBy_DESC)
                    [mkColMeta "b" "k"; mkColMeta "a" "k"; mkColMeta "a" "x"]
                    eq_refl eq_refl eq_refl)).
    repeat constructor; discriminate.
Defined.

(** ** The greedy join order *)

Lemma set_insert_permutation (x : string) (s : list string) :
  set_count x s = false -> Permutation (x :: s) (set_insert x s).
Proof.
  induction s as [|y s IH]; simpl; intros H; [apply Permutation_refl|].
  apply orb_false_iff in H. destruct H as [Hxy Hs].
  destruct (String.compare x y) eqn:E.
  - apply String.compare_eq_iff in E. subst.
    rewrite String.eqb_refl in Hxy. discriminate.
  - apply Permutation_refl.
  - eapply perm_trans; [apply perm_swap|]. apply perm_skip, IH, Hs.
Qed.

Lemma consider_cases (stats : list stat) (conditions : list Condition)
    (used : list string) (acc : string * Z) (st : stat) :
  consider stats conditions used acc st = acc
  \/ (consider stats conditions used acc st
      = (fst st, cardinality_map stats (fst st))
      /\ set_count (fst st) used = false
      /\ (cardinality_map stats (fst st) < snd acc)%Z).
Proof.
  unfold consider.
  destruct (set_count (fst st) used) eqn:Eu; [left; reflexivity|].
  destruct (negb _ && _); [left; reflexivity|].
  destruct (Z.ltb_spec (cardinality_map stats (fst st)) (snd acc));
    [right; repeat split; assumption | left; reflexivity].
Qed.

Lemma best_table_listed (stats : list stat) (conditions : list Condition)
    (used : list string) (l : list stat) :
  forall a,
    fst (fold_left (consider stats conditions used) l a) = fst a
    \/ In (fst (fold_left (consider stats conditions used) l a)) (map fst l).
Proof.
  induction l as [|st l IH]; intros a; simpl; [left; reflexivity|].
  destruct (IH (consider stats conditions used a st)) as [H|H];
    [|right; right; exact H].
  rewrite H.
  destruct (consider_cases stats conditions used a st) as [E|[E _]];
    rewrite E; [left; reflexivity | right; left; reflexivity].
Qed.

(** What a round of the loop adds: a table of the list that was not
    used yet. *)
Lemma greedy_round (stats sorted : list stat) (conditions : list Condition)
    (fuel : nat) (result used : list string) :
  Permutation sorted stats ->
  (List.length used < List.length stats)%nat ->
  greedy_loop (S fuel) stats sorted conditions result used = Diverge
  \/ exists t,
       set_count t used = false /\ In t (map fst stats)
       /\ greedy_loop (S fuel) stats sorted conditions result used
          = greedy_loop fuel stats sorted conditions
              (result ++ [t]) (set_insert t used).
Proof.
  intros Hp Hlt.
  change (greedy_loop (S fuel) stats sorted conditions result used)
    with (if (List.length used <? List.length stats)%nat
          then
            let best_table :=
              fst (fold_left (consider stats conditions used) stats
                             (EmptyString, SIZE_MAX)) in
            if negb (String.eqb best_table EmptyString)
            then greedy_loop fuel stats sorted conditions
                   (result ++ [best_table]) (set_insert best_table used)
            else
              match find (fun st => negb (set_count (fst st) used)) sorted with
              | Some st =>
                  greedy_loop fuel stats sorted conditions
                    (result ++ [fst st]) (set_insert (fst st) used)
              | None => Diverge
              end
          else Ret result).
  destruct (Nat.ltb_spec (List.length used) (List.length stats)) as [_|Hge];
    [|lia].
  cbv zeta.
  set (best := fst (fold_left (consider stats conditions used) stats
                              (EmptyString, SIZE_MAX))).
  destruct (String.eqb_spec best EmptyString) as [Eb|Eb]; simpl negb; cbv iota.
  - destruct (find (fun st => negb (set_count (fst st) used)) sorted)
      as [st|] eqn:E; [|left; reflexivity].
    apply find_some in E. destruct E as [Hin E]. apply negb_true_iff in E.
    right. exists (fst st). repeat split; [exact E|].
    apply in_map. eapply Permutation_in; [exact Hp | exact Hin].
  - right. exists best. repeat split.
    + destruct (best_table_unused stats conditions used stats
                  (EmptyString, SIZE_MAX) (or_introl eq_refl)) as [Hb|Hb];
        [contradiction | exact Hb].
    + destruct (best_table_listed stats conditions used stats
                  (EmptyString, SIZE_MAX)) as [Hb|Hb];
        [contradiction | exact Hb].
Qed.

Lemma greedy_loop_outcome (stats sorted : list stat)
    (conditions : list Condition) :
  Permutation sorted stats ->
  forall fuel result used,
    greedy_loop fuel stats sorted conditions result used = Diverge
    \/ exists order,
         greedy_loop fuel stats sorted conditions result used = Ret order.
Proof.
  intros Hp. induction fuel as [|fuel IH]; intros result used.
  - simpl. destruct (_ <? _)%nat; [left; reflexivity | right; eexists; reflexivity].
  - destruct (Nat.lt_ge_cases (List.length used) (List.length stats)) as [Hlt|Hge].
    + destruct (greedy_round stats sorted conditions fuel result used Hp Hlt)
        as [H|[t [_ [_ H]]]]; rewrite H; [left; reflexivity | apply IH].
    + simpl. destruct (Nat.ltb_spec (List.length used) (List.length stats)); [lia|].
      right. eexists. reflexivity.
Qed.

(** The loop exits only with every table placed once. *)
Lemma greedy_loop_permutation (stats sorted : list stat)
    (conditions : list Condition) :
  Permutation sorted stats ->
  forall fuel result used order,
    strictly_increasing used ->
    Permutation result used ->
    incl used (map fst stats) ->
    greedy_loop fuel stats sorted conditions result used = Ret order ->
    Permutation order (map fst stats)
    /\ exists rest, order = result ++ rest.
Proof.
  intros Hp. induction fuel as [|fuel IH];
    intros result used order Hinc Hres Hincl Hret.
  - simpl in Hret.
    destruct (Nat.ltb_spec (List.length used) (List.length stats));
      [discriminate|].
    inversion Hret; subst order. split; [|exists []; symmetry; apply app_nil_r].
    eapply perm_trans; [exact Hres|].
    apply NoDup_Permutation_bis;
      [apply strictly_increasing_NoDup, Hinc | rewrite length_map; lia | exact Hincl].
  - destruct (Nat.lt_ge_cases (List.length used) (List.length stats)) as [Hlt|Hge].
    + destruct (greedy_round stats sorted conditions fuel result used Hp Hlt)
        as [H|[t [Hun [Hin H]]]]; rewrite H in Hret; [discriminate|].
      apply IH in Hret.
      * destruct Hret as [Hperm [rest Hrest]]. split; [exact Hperm|].
        exists (t :: rest). rewrite Hrest, <- app_assoc. reflexivity.
      * apply set_insert_increasing, Hinc.
      * eapply perm_trans; [|apply set_insert_permutation, Hun].
        eapply perm_trans; [apply Permutation_app_comm|].
        simpl. apply perm_skip, Hres.
      * intros z Hz. apply set_insert_in in Hz. destruct Hz as [Hz|Hz];
          [subst z; exact Hin | apply Hincl, Hz].
    + simpl in Hret.
      destruct (Nat.ltb_spec (List.length used) (List.length stats)); [lia|].
      inversion Hret; subst order. split; [|exists []; symmetry; apply app_nil_r].
      eapply perm_trans; [exact Hres|].
      apply NoDup_Permutation_bis;
        [apply strictly_increasing_NoDup, Hinc | rewrite length_map; lia | exact Hincl].
Qed.

Lemma seed_used (s0 s1 : stat) :
  let used := set_insert (fst s1) (set_insert (fst s0) []) in
  strictly_increasing used
  /\ incl used [fst s0; fst s1]
  /\ (fst s0 <> fst s1 -> Permutation [fst s0; fst s1] used).
Proof.
  intros used. split; [|split].
  - apply set_insert_increasing, set_insert_increasing. constructor.
  - intros z Hz. apply set_insert_in in Hz. destruct Hz as [Hz|Hz].
    + right; left. symmetry; exact Hz.
    + apply set_insert_in in Hz. destruct Hz as [Hz|[]]. left. symmetry; exact Hz.
  - intros Hne. eapply perm_trans; [apply perm_swap|].
    apply set_insert_permutation. simpl.
    apply orb_false_iff. split; [|reflexivity].
    apply String.eqb_neq. intros E. apply Hne. symmetry. exact E.
Qed.

Lemma greedy_order (stats : list stat) (conditions : list Condition)
    (order : list string) :
  (3 <= List.length stats)%nat ->
  NoDup (map fst stats) ->
  greedy_join_order_optimization stats conditions = Ret order ->
  Permutation order (map fst stats)
  /\ exists s0 s1 sorted rest,
       std_sort stats = s0 :: s1 :: sorted
       /\ order = fst s0 :: fst s1 :: rest
       /\ greedy_loop (List.length stats) stats (std_sort stats) conditions
            [fst s0; fst s1] (set_insert (fst s1) (set_insert (fst s0) []))
          = Ret order.
Proof.
  intros Hlen Hnd. unfold greedy_join_order_optimization.
  destruct (Nat.leb_spec (List.length stats) 2); [lia|].
  pose proof (std_sort_permutation stats) as Hp.
  pose proof (Permutation_length Hp) as Hl.
  destruct (std_sort stats) as [|s0 [|s1 sorted]] eqn:Es; simpl in Hl; try lia.
  intros Hret.
  assert (Hnd' : NoDup (map fst (s0 :: s1 :: sorted))).
  { eapply Permutation_NoDup; [|exact Hnd].
    apply Permutation_map, Permutation_sym, Hp. }
  assert (Hne : fst s0 <> fst s1).
  { simpl in Hnd'. inversion Hnd' as [|x l Hx _]; subst.
    intros E. apply Hx. left. symmetry. exact E. }
  destruct (seed_used s0 s1) as [Hinc [Hincl Hperm]].
  destruct (greedy_loop_permutation stats (s0 :: s1 :: sorted) conditions Hp
              (List.length stats) [fst s0; fst s1] _ order
              Hinc (Hperm Hne)) as [Hpo [rest Hrest]].
  - intros z Hz. apply Hincl in Hz.
    eapply Permutation_in; [apply Permutation_map, Hp|].
    simpl. simpl in Hz. tauto.
  - exact Hret.
  - split; [exact Hpo|].
    exists s0, s1, sorted, rest. repeat split; [exact Hrest | exact Hret].
Qed.

(** X25. The table order written by [join_order_optimization] for a
    query that lists no table twice is a permutation of the tables of
    the query: the greedy loop ends, and it places every table once. *)
Theorem join_order_is_permutation (sm : SmManager) (query : Query)
    (table_stats : list stat) :
  NoDup (tables query) ->
  collect_table_stats sm (tables query) = Ret table_stats ->
  exists table_order,
    join_order sm query = Ret table_order
    /\ Permutation table_order (tables query).
Proof.
  intros Hnd Hstats. unfold join_order, join_order_optimization.
  destruct (Nat.leb_spec (List.length (tables query)) 2) as [Hle|Hgt].
  - exists (tables query). split; [reflexivity | apply Permutation_refl].
  - rewrite Hstats. simpl.
    pose proof (collect_table_stats_names sm _ Hstats) as Hnames.
    assert (Hnd1 : NoDup (map fst table_stats)) by (rewrite Hnames; exact Hnd).
    assert (Hlen1 : (3 <= List.length table_stats)%nat)
      by (rewrite <- (length_map fst), Hnames; exact Hgt).
    destruct (@greedy_returns table_stats (conds query) Hnd1 Hlen1)
      as [order Hret].
    exists order. rewrite Hret. simpl. split; [reflexivity|].
    rewrite <- Hnames.
    exact (proj1 (greedy_order table_stats (conds query) order Hlen1 Hnd1 Hret)).
Qed.

Lemma join_order_is_permutation_witness :
  exists table_order,
    join_order sm_abc chain_query = Ret table_order
    /\ Permutation table_order (tables chain_query).
Proof.
  apply (join_order_is_permutation sm_abc chain_query
           [("a", 1000%Z); ("b", 10%Z); ("c", 100%Z)]).
  - repeat constructor; simpl; intuition discriminate.
  - vm_compute. reflexivity.
Defined.

(** X26. With three tables or more of which one is listed twice,
    [join_order_optimization] does not return: the set of used tables
    never gets as large as the list of tables, so the condition of the
    [while] loop stays true, and once every table is used a round
    changes nothing. *)
Theorem join_order_of_repeated_table_diverges (sm : SmManager) (query : Query)
    (table_stats : list stat) :
  (3 <= List.length (tables query))%nat ->
  ~ NoDup (tables query) ->
  collect_table_stats sm (tables query) = Ret table_stats ->
  join_order_optimization sm query = Diverge.
Proof.
  intros Hlen Hdup Hstats. unfold join_order_optimization.
  destruct (Nat.leb_spec (List.length (tables query)) 2); [lia|].
  rewrite Hstats. simpl.
  pose proof (collect_table_stats_names sm _ Hstats) as Hnames.
  assert (Hlen1 : (3 <= List.length table_stats)%nat)
    by (rewrite <- (length_map fst), Hnames; exact Hlen).
  unfold greedy_join_order_optimization.
  destruct (Nat.leb_spec (List.length table_stats) 2); [lia|].
  pose proof (std_sort_permutation table_stats) as Hp.
  pose proof (Permutation_length Hp) as Hl.
  destruct (std_sort table_stats) as [|s0 [|s1 sorted]] eqn:Es;
    simpl in Hl; try lia.
  destruct (greedy_loop_outcome table_stats (s0 :: s1 :: sorted) (conds query)
              Hp (List.length table_stats) [fst s0; fst s1]
              (set_insert (fst s1) (set_insert (fst s0) [])))
    as [Hd|[order Hret]]; [rewrite Hd; reflexivity|].
  exfalso. apply Hdup. rewrite <- Hnames.
  (* a returning loop has placed every table once *)
  clear Hdup Hnames Hstats.
  destruct (seed_used s0 s1) as [Hinc [Hincl _]].
  assert (Hgen : forall fuel result used,
             strictly_increasing used ->
             incl used (map fst table_stats) ->
             greedy_loop fuel table_stats (s0 :: s1 :: sorted) (conds query)
               result used = Ret order ->
             NoDup (map fst table_stats)).
  { induction fuel as [|fuel IH]; intros result used Hi Hsub Hr.
    - simpl in Hr.
      destruct (Nat.ltb_spec (List.length used) (List.length table_stats));
        [discriminate|].
      eapply Permutation_NoDup;
        [|apply strictly_increasing_NoDup, Hi].
      apply NoDup_Permutation_bis;
        [apply strictly_increasing_NoDup, Hi | rewrite length_map; lia | exact Hsub].
    - destruct (Nat.lt_ge_cases (List.length used) (List.length table_stats))
        as [Hlt|Hge].
      + destruct (greedy_round table_stats (s0 :: s1 :: sorted) (conds query)
                    fuel result used Hp Hlt) as [Hs|[t [Hun [Hin Hs]]]];
          rewrite Hs in Hr; [discriminate|].
        apply IH in Hr; [exact Hr | apply set_insert_increasing, Hi |].
        intros z Hz. apply set_insert_in in Hz. destruct Hz as [Hz|Hz];
          [subst z; exact Hin | apply Hsub, Hz].
      + simpl in Hr.
        destruct (Nat.ltb_spec (List.length used) (List.length table_stats));
          [lia|].
        eapply Permutation_NoDup;
          [|apply strictly_increasing_NoDup, Hi].
        apply NoDup_Permutation_bis;
          [apply strictly_increasing_NoDup, Hi | rewrite length_map; lia | exact Hsub]. }
  apply (Hgen _ _ _ Hinc) in Hret; [exact Hret|].
  intros z Hz. apply Hincl in Hz.
  eapply Permutation_in; [apply Permutation_map, Hp|].
  simpl. simpl in Hz. tauto.
Qed.

Lemma join_order_of_repeated_table_diverges_witness :
  join_order_optimization sm_abc (tables_query ["a"; "b"; "a"; "c"]) = Diverge.
Proof.
  apply (join_order_of_repeated_table_diverges sm_abc
           (tables_query ["a"; "b"; "a"; "c"])
           [("a", 1000%Z); ("b", 10%Z); ("a", 1000%Z); ("c", 100%Z)]).
  - simpl. lia.
  - intros H. inversion H as [|x l Hx _]; subst. apply Hx. simpl. tauto.
  - vm_compute. reflexivity.
Defined.

Lemma sort_insert_sorted (x : stat) (l : list stat) :
  by_cardinality l -> by_cardinality (sort_insert x l).
Proof.
  unfold by_cardinality.
  induction l as [|y l IH]; simpl; intros Hs.
  - constructor; constructor.
  - inversion Hs as [|y' l' Hl Hall]; subst.
    destruct (Z.ltb_spec (snd x) (snd y)) as [Hlt|Hge].
    + constructor; [exact Hs|]. constructor; [lia|].
      eapply Forall_impl; [|exact Hall]. simpl. intros; lia.
    + constructor; [apply IH, Hl|].
      rewrite Forall_forall. intros z Hz.
      apply (Permutation_in _ (sort_insert_permutation x l)) in Hz.
      destruct Hz as [Hz|Hz]; [subst z; exact Hge|].
      rewrite Forall_forall in Hall. apply Hall, Hz.
Qed.

Lemma std_sort_sorted (l : list stat) : by_cardinality (std_sort l).
Proof.
  unfold std_sort.
  assert (H : forall acc, by_cardinality acc ->
                by_cardinality (fold_left (fun acc x => sort_insert x acc) l acc)).
  { induction l as [|x l IH]; simpl; intros acc Hacc; [exact Hacc|].
    apply IH, sort_insert_sorted, Hacc. }
  apply H. constructor.
Qed.

Lemma greedy_loop_prefix (stats sorted : list stat)
    (conditions : list Condition) :
  Permutation sorted stats ->
  forall fuel result used order,
    greedy_loop fuel stats sorted conditions result used = Ret order ->
    exists rest, order = result ++ rest.
Proof.
  intros Hp. induction fuel as [|fuel IH]; intros result used order Hret.
  - simpl in Hret. destruct (_ <? _)%nat; [discriminate|].
    inversion Hret. exists []. symmetry. apply app_nil_r.
  - destruct (Nat.lt_ge_cases (List.length used) (List.length stats)) as [Hlt|Hge].
    + destruct (greedy_round stats sorted conditions fuel result used Hp Hlt)
        as [Hs|[t [_ [_ Hs]]]]; rewrite Hs in Hret; [discriminate|].
      apply IH in Hret. destruct Hret as [rest Hrest].
      exists (t :: rest). rewrite Hrest, <- app_assoc. reflexivity.
    + simpl in Hret.
      destruct (Nat.ltb_spec (List.length used) (List.length stats)); [lia|].
      inversion Hret. exists []. symmetry. apply app_nil_r.
Qed.

(** X27. The table order of [greedy_join_order_optimization] for two
    tables or more starts with two tables of smallest cardinality, the
    smaller one first: no other table has a cardinality below that of
    the second. *)
Theorem smallest_tables_first (table_stats : list stat)
    (conditions : list Condition) (table_order : list string) :
  (2 <= List.length table_stats)%nat ->
  greedy_join_order_optimization table_stats conditions = Ret table_order ->
  exists s0 s1 others rest,
    Permutation (s0 :: s1 :: others) table_stats
    /\ table_order = fst s0 :: fst s1 :: rest
    /\ (snd s0 <= snd s1)%Z
    /\ Forall (fun s => (snd s1 <= snd s)%Z) others.
Proof.
  intros Hlen. unfold greedy_join_order_optimization.
  pose proof (std_sort_permutation table_stats) as Hp.
  pose proof (Permutation_length Hp) as Hl.
  pose proof (std_sort_sorted table_stats) as Hs.
  destruct (std_sort table_stats) as [|s0 [|s1 sorted]] eqn:Es;
    simpl in Hl; try lia.
  assert (Hord : (snd s0 <= snd s1)%Z
                 /\ Forall (fun s => (snd s1 <= snd s)%Z) sorted).
  { inversion Hs as [|x l Hs1 Hall0]; subst.
    inversion Hs1 as [|y l' _ Hall1]; subst.
    inversion Hall0; subst. split; assumption. }
  destruct (Nat.leb_spec (List.length table_stats) 2) as [Hle|Hgt]; intros Hret.
  - inversion Hret; subst table_order.
    exists s0, s1, sorted, (map fst sorted).
    repeat split; [exact Hp | apply Hord | apply Hord].
  - destruct (greedy_loop_prefix table_stats (s0 :: s1 :: sorted) conditions
                Hp _ _ _ _ Hret) as [rest Hrest].
    exists s0, s1, sorted, rest.
    repeat split; [exact Hp | exact Hrest | apply Hord | apply Hord].
Qed.

Lemma smallest_tables_first_witness :
  exists s0 s1 others rest,
    Permutation (s0 :: s1 :: others) [("a", 1000%Z); ("b", 10%Z); ("c", 100%Z)]
    /\ ["b"; "c"; "a"] = fst s0 :: fst s1 :: rest
    /\ (snd s0 <= snd s1)%Z
    /\ Forall (fun s => (snd s1 <= snd s)%Z) others.
Proof.
  apply (smallest_tables_first [("a", 1000%Z); ("b", 10%Z); ("c", 100%Z)]
           (conds chain_query) ["b"; "c"; "a"]).
  - simpl. lia.
  - vm_compute. reflexivity.
Defined.

Lemma consider_eligible (stats : list stat) (conditions : list Condition)
    (used : list string) (acc : string * Z) (st : stat) :
  consider stats conditions used acc st
  = if eligible stats conditions used (fst st)
       && (cardinality_map stats (fst st) <? snd acc)%Z
    then (fst st, cardinality_map stats (fst st))
    else acc.
Proof.
  unfold consider, eligible.
  destruct (set_count (fst st) used); simpl; [reflexivity|].
  destruct (has_join_condition conditions used (fst st)); simpl;
    [reflexivity|].
  destruct (other_tables_have_joins stats conditions used (fst st)); simpl;
    reflexivity.
Qed.

(** The candidate loop leaves the eligible table of smallest
    cardinality, if one lies below the start value. *)
Lemma best_table_spec (stats : list stat) (conditions : list Condition)
    (used : list string) (l : list stat) :
  forall a,
    let r := fold_left (consider stats conditions used) l a in
    (snd r <= snd a)%Z
    /\ (forall st, In st l ->
          eligible stats conditions used (fst st) = true ->
          (snd r <= cardinality_map stats (fst st))%Z)
    /\ (r = a
        \/ exists st,
             In st l /\ eligible stats conditions used (fst st) = true
             /\ r = (fst st, cardinality_map stats (fst st))).
Proof.
  induction l as [|st l IH]; intros a; simpl.
  - split; [lia|]. split; [intros st []|]. left. reflexivity.
  - destruct (IH (consider stats conditions used a st)) as [Hle [Hmin Hcase]].
    assert (Hstep :
              (snd (consider stats conditions used a st) <= snd a)%Z
              /\ (eligible stats conditions used (fst st) = true ->
                  (snd (consider stats conditions used a st)
                   <= cardinality_map stats (fst st))%Z)
              /\ (consider stats conditions used a st = a
                  \/ (eligible stats conditions used (fst st) = true
                      /\ consider stats conditions used a st
                         = (fst st, cardinality_map stats (fst st))))).
    { rewrite consider_eligible.
      destruct (eligible stats conditions used (fst st)); simpl.
      - destruct (Z.ltb_spec (cardinality_map stats (fst st)) (snd a));
          simpl; repeat split; try lia; auto.
      - repeat split; try lia; try discriminate. left. reflexivity. }
    destruct Hstep as [S1 [S2 S3]].
    split; [lia|]. split.
    + intros st' [E|Hin] He; [subst st'; specialize (S2 He); lia|].
      apply Hmin; assumption.
    + destruct Hcase as [E|[st' [Hin [He E]]]].
      * rewrite E. destruct S3 as [S3|[Se S3]]; [left; exact S3|].
        right. exists st. repeat split; [left; reflexivity | exact Se | exact S3].
      * right. exists st'.
        repeat split; [right; exact Hin | exact He | exact E].
Qed.

Lemma other_tables_have_joins_false (stats : list stat)
    (conditions : list Condition) (used : list string) (t : string) :
  other_tables_have_joins stats conditions used t = false <->
  (forall o, In o (map fst stats) -> set_count o used = false -> o <> t ->
             has_join_condition conditions used o = false).
Proof.
  unfold other_tables_have_joins. split.
  - intros H o Ho Hun Hne.
    apply in_map_iff in Ho. destruct Ho as [st [Eo Hst]]. subst o.
    destruct (has_join_condition conditions used (fst st)) eqn:Ej;
      [|reflexivity].
    assert (Ht : existsb
                   (fun other_stat =>
                      negb (set_count (fst other_stat) used
                            || String.eqb (fst other_stat) t)
                      && has_join_condition conditions used (fst other_stat))
                   stats = true).
    { apply existsb_exists. exists st. split; [exact Hst|].
      rewrite Hun, Ej. apply String.eqb_neq in Hne. rewrite Hne. reflexivity. }
    congruence.
  - intros H.
    destruct (existsb _ stats) eqn:E; [|reflexivity].
    apply existsb_exists in E. destruct E as [st [Hst E]].
    apply andb_true_iff in E. destruct E as [E1 E2].
    apply negb_true_iff, orb_false_iff in E1. destruct E1 as [Hun Hne].
    apply String.eqb_neq in Hne.
    rewrite (H (fst st) (in_map fst _ _ Hst) Hun Hne) in E2. discriminate.
Qed.

Section GreedyChoice.

Variable stats : list stat.
Variable conditions : list Condition.
Hypothesis names_differ : NoDup (map fst stats).
Hypothesis below_max : Forall (fun s => (snd s < SIZE_MAX)%Z) stats.
Hypothesis names_not_empty : ~ In EmptyString (map fst stats).

Lemma cardinality_below_max (t : string) :
  In t (map fst stats) -> (cardinality_map stats t < SIZE_MAX)%Z.
Proof.
  intros Ht. apply in_map_iff in Ht. destruct Ht as [[t' c] [E Hin]].
  simpl in E. subst t'.
  rewrite (@cardinality_map_in stats t c names_differ Hin).
  rewrite Forall_forall in below_max. exact (below_max _ Hin).
Qed.

Lemma eligible_table_exists (sorted : list stat) (used : list string) :
  Permutation sorted stats ->
  (List.length used < List.length stats)%nat ->
  exists e, In e stats /\ eligible stats conditions used (fst e) = true.
Proof.
  intros Hp Hlt.
  destruct (@unused_table_found stats sorted used names_differ Hp Hlt)
    as [u [Hfind Hun]].
  apply find_some in Hfind. destruct Hfind as [Hin _].
  apply (Permutation_in _ Hp) in Hin.
  destruct (other_tables_have_joins stats conditions used (fst u)) eqn:Eo.
  - unfold other_tables_have_joins in Eo.
    apply existsb_exists in Eo. destruct Eo as [o [Ho E]].
    apply andb_true_iff in E. destruct E as [E1 E2].
    apply negb_true_iff, orb_false_iff in E1. destruct E1 as [Huno _].
    exists o. split; [exact Ho|].
    unfold eligible. rewrite Huno, E2. reflexivity.
  - exists u. split; [exact Hin|].
    unfold eligible. rewrite Hun, Eo. simpl. apply orb_true_r.
Qed.

(** A round adds the eligible table of smallest cardinality. *)
Lemma greedy_round_choice (sorted : list stat) (fuel : nat)
    (result used : list string) :
  Permutation sorted stats ->
  (List.length used < List.length stats)%nat ->
  exists t,
    In t (map fst stats)
    /\ eligible stats conditions used t = true
    /\ (forall u, In u (map fst stats) ->
                  eligible stats conditions used u = true ->
                  (cardinality_map stats t <= cardinality_map stats u)%Z)
    /\ greedy_loop (S fuel) stats sorted conditions result used
       = greedy_loop fuel stats sorted conditions
           (result ++ [t]) (set_insert t used).
Proof.
  intros Hp Hlt.
  change (greedy_loop (S fuel) stats sorted conditions result used)
    with (if (List.length used <? List.length stats)%nat
          then
            let best_table :=
              fst (fold_left (consider stats conditions used) stats
                             (EmptyString, SIZE_MAX)) in
            if negb (String.eqb best_table EmptyString)
            then greedy_loop fuel stats sorted conditions
                   (result ++ [best_table]) (set_insert best_table used)
            else
              match find (fun st => negb (set_count (fst st) used)) sorted with
              | Some st =>
                  greedy_loop fuel stats sorted conditions
                    (result ++ [fst st]) (set_insert (fst st) used)
              | None => Diverge
              end
          else Ret result).
  destruct (Nat.ltb_spec (List.length used) (List.length stats)) as [_|Hge];
    [|lia].
  cbv zeta.
  destruct (best_table_spec stats conditions used stats (EmptyString, SIZE_MAX))
    as [_ [Hmin Hcase]].
  destruct (eligible_table_exists sorted used Hp Hlt) as [e [He Hel]].
  pose proof (Hmin e He Hel) as Hbelow.
  pose proof (cardinality_below_max (fst e) (in_map fst _ _ He)) as Hmax.
  destruct Hcase as [E|[st [Hst [Hste E]]]].
  - rewrite E in Hbelow. simpl in Hbelow. lia.
  - rewrite E in Hmin |- *. simpl fst. simpl snd in Hmin.
    assert (Hname : fst st <> EmptyString).
    { intros Hn. apply names_not_empty. rewrite <- Hn. apply in_map, Hst. }
    apply String.eqb_neq in Hname. rewrite Hname. simpl negb. cbv iota.
    exists (fst st). repeat split.
    + apply in_map, Hst.
    + exact Hste.
    + intros u Hu Hue. apply in_map_iff in Hu.
      destruct Hu as [su [Eu Hsu]]. subst u. apply Hmin; assumption.
Qed.

Lemma eligible_choice (used : list string) (t u : string) :
  eligible stats conditions used t = true ->
  In u (map fst stats) -> set_count u used = false -> u <> t ->
  (has_join_condition conditions used t = false ->
   has_join_condition conditions used u = false)
  /\ (has_join_condition conditions used u
      = has_join_condition conditions used t ->
      eligible stats conditions used u = true).
Proof.
  unfold eligible. intros Ht Hu Hun Hne.
  apply andb_true_iff in Ht. destruct Ht as [Htun Ht].
  apply negb_true_iff in Htun.
  rewrite Hun. simpl.
  destruct (has_join_condition conditions used t) eqn:Ejt; simpl in Ht.
  - split; [discriminate|]. intros E. rewrite E. reflexivity.
  - apply negb_true_iff in Ht.
    pose proof (proj1 (other_tables_have_joins_false stats conditions used t) Ht)
      as Hnone.
    split; [intros _; apply Hnone; assumption|].
    intros E. rewrite E. simpl. apply negb_true_iff.
    apply other_tables_have_joins_false. intros o Ho Houn _.
    destruct (string_dec o t) as [Eo|Eo]; [subst o; exact Ejt|].
    apply Hnone; assumption.
Qed.

Lemma greedy_loop_choice (sorted : list stat) :
  Permutation sorted stats ->
  forall fuel result used order,
    strictly_increasing used ->
    Permutation result used ->
    incl used (map fst stats) ->
    greedy_loop fuel stats sorted conditions result used = Ret order ->
    forall p t s,
      order = result ++ p ++ t :: s ->
      greedy_choice stats conditions (result ++ p) t s.
Proof.
  intros Hp. induction fuel as [|fuel IH];
    intros result used order Hinc Hres Hincl Hret p t s Hsplit.
  - simpl in Hret. destruct (_ <? _)%nat; [discriminate|].
    inversion Hret as [Eo]. rewrite <- Eo in Hsplit.
    apply (f_equal (@List.length string)) in Hsplit.
    rewrite !length_app in Hsplit. simpl in Hsplit. lia.
  - destruct (Nat.lt_ge_cases (List.length used) (List.length stats)) as [Hlt|Hge].
    + destruct (greedy_round_choice sorted fuel result used Hp Hlt)
        as [t0 [Hin [Hel [Hmin Hstep]]]].
      rewrite Hstep in Hret.
      assert (Hun : set_count t0 used = false).
      { unfold eligible in Hel. apply andb_true_iff in Hel.
        apply negb_true_iff. apply Hel. }
      assert (Hinc' : strictly_increasing (set_insert t0 used))
        by (apply set_insert_increasing, Hinc).
      assert (Hres' : Permutation (result ++ [t0]) (set_insert t0 used)).
      { eapply perm_trans; [|apply set_insert_permutation, Hun].
        eapply perm_trans; [apply Permutation_app_comm|].
        simpl. apply perm_skip, Hres. }
      assert (Hincl' : incl (set_insert t0 used) (map fst stats)).
      { intros z Hz. apply set_insert_in in Hz. destruct Hz as [Hz|Hz];
          [subst z; exact Hin | apply Hincl, Hz]. }
      destruct (greedy_loop_permutation stats sorted conditions Hp fuel
                  (result ++ [t0]) (set_insert t0 used) order
                  Hinc' Hres' Hincl' Hret) as [Hperm [rest Hrest]].
      rewrite <- app_assoc in Hrest. simpl in Hrest.
      assert (Hpt : p ++ t :: s = t0 :: rest).
      { apply (app_inv_head result). rewrite <- Hsplit. exact Hrest. }
      destruct p as [|x p]; simpl in Hpt; inversion Hpt; subst.
      * rewrite app_nil_r.
        assert (Hnd : NoDup (result ++ t0 :: rest)).
        { eapply Permutation_NoDup;
            [apply Permutation_sym, Hperm | exact names_differ]. }
        assert (Hlater : forall u, In u rest ->
                  In u (map fst stats) /\ set_count u used = false /\ u <> t0).
        { intros u Hu. split; [|split].
          - eapply Permutation_in; [exact Hperm|].
            apply in_or_app. right. right. exact Hu.
          - destruct (set_count u used) eqn:Ec; [|reflexivity].
            apply set_count_true in Ec.
            apply (Permutation_in _ (Permutation_sym Hres)) in Ec.
            exfalso.
            exact (NoDup_app_disjoint result (t0 :: rest) u Hnd Ec
                     (or_intror Hu)).
          - intros E. subst u.
            apply NoDup_remove_2 in Hnd. apply Hnd.
            apply in_or_app. right. exact Hu. }
        assert (Hj : forall u,
                  has_join_condition conditions result u
                  = has_join_condition conditions used u).
        { intros u. unfold has_join_condition.
          apply existsb_permutation, Hres. }
        split.
        -- intros Hnj. rewrite Forall_forall. intros u Hu.
           destruct (Hlater u Hu) as [Hu1 [Hu2 Hu3]].
           rewrite Hj in Hnj |- *.
           exact (proj1 (eligible_choice used t0 u Hel Hu1 Hu2 Hu3) Hnj).
        -- rewrite Forall_forall. intros u Hu E.
           destruct (Hlater u Hu) as [Hu1 [Hu2 Hu3]].
           rewrite !Hj in E.
           apply Hmin; [exact Hu1|].
           exact (proj2 (eligible_choice used t0 u Hel Hu1 Hu2 Hu3) E).
      * replace (result ++ t0 :: p) with ((result ++ [t0]) ++ p)
          by (rewrite <- app_assoc; reflexivity).
        apply (IH (result ++ [t0]) (set_insert t0 used)
                  ((result ++ [t0]) ++ p ++ t :: s) Hinc' Hres' Hincl').
        -- rewrite Hret. rewrite <- app_assoc. reflexivity.
        -- reflexivity.
    + simpl in Hret.
      destruct (Nat.ltb_spec (List.length used) (List.length stats)); [lia|].
      inversion Hret as [Eo]. rewrite <- Eo in Hsplit.
      apply (f_equal (@List.length string)) in Hsplit.
      rewrite !length_app in Hsplit. simpl in Hsplit. lia.
Qed.

End GreedyChoice.

(** X28. After the first two tables, [greedy_join_order_optimization]
    places a table that has no join condition with the tables placed
    before it only when none of the tables still to come has one, and
    among the tables still to come that agree with it on having such a
    join condition the table placed has the smallest cardinality. The
    table names are different and not empty, the cardinalities below
    [SIZE_MAX]. *)
Theorem connected_tables_first (table_stats : list stat)
    (conditions : list Condition) (table_order : list string) :
  (3 <= List.length table_stats)%nat ->
  NoDup (map fst table_stats) ->
  Forall (fun s => (snd s < SIZE_MAX)%Z) table_stats ->
  ~ In EmptyString (map fst table_stats) ->
  greedy_join_order_optimization table_stats conditions = Ret table_order ->
  forall placed table later,
    table_order = placed ++ table :: later ->
    (2 <= List.length placed)%nat ->
    greedy_choice table_stats conditions placed table later.
Proof.
  intros Hlen Hnd Hmax Hne Hret placed table later Hsplit Hplaced.
  destruct (greedy_order table_stats conditions table_order Hlen Hnd Hret)
    as [_ [s0 [s1 [sorted [rest [Es [Horder Hloop]]]]]]].
  pose proof (std_sort_permutation table_stats) as Hp.
  assert (Hne01 : fst s0 <> fst s1).
  { assert (Hnd' : NoDup (map fst (s0 :: s1 :: sorted))).
    { rewrite <- Es. eapply Permutation_NoDup; [|exact Hnd].
      apply Permutation_map, Permutation_sym, Hp. }
    simpl in Hnd'. inversion Hnd' as [|x l Hx _]; subst.
    intros E. apply Hx. left. symmetry. exact E. }
  destruct (seed_used s0 s1) as [Hinc [Hincl Hperm]].
  destruct placed as [|p0 [|p1 p]]; simpl in Hplaced; try lia.
  rewrite Horder in Hsplit. simpl in Hsplit.
  inversion Hsplit as [[E0 E1 Erest]]. subst p0 p1.
  apply (greedy_loop_choice table_stats conditions Hnd Hmax Hne
           (std_sort table_stats) Hp (List.length table_stats)
           [fst s0; fst s1] (set_insert (fst s1) (set_insert (fst s0) []))
           table_order Hinc (Hperm Hne01)).
  - intros z Hz. apply Hincl in Hz.
    eapply Permutation_in; [apply Permutation_map, Hp|].
    rewrite Es. simpl. simpl in Hz. tauto.
  - exact Hloop.
  - rewrite Horder, Erest. reflexivity.
Qed.

Lemma connected_tables_first_witness :
  greedy_join_order_optimization star_stats star_conds
  = Ret ["a"; "b"; "d"; "c"]
  /\ greedy_choice star_stats star_conds ["a"; "b"] "d" ["c"].
Proof.
  split; [vm_compute; reflexivity|].
  apply (connected_tables_first star_stats star_conds ["a"; "b"; "d"; "c"]).
  - simpl. lia.
  - repeat constructor; simpl; intuition discriminate.
  - repeat constructor.
  - simpl. intuition discriminate.
  - vm_compute. reflexivity.
  - reflexivity.
  - simpl. lia.
Defined.

(** ** The sequential scan executor *)

Section ScanLoopProperties.

Variable RmRecord : Type.
Variable eval_conds : list ColMeta -> list Condition -> RmRecord -> bool.

Lemma drain_round (fuel : nat) (e : SeqScan.SeqScanExecutor RmRecord) :
  drain eval_conds (S fuel) e
  = if SeqScan.is_end e then Ret []
    else
      '(record, e1) <- SeqScan.Next eval_conds e ;;
      e2 <- SeqScan.nextTuple eval_conds e1 ;;
      records <- drain eval_conds fuel e2 ;;
      Ret (match record with
           | Some rec => rec :: records
           | None => records
           end).
Proof. reflexivity. Qed.

(** An executor that stands where the search loop stops, started after
    the records [pre], returns the matching records of the rest. *)
Lemma drain_seek :
  forall rest pre rid0 fuel (e : SeqScan.SeqScanExecutor RmRecord),
    SeqScan.fh_ e = pre ++ rest ->
    (let '(pos, rid) :=
       SeqScan.seek eval_conds (SeqScan.cols_ e) (SeqScan.fed_conds_ e)
                    rest (List.length pre) rid0 in
     SeqScan.scan_ e = Some pos /\ SeqScan.rid_ e = rid) ->
    (List.length rest <= fuel)%nat ->
    drain eval_conds fuel e
    = Ret (filter (eval_conds (SeqScan.cols_ e) (SeqScan.fed_conds_ e)) rest).
Proof.
  induction rest as [|r rest IH]; intros pre rid0 fuel e Hfh Hst Hfuel.
  - simpl in Hst. destruct Hst as [Hscan _]. rewrite app_nil_r in Hfh.
    assert (Hend : SeqScan.is_end e = true)
      by (unfold SeqScan.is_end; rewrite Hscan, Hfh; apply Nat.leb_refl).
    destruct fuel; simpl; rewrite Hend; reflexivity.
  - assert (Hfh' : SeqScan.fh_ e = (pre ++ [r]) ++ rest)
      by (rewrite <- app_assoc; exact Hfh).
    assert (Hlen' : List.length (pre ++ [r]) = S (List.length pre))
      by (rewrite length_app; simpl; lia).
    simpl in Hst. simpl filter.
    destruct (eval_conds (SeqScan.cols_ e) (SeqScan.fed_conds_ e) r) eqn:Er.
    + destruct Hst as [Hscan Hrid].
      destruct fuel as [|fuel]; [simpl in Hfuel; lia|]. simpl in Hfuel.
      assert (Hlt : (List.length pre < List.length (SeqScan.fh_ e))%nat)
        by (rewrite Hfh, length_app; simpl; lia).
      assert (Hend : SeqScan.is_end e = false)
        by (unfold SeqScan.is_end; rewrite Hscan; apply Nat.leb_gt, Hlt).
      assert (Hnext : SeqScan.Next eval_conds e = Ret (Some r, e)).
      { unfold SeqScan.Next. rewrite Hscan, Hend.
        unfold SeqScan.get_record.
        rewrite Hrid, Hfh, nth_error_app2 by lia.
        rewrite Nat.sub_diag. reflexivity. }
      assert (Hskip : skipn (S (List.length pre)) (SeqScan.fh_ e) = rest).
      { rewrite Hfh', <- Hlen', skipn_app, skipn_all, Nat.sub_diag.
        reflexivity. }
      rewrite drain_round, Hend, Hnext. simpl bind.
      unfold SeqScan.nextTuple. rewrite Hscan.
      apply Nat.ltb_lt in Hlt. rewrite Hlt, Hskip, Hrid.
      destruct (SeqScan.seek eval_conds (SeqScan.cols_ e) (SeqScan.fed_conds_ e)
                  rest (S (List.length pre)) (List.length pre))
        as [pos2 rid2] eqn:Eseek.
      simpl bind.
      rewrite (IH (pre ++ [r]) (List.length pre) fuel
                  (SeqScan.with_scan e pos2 rid2)).
      * reflexivity.
      * exact Hfh'.
      * simpl SeqScan.cols_. simpl SeqScan.fed_conds_.
        rewrite Hlen', Eseek. split; reflexivity.
      * lia.
    + apply (IH (pre ++ [r]) (List.length pre) fuel e Hfh').
      * rewrite Hlen'. exact Hst.
      * simpl in Hfuel. lia.
Qed.

(** X29. Reading a scan from [beginTuple] to its end with [Next] and
    [nextTuple] gives the records of the file that satisfy
    [fed_conds_], each once and in the order of the file; no call
    throws, and the loop ends after at most as many rounds as the file
    has records. *)
Theorem scan_returns_the_matching_records
    (e : SeqScan.SeqScanExecutor RmRecord) (extra : nat) :
  drain eval_conds (List.length (SeqScan.fh_ e) + extra)
        (SeqScan.beginTuple eval_conds e)
  = Ret (filter (eval_conds (SeqScan.cols_ e) (SeqScan.fed_conds_ e))
                (SeqScan.fh_ e)).
Proof.
  assert (Hfields : SeqScan.fh_ (SeqScan.beginTuple eval_conds e)
                    = SeqScan.fh_ e
                    /\ SeqScan.cols_ (SeqScan.beginTuple eval_conds e)
                       = SeqScan.cols_ e
                    /\ SeqScan.fed_conds_ (SeqScan.beginTuple eval_conds e)
                       = SeqScan.fed_conds_ e).
  { unfold SeqScan.beginTuple. destruct (SeqScan.seek _ _ _ _ _ _).
    repeat split. }
  destruct Hfields as [Hfh [Hcols Hfed]].
  rewrite <- Hcols, <- Hfed, <- Hfh.
  apply (drain_seek (SeqScan.fh_ (SeqScan.beginTuple eval_conds e)) []
           (SeqScan.rid_ e)).
  - reflexivity.
  - rewrite Hcols, Hfed, Hfh. unfold SeqScan.beginTuple. simpl List.length.
    destruct (SeqScan.seek _ _ _ _ _ _). split; reflexivity.
  - lia.
Qed.

(** X30. On a started scan [Next] does not move: the executor after
    the call is the executor before it, so a second call returns the
    same record. At the end of a started scan [nextTuple] does not
    throw and leaves the executor as it is. *)
Theorem started_scan_stays (e : SeqScan.SeqScanExecutor RmRecord) :
  SeqScan.scan_ e <> None ->
  (forall record e1,
      SeqScan.Next eval_conds e = Ret (record, e1) ->
      e1 = e /\ SeqScan.Next eval_conds e1 = Ret (record, e1))
  /\ (SeqScan.is_end e = true -> SeqScan.nextTuple eval_conds e = Ret e).
Proof.
  intros Hstarted. split.
  - intros record e1 Hnext.
    assert (E : e1 = e).
    { unfold SeqScan.Next in Hnext.
      destruct (SeqScan.scan_ e) as [pos|]; [|contradiction].
      destruct (SeqScan.is_end e); [inversion Hnext; reflexivity|].
      destruct (SeqScan.get_record (SeqScan.fh_ e) (SeqScan.rid_ e));
        simpl in Hnext; inversion Hnext. reflexivity. }
    split; [exact E|]. rewrite E. rewrite E in Hnext. exact Hnext.
  - intros Hend. unfold SeqScan.nextTuple, SeqScan.is_end in *.
    destruct e as [tab conds fh cols fed rid [pos|]]; simpl in *;
      [|contradiction].
    apply Nat.leb_le in Hend.
    destruct (Nat.ltb_spec pos (List.length fh)); [lia|].
    rewrite skipn_all2 by exact Hend. simpl. reflexivity.
Qed.

End ScanLoopProperties.

Lemma started_scan_stays_witness :
  (forall record e1,
      SeqScan.Next above_five (SeqScan.beginTuple above_five fresh_executor)
      = Ret (record, e1) ->
      e1 = SeqScan.beginTuple above_five fresh_executor
      /\ SeqScan.Next above_five e1 = Ret (record, e1))
  /\ SeqScan.nextTuple above_five finished_executor = Ret finished_executor.
Proof.
  split.
  - apply (proj1 (started_scan_stays Z above_five
                    (SeqScan.beginTuple above_five fresh_executor)
                    ltac:(vm_compute; discriminate))).
  - apply (proj2 (started_scan_stays Z above_five finished_executor
                    ltac:(vm_compute; discriminate))).
    reflexivity.
Defined.

(* ===================================================================== *)
(** ** Cardinality estimation in [double] (C9) *)
(* ===================================================================== *)

Local Open Scope Z_scope.

(** *** Shifting with the round and sticky bits *)

Lemma iter_pos_nat {A : Type} (f : A -> A) (p : positive) :
  forall x, iter_pos f p x = Nat.iter (Pos.to_nat p) f x.
Proof.
  induction p as [p IH|p IH|]; intros x; cbn [iter_pos].
  - rewrite !IH, Pos2Nat.inj_xI.
    replace (S (2 * Pos.to_nat p)) with (Pos.to_nat p + (Pos.to_nat p + 1))%nat
      by lia.
    rewrite !Nat.iter_add. reflexivity.
  - rewrite !IH, Pos2Nat.inj_xO.
    replace (2 * Pos.to_nat p)%nat with (Pos.to_nat p + Pos.to_nat p)%nat by lia.
    rewrite Nat.iter_add. reflexivity.
  - reflexivity.
Qed.

Lemma shr_1_inv (m0 k : Z) (mrs : shr_record) :
  0 <= k -> shr_inv m0 k mrs -> shr_inv m0 (k + 1) (shr_1 mrs).
Proof.
  intros Hk [Hm [rem [Hm0 [Hrem [Hzero Hloc]]]]].
  assert (Hp : 0 < 2 ^ k) by (apply Z.pow_pos_nonneg; lia).
  unfold shr_inv.
  replace (2 ^ (k + 1)) with (2 * 2 ^ k)
    by (rewrite Z.pow_add_r by lia; change (2 ^ 1) with 2; lia).
  destruct mrs as [m r s]. cbn [shr_m shr_r shr_s] in *.
  unfold loc_ok in *.
  destruct m as [|[p|p|]|p]; cbn [shr_1 shr_m shr_r shr_s]; try lia.
  - (* m = 0 *)
    split; [lia|]. exists rem.
    destruct r, s; cbn [orb]; repeat split; try lia.
  - (* m = 2p+1 *)
    split; [lia|]. exists (2 ^ k + rem).
    rewrite Pos2Z.inj_xI in Hm0.
    destruct r, s; cbn [orb]; repeat split; try lia.
  - split; [lia|]. exists rem.
    rewrite Pos2Z.inj_xO in Hm0.
    destruct r, s; cbn [orb]; repeat split; try lia.
  - split; [lia|]. exists (2 ^ k + rem).
    destruct r, s; cbn [orb]; repeat split; try lia.
Qed.

Lemma shr_iter_inv (m0 : Z) (j : nat) :
  0 <= m0 ->
  shr_inv m0 (Z.of_nat j)
          (Nat.iter j shr_1 {| shr_m := m0; shr_r := false; shr_s := false |}).
Proof.
  intros Hm0. induction j as [|j IH].
  - simpl. unfold shr_inv, loc_ok. simpl. split; [exact Hm0|].
    exists 0. repeat split; lia.
  - rewrite Nat2Z.inj_succ. unfold Z.succ.
    change (Nat.iter (S j) shr_1 ?x) with (shr_1 (Nat.iter j shr_1 x)).
    apply shr_1_inv; [lia | exact IH].
Qed.

(** Rounding to nearest, ties to even, moves by half a unit at most. *)
Lemma round_nearest_even_inv (m0 k : Z) (mrs : shr_record) :
  shr_inv m0 k mrs ->
  let m2 := round_nearest_even (shr_m mrs) (loc_of_shr_record mrs) in
  shr_m mrs <= m2 <= shr_m mrs + 1
  /\ - 2 ^ k <= 2 * (m2 * 2 ^ k - m0) <= 2 ^ k.
Proof.
  intros [Hm [rem [Hm0 [Hrem [_ Hloc]]]]].
  destruct mrs as [m r s]. cbn [shr_m shr_r shr_s] in *.
  unfold loc_ok in Hloc.
  destruct r, s; cbn [loc_of_shr_record round_nearest_even];
    try destruct (Z.even m); cbv zeta; split; try lia; nia.
Qed.

Lemma shr_pos (mrs : shr_record) (e z : Z) :
  0 < z -> shr mrs e z = (Nat.iter (Z.to_nat z) shr_1 mrs, e + z).
Proof.
  destruct z as [|p|p]; try lia. intros _.
  unfold shr. rewrite iter_pos_nat. reflexivity.
Qed.

(** *** The number of binary digits *)

Lemma digits2_pos_size (p : positive) : digits2_pos p = Pos.size p.
Proof. induction p; simpl; congruence. Qed.

Lemma digits_bounds (p : positive) :
  2 ^ (Z.pos (digits2_pos p) - 1) <= Z.pos p < 2 ^ Z.pos (digits2_pos p).
Proof.
  rewrite digits2_pos_size.
  pose proof (Pos.size_gt p) as Hgt. pose proof (Pos.size_le p) as Hle.
  apply Pos2Z.pos_lt_pos in Hgt. apply Pos2Z.pos_le_pos in Hle.
  rewrite Pos2Z.inj_pow in Hgt, Hle.
  change (Z.pos p~0) with (2 * Z.pos p) in Hle.
  split; [|exact Hgt].
  assert (H2 : 2 ^ Z.pos (Pos.size p) = 2 * 2 ^ (Z.pos (Pos.size p) - 1)).
  { rewrite <- Z.pow_succ_r by lia. f_equal. lia. }
  lia.
Qed.

Lemma digits_unique (p : positive) (d : Z) :
  2 ^ (d - 1) <= Z.pos p < 2 ^ d -> Z.pos (digits2_pos p) = d.
Proof.
  intros [Hlo Hhi]. pose proof (digits_bounds p) as [Blo Bhi].
  set (D := Z.pos (digits2_pos p)) in *.
  assert (HD : 0 < D) by (unfold D; lia).
  destruct (Z.lt_trichotomy D d) as [Hlt|[Heq|Hgt]]; [|exact Heq|].
  - assert (2 ^ D <= 2 ^ (d - 1)) by (apply Z.pow_le_mono_r; lia). lia.
  - assert (0 <= d).
    { destruct (Z.le_gt_cases 0 d); [assumption|].
      rewrite (Z.pow_neg_r 2 d) in Hhi by lia. lia. }
    assert (2 ^ d <= 2 ^ (D - 1)) by (apply Z.pow_le_mono_r; lia). lia.
Qed.

(** *** Rounding in binary64 *)

Lemma fexp_normal (e : Z) :
  -1074 <= e - 53 -> fexp prec emax e = e - 53.
Proof. unfold fexp, emin, prec, emax. lia. Qed.

(** A significand of 53 digits is not rounded. *)
Lemma binary_round_aux_exact (mz : positive) (ez : Z) :
  Z.pos (digits2_pos mz) = 53 ->
  -1074 <= ez <= 971 ->
  binary_round_aux prec emax false (Z.pos mz) ez loc_Exact
  = S754_finite false mz ez.
Proof.
  intros Hd He.
  assert (Hshift : shr_fexp prec emax (Z.pos mz) ez loc_Exact
                   = ({| shr_m := Z.pos mz; shr_r := false; shr_s := false |},
                      ez)).
  { unfold shr_fexp. cbn [Zdigits2]. rewrite Hd, fexp_normal by lia.
    replace (53 + ez - 53 - ez) with 0 by lia. reflexivity. }
  unfold binary_round_aux. rewrite Hshift.
  cbn [shr_m loc_of_shr_record round_nearest_even]. rewrite Hshift.
  cbn [shr_m].
  replace (ez <=? emax - prec) with true
    by (symmetry; apply Z.leb_le; unfold emax, prec; lia).
  reflexivity.
Qed.

(** A significand of more than 53 digits is shifted and rounded to
    nearest: the result differs from the exact value by half a unit of
    the last place at most. *)
Lemma binary_round_aux_rounds (mx : positive) (ex D : Z) :
  Z.pos (digits2_pos mx) = D ->
  54 <= D ->
  -1074 <= ex + (D - 53) ->
  ex + (D - 53) + 1 <= 971 ->
  exists m3 e3 m2,
    binary_round_aux prec emax false (Z.pos mx) ex loc_Exact
    = S754_finite false m3 e3
    /\ - 2 ^ (D - 53) <= 2 * (m2 * 2 ^ (D - 53) - Z.pos mx) <= 2 ^ (D - 53)
    /\ ((e3 = ex + (D - 53) /\ Z.pos m3 = m2)
        \/ (e3 = ex + (D - 53) + 1 /\ 2 * Z.pos m3 = m2)).
Proof.
  intros Hd HD Hlo Hhi.
  set (s := D - 53) in *.
  assert (Hs : 0 < s) by (unfold s; lia).
  pose proof (digits_bounds mx) as [Blo Bhi]. rewrite Hd in Blo, Bhi.
  assert (Hpow : 2 ^ D = 2 ^ 53 * 2 ^ s)
    by (rewrite <- Z.pow_add_r by lia; f_equal; unfold s; lia).
  assert (Hpow1 : 2 ^ (D - 1) = 2 ^ 52 * 2 ^ s)
    by (rewrite <- Z.pow_add_r by lia; f_equal; unfold s; lia).
  assert (Hps : 0 < 2 ^ s) by (apply Z.pow_pos_nonneg; lia).
  set (mrs := Nat.iter (Z.to_nat s) shr_1
                {| shr_m := Z.pos mx; shr_r := false; shr_s := false |}).
  assert (Hshift : shr_fexp prec emax (Z.pos mx) ex loc_Exact = (mrs, ex + s)).
  { unfold shr_fexp. cbn [Zdigits2]. rewrite Hd, fexp_normal by (unfold s in *; lia).
    replace (D + ex - 53 - ex) with s by (unfold s; lia).
    rewrite shr_pos by exact Hs. reflexivity. }
  pose proof (shr_iter_inv (Z.pos mx) (Z.to_nat s) ltac:(lia)) as Hinv.
  rewrite Z2Nat.id in Hinv by lia. fold mrs in Hinv.
  pose proof (round_nearest_even_inv _ _ _ Hinv) as Hround.
  cbv zeta in Hround.
  set (m2 := round_nearest_even (shr_m mrs) (loc_of_shr_record mrs)) in *.
  destruct Hround as [Hm2 Herr].
  destruct Hinv as [Hm1 [rem [Hmx [Hrem _]]]].
  assert (Hm1lo : 2 ^ 52 <= shr_m mrs) by nia.
  assert (Hm1hi : shr_m mrs < 2 ^ 53) by nia.
  unfold binary_round_aux. rewrite Hshift. fold m2.
  destruct (Z.eq_dec m2 (2 ^ 53)) as [Etop|Etop].
  - (* the rounded significand has 54 digits *)
    exists (2 ^ 52)%positive, (ex + s + 1), m2.
    split; [|split; [exact Herr | right; split; [reflexivity|]]].
    + rewrite Etop.
      assert (Hshift2 : shr_fexp prec emax (2 ^ 53) (ex + s) loc_Exact
                        = ({| shr_m := 2 ^ 52; shr_r := false; shr_s := false |},
                           ex + s + 1)).
      { unfold shr_fexp. change (Zdigits2 (2 ^ 53)) with 54.
        rewrite fexp_normal by lia.
        replace (54 + (ex + s) - 53 - (ex + s)) with 1 by lia.
        reflexivity. }
      rewrite Hshift2. cbn [shr_m]. change (2 ^ 52) with (Z.pos (2 ^ 52)).
      cbv iota.
      replace (ex + s + 1 <=? emax - prec) with true
        by (symmetry; apply Z.leb_le; unfold emax, prec; lia).
      reflexivity.
    + rewrite Etop. reflexivity.
  - assert (Hm2pos : 0 < m2) by lia.
    destruct m2 as [|q|q] eqn:Em2; try lia.
    exists q, (ex + s), (Z.pos q).
    split; [|split; [exact Herr | left; split; reflexivity]].
    assert (Hq : Z.pos (digits2_pos q) = 53)
      by (apply digits_unique; change (53 - 1) with 52; lia).
    assert (Hshift2 : shr_fexp prec emax (Z.pos q) (ex + s) loc_Exact
                      = ({| shr_m := Z.pos q; shr_r := false; shr_s := false |},
                         ex + s)).
    { unfold shr_fexp. cbn [Zdigits2]. rewrite Hq, fexp_normal by lia.
      replace (53 + (ex + s) - 53 - (ex + s)) with 0 by lia. reflexivity. }
    rewrite Hshift2. cbn [shr_m].
    replace (ex + s <=? emax - prec) with true
      by (symmetry; apply Z.leb_le; unfold emax, prec; lia).
    reflexivity.
Qed.

(** *** The conversion of an integer *)

Lemma iter_xO (p k : positive) :
  Z.pos (Pos.iter xO p k) = Z.pos p * 2 ^ Z.pos k.
Proof.
  induction k as [|k IH] using Pos.peano_ind.
  - simpl. lia.
  - rewrite Pos.iter_succ, Pos2Z.inj_xO, IH, Pos2Z.inj_succ.
    rewrite Z.pow_succ_r by lia. lia.
Qed.

Lemma shl_align_left (mx : positive) (ex ex' : Z) :
  ex' < ex ->
  exists mz,
    shl_align mx ex ex' = (mz, ex') /\ Z.pos mz = Z.pos mx * 2 ^ (ex - ex').
Proof.
  intros H. unfold shl_align.
  destruct (ex' - ex) as [|d|d] eqn:E; try lia.
  exists (Pos.iter xO mx d). split; [reflexivity|].
  rewrite iter_xO. f_equal. f_equal. lia.
Qed.

(** An integer below [2^53] is converted exactly. *)
Lemma size_t_to_double_exact (n : Z) :
  0 < n < 2 ^ 52 ->
  exists mz d,
    Prim2SF (size_t_to_double n) = S754_finite false mz (d - 53)
    /\ Z.pos mz = n * 2 ^ (53 - d)
    /\ 1 <= d <= 52
    /\ 2 ^ (d - 1) <= n < 2 ^ d.
Proof.
  intros [Hlo Hhi]. unfold size_t_to_double.
  assert (H63 : n < 2 ^ 63) by (change (2 ^ 52) with 4503599627370496 in Hhi;
                                change (2 ^ 63) with 9223372036854775808; lia).
  destruct (Z.ltb_spec n (2 ^ 63)) as [_|]; [|lia].
  rewrite of_uint63_spec, Uint63.of_Z_spec.
  rewrite Z.mod_small by (change wB with (2 ^ 63); lia).
  destruct n as [|p|p]; try lia.
  cbn [binary_normalize]. unfold binary_round.
  pose proof (digits_bounds p) as [Blo Bhi].
  set (d := Z.pos (digits2_pos p)) in *.
  assert (Hd : 1 <= d <= 52).
  { split; [unfold d; lia|].
    destruct (Z.le_gt_cases d 52) as [|Hgt]; [assumption|].
    assert (2 ^ 52 <= 2 ^ (d - 1)) by (apply Z.pow_le_mono_r; lia). lia. }
  rewrite Z.add_0_r, fexp_normal by lia.
  destruct (shl_align_left p 0 (d - 53) ltac:(lia)) as [mz [Hal Hmz]].
  rewrite Hal.
  replace (0 - (d - 53)) with (53 - d) in Hmz by lia.
  assert (Hpow : 2 ^ 53 = 2 ^ d * 2 ^ (53 - d))
    by (rewrite <- Z.pow_add_r by lia; f_equal; lia).
  assert (Hpow1 : 2 ^ 52 = 2 ^ (d - 1) * 2 ^ (53 - d))
    by (rewrite <- Z.pow_add_r by lia; f_equal; lia).
  assert (Hps : 0 < 2 ^ (53 - d)) by (apply Z.pow_pos_nonneg; lia).
  assert (Hdig : Z.pos (digits2_pos mz) = 53).
  { apply digits_unique. change (53 - 1) with 52. rewrite Hmz, Hpow, Hpow1.
    split; [apply Z.mul_le_mono_nonneg_r; lia
           | apply Z.mul_lt_mono_pos_r; lia]. }
  rewrite binary_round_aux_exact by (exact Hdig || lia).
  exists mz, d. repeat split; try lia; assumption.
Qed.

(** *** The product with 0.7 *)

Lemma enclosure (n A Sp Tp m2 : Z) :
  0 < n < 2 ^ 49 ->
  0 < A -> 0 < Sp -> 16 <= Tp ->
  Sp * Tp = A * 2 ^ 53 ->
  - Sp <= 2 * (m2 * Sp - n * A * 6305039478318694) <= Sp ->
  7 * n / 10 - 1 <= m2 / Tp <= 7 * n / 10
  /\ (n mod 10 <> 0 -> m2 / Tp = 7 * n / 10).
Proof.
  change (2 ^ 49) with 562949953421312.
  change (2 ^ 53) with 9007199254740992.
  intros Hn HA HSp HTp Hprod Herr.
  set (r := m2 / Tp). set (F := 7 * n / 10).
  assert (Hr : Tp * r <= m2 < Tp * (r + 1)).
  { unfold r. split; [apply Z.mul_div_le; lia|].
    pose proof (Z.mul_succ_div_gt m2 Tp ltac:(lia)). lia. }
  assert (HF : 10 * F <= 7 * n < 10 * F + 10).
  { unfold F. split; [apply Z.mul_div_le; lia|].
    pose proof (Z.mul_succ_div_gt (7 * n) 10 ltac:(lia)). lia. }
  set (X := A * 9007199254740992) in *.
  set (Y := n * A) in *.
  set (W := m2 * Sp) in *.
  assert (HX : 0 < X) by (unfold X; lia).
  assert (HY : 16 * Y < X) by (unfold X, Y; nia).
  assert (HS16 : 16 * Sp <= X) by nia.
  assert (HW : r * X <= W < (r + 1) * X).
  { rewrite <- Hprod. unfold W. split; nia. }
  assert (HnX : n * X = Y * 9007199254740992) by (unfold X, Y; ring).
  assert (Hlow : F - 1 <= r).
  { destruct (Z.le_gt_cases (F - 1) r) as [|Hc]; [assumption|exfalso].
    assert ((r + 1) * X <= (F - 1) * X)
      by (apply Z.mul_le_mono_nonneg_r; lia).
    assert (10 * (F * X) <= 7 * (n * X)) by nia.
    lia. }
  assert (Hhigh : r <= F).
  { destruct (Z.le_gt_cases r F) as [|Hc]; [assumption|exfalso].
    assert ((F + 1) * X <= r * X)
      by (apply Z.mul_le_mono_nonneg_r; lia).
    assert (7 * (n * X) + X <= 10 * ((F + 1) * X)) by nia.
    lia. }
  split; [split; assumption|].
  intros Hmod.
  assert (H7 : 10 * F + 1 <= 7 * n).
  { destruct (Z.eq_dec (7 * n) (10 * F)) as [E|E]; [|lia].
    exfalso. apply Hmod.
    assert (Hdiv : (7 * n) mod 10 = 0)
      by (rewrite E, Z.mul_comm; apply Z.mod_mul; lia).
    pose proof (Z.mod_pos_bound n 10 ltac:(lia)) as Hb.
    rewrite <- Z.mul_mod_idemp_r in Hdiv by lia.
    set (q := n mod 10) in *.
    assert (Hq : q = 0 \/ q = 1 \/ q = 2 \/ q = 3 \/ q = 4 \/ q = 5
                 \/ q = 6 \/ q = 7 \/ q = 8 \/ q = 9) by lia.
    destruct Hq as [Hq|[Hq|[Hq|[Hq|[Hq|[Hq|[Hq|[Hq|[Hq|Hq]]]]]]]]];
      rewrite Hq in Hdiv |- *; try reflexivity; vm_compute in Hdiv;
      discriminate. }
  destruct (Z.le_gt_cases F r) as [|Hc]; [lia|exfalso].
  assert ((r + 1) * X <= F * X) by (apply Z.mul_le_mono_nonneg_r; lia).
  assert (10 * (F * X) + X <= 7 * (n * X)) by nia.
  lia.
Qed.

Lemma utilization_spec :
  Prim2SF utilization = S754_finite false 6305039478318694 (-53).
Proof. vm_compute. reflexivity. Qed.

(** The product of an integer below [2^49] with the [double] 0.7, cut
    to an integer, is the exact product cut to an integer or one less,
    and the exact one unless [n] is a multiple of 10. *)
Lemma product_with_utilization (n : Z) :
  0 <= n < 2 ^ 49 ->
  let r := double_to_size_t
             (PrimFloat.mul (size_t_to_double n) utilization) in
  7 * n / 10 - 1 <= r <= 7 * n / 10
  /\ (n mod 10 <> 0 -> r = 7 * n / 10).
Proof.
  intros [Hn0 Hn]. cbv zeta.
  destruct (Z.eq_dec n 0) as [E0|E0].
  { subst n. vm_compute. split; [split; discriminate|]. intros H; contradiction. }
  assert (H52 : n < 2 ^ 52)
    by (change (2 ^ 49) with 562949953421312 in Hn;
        change (2 ^ 52) with 4503599627370496; lia).
  destruct (size_t_to_double_exact n ltac:(lia)) as [mz [d [Hsf [Hmz [Hd Hnd]]]]].
  assert (Hd49 : d <= 49).
  { destruct (Z.le_gt_cases d 49) as [|Hgt]; [assumption|].
    assert (2 ^ 49 <= 2 ^ (d - 1)) by (apply Z.pow_le_mono_r; lia). lia. }
  set (A := 2 ^ (53 - d)) in *.
  assert (HA : 0 < A) by (apply Z.pow_pos_nonneg; lia).
  assert (Hpow : 2 ^ 53 = 2 ^ d * A)
    by (unfold A; rewrite <- Z.pow_add_r by lia; f_equal; lia).
  assert (Hpow1 : 2 ^ 52 = 2 ^ (d - 1) * A)
    by (unfold A; rewrite <- Z.pow_add_r by lia; f_equal; lia).
  assert (Hmzb : 2 ^ 52 <= Z.pos mz < 2 ^ 53).
  { rewrite Hmz, Hpow, Hpow1.
    split; [apply Z.mul_le_mono_nonneg_r; lia
           | apply Z.mul_lt_mono_pos_r; lia]. }
  unfold double_to_size_t.
  rewrite FloatAxioms.mul_spec, Hsf, utilization_spec.
  unfold SF64mul. cbn [SFmul xorb].
  set (mx := (mz * 6305039478318694)%positive).
  assert (Hmx : Z.pos mx = Z.pos mz * 6305039478318694) by reflexivity.
  pose proof (digits_bounds mx) as [Blo Bhi].
  set (D := Z.pos (digits2_pos mx)) in *.
  assert (HD : 105 <= D <= 106).
  { change (2 ^ 52) with 4503599627370496 in Hmzb.
    change (2 ^ 53) with 9007199254740992 in Hmzb.
    assert (Hl : 2 ^ 104 <= Z.pos mx)
      by (change (2 ^ 104) with (4503599627370496 * 4503599627370496); nia).
    assert (Hh : Z.pos mx < 2 ^ 106)
      by (change (2 ^ 106) with (9007199254740992 * 9007199254740992); nia).
    split.
    - destruct (Z.le_gt_cases 105 D) as [|Hgt]; [assumption|].
      assert (2 ^ D <= 2 ^ 104) by (apply Z.pow_le_mono_r; unfold D in *; lia).
      lia.
    - destruct (Z.le_gt_cases D 106) as [|Hgt]; [assumption|].
      assert (2 ^ 106 <= 2 ^ (D - 1)) by (apply Z.pow_le_mono_r; lia).
      lia. }
  destruct (binary_round_aux_rounds mx (d - 53 + -53) D eq_refl
              ltac:(lia) ltac:(lia) ltac:(lia))
    as [m3 [e3 [m2 [Hres [Herr He3]]]]].
  rewrite Hres.
  set (s := D - 53) in *.
  set (t := 159 - d - D).
  assert (Ht : 4 <= t) by (unfold t; lia).
  assert (HSp : 0 < 2 ^ s) by (apply Z.pow_pos_nonneg; unfold s; lia).
  assert (HTp : 16 <= 2 ^ t)
    by (change 16 with (2 ^ 4); apply Z.pow_le_mono_r; lia).
  assert (Hprod : 2 ^ s * 2 ^ t = A * 2 ^ 53).
  { unfold A. rewrite <- !Z.pow_add_r by (unfold s; lia).
    f_equal. unfold s, t. lia. }
  assert (Hval : (if 0 <=? e3 then Z.pos m3 * 2 ^ e3
                  else Z.pos m3 / 2 ^ (- e3)) = m2 / 2 ^ t).
  { destruct He3 as [[He Hm]|[He Hm]].
    - destruct (Z.leb_spec 0 e3) as [Hc|Hc]; [unfold s in *; lia|].
      rewrite Hm. f_equal. f_equal. unfold t, s in *. lia.
    - destruct (Z.leb_spec 0 e3) as [Hc|Hc]; [unfold s in *; lia|].
      rewrite <- Hm.
      replace (2 ^ t) with (2 * 2 ^ (- e3)).
      + rewrite Z.div_mul_cancel_l; [reflexivity | | lia].
        apply Z.pow_nonzero; lia.
      + rewrite <- Z.pow_succ_r by lia. f_equal. unfold t, s in *. lia. }
  rewrite Hval.
  rewrite Hmx, Hmz in Herr.
  apply (enclosure n A (2 ^ s) (2 ^ t) m2); try assumption; lia.
Qed.

(** C9, amended. For a table whose file is open and whose header is
    read, with at least the header page, a record count per page that
    is not negative and a capacity [(num_pages - 1) * num_records_per_page]
    below [2^49], the estimate is [max(1, capacity * 0.7)] cut to an
    integer, or one less, and it is that value when the capacity is not
    a multiple of 10: the product with [0.7] is taken in [double]. For
    every capacity within [size_t] the estimate is the [double] product
    cut to an integer, and at least [1]. When the file is not open or
    reading the header throws, the estimate is [1000]. An estimate is
    never [0], no exception leaves the estimation, and none leaves the
    statistics loop of [join_order_optimization]. *)
Theorem estimate_table_cardinality_spec (sm : SmManager) (table_name : string) :
  (forall fh hdr,
      fhs_ sm table_name = Some fh ->
      get_file_hdr fh = Ret hdr ->
      1 <= num_pages hdr ->
      0 <= num_records_per_page hdr ->
      (num_pages hdr - 1) * num_records_per_page hdr < 2 ^ 49 ->
      exists n,
        estimate_table_cardinality sm table_name = Ret n
        /\ claimed_estimate hdr - 1 <= n <= claimed_estimate hdr
        /\ (((num_pages hdr - 1) * num_records_per_page hdr) mod 10 <> 0 ->
            n = claimed_estimate hdr))
  /\ (forall fh hdr,
      fhs_ sm table_name = Some fh ->
      get_file_hdr fh = Ret hdr ->
      1 <= num_pages hdr ->
      0 <= num_records_per_page hdr ->
      (num_pages hdr - 1) * num_records_per_page hdr < 2 ^ 64 ->
      estimate_table_cardinality sm table_name
      = Ret (Z.max 1
               (double_to_size_t
                  (PrimFloat.mul
                     (size_t_to_double
                        ((num_pages hdr - 1) * num_records_per_page hdr))
                     utilization))))
  /\ (fhs_ sm table_name = None ->
      estimate_table_cardinality sm table_name = Ret 1000)
  /\ (forall fh e,
         fhs_ sm table_name = Some fh ->
         get_file_hdr fh = Throw e ->
         estimate_table_cardinality sm table_name = Ret 1000)
  /\ (forall n,
         estimate_table_cardinality sm table_name = Ret n -> 1 <= n)
  /\ (forall e, estimate_table_cardinality sm table_name <> Throw e)
  /\ (forall tabs e, collect_table_stats sm tabs <> Throw e).
Proof.
  assert (Hvalue : forall fh hdr,
      fhs_ sm table_name = Some fh ->
      get_file_hdr fh = Ret hdr ->
      1 <= num_pages hdr ->
      0 <= num_records_per_page hdr ->
      (num_pages hdr - 1) * num_records_per_page hdr < 2 ^ 64 ->
      estimate_table_cardinality sm table_name
      = Ret (Z.max 1
               (double_to_size_t
                  (PrimFloat.mul
                     (size_t_to_double
                        ((num_pages hdr - 1) * num_records_per_page hdr))
                     utilization)))).
  { intros fh hdr Hfh Hhdr Hp Hr Hprod.
    unfold estimate_table_cardinality. rewrite Hfh, Hhdr. simpl bind.
    unfold try_catch_all. f_equal. unfold estimate_of_hdr, to_size_t.
    assert (Harg :
      ((if num_pages hdr >? 1 then num_pages hdr - 1 else 0)
       * (num_records_per_page hdr mod 2 ^ 64)) mod 2 ^ 64
      = (num_pages hdr - 1) * num_records_per_page hdr).
    { destruct (Z.gtb_spec (num_pages hdr) 1) as [Hgt|Hle].
      - assert (num_records_per_page hdr < 2 ^ 64) by nia.
        rewrite (Z.mod_small (num_records_per_page hdr)) by lia.
        apply Z.mod_small. nia.
      - replace (num_pages hdr - 1) with 0 by lia. reflexivity. }
    rewrite Harg.
    match goal with |- context [(?x >? 0)] => destruct (Z.gtb_spec x 0) end;
      lia. }
  split; [|split; [exact Hvalue|split; [|split; [|split; [|split]]]]].
  - intros fh hdr Hfh Hhdr Hp Hr Hprod.
    set (n := (num_pages hdr - 1) * num_records_per_page hdr) in *.
    assert (Hn : 0 <= n) by (unfold n; nia).
    assert (H64 : n < 2 ^ 64)
      by (change (2 ^ 49) with 562949953421312 in Hprod;
          change (2 ^ 64) with 18446744073709551616; lia).
    rewrite (Hvalue fh hdr Hfh Hhdr Hp Hr H64). fold n.
    destruct (product_with_utilization n (conj Hn Hprod)) as [Hr1 Hr2].
    set (r := double_to_size_t
                (PrimFloat.mul (size_t_to_double n) utilization)) in *.
    unfold claimed_estimate. fold n.
    replace (n * 7 / 10) with (7 * n / 10) by (f_equal; lia).
    exists (Z.max 1 r). split; [reflexivity|]. split; [lia|].
    intros Hmod. rewrite (Hr2 Hmod). reflexivity.
  - intros Hfh. unfold estimate_table_cardinality. rewrite Hfh. reflexivity.
  - intros fh e Hfh Hhdr.
    unfold estimate_table_cardinality. rewrite Hfh, Hhdr. reflexivity.
  - intros n Hn.
    destruct (@estimate_table_cardinality_cases sm table_name)
      as [H|[H|[m [H Hm]]]]; rewrite H in Hn; try discriminate.
    inversion Hn; subst. exact Hm.
  - intros e He.
    destruct (@estimate_table_cardinality_cases sm table_name)
      as [H|[H|[m [H Hm]]]]; rewrite H in He; discriminate.
  - intros tabs e. apply collect_table_stats_no_throw.
Qed.

(** Table [b]: one data page of 15 records, estimated at 10 rows, which
    is [15 * 0.7] cut to an integer. *)
Lemma estimate_table_cardinality_spec_witness :
  (exists n,
      estimate_table_cardinality sm_abc "b" = Ret n
      /\ claimed_estimate (mkFileHdr 2 15) - 1 <= n
         <= claimed_estimate (mkFileHdr 2 15)
      /\ (((2 - 1) * 15) mod 10 <> 0 -> n = claimed_estimate (mkFileHdr 2 15)))
  /\ estimate_table_cardinality sm_abc "b" = Ret 10.
Proof.
  split.
  - exact (proj1 (estimate_table_cardinality_spec sm_abc "b")
             (mkFileHandle (Ret (mkFileHdr 2 15))) (mkFileHdr 2 15)
             eq_refl eq_refl
             ltac:(simpl; lia) ltac:(simpl; lia) ltac:(simpl; lia)).
  - exact (proj1 (proj2 (estimate_table_cardinality_spec sm_abc "b"))
             (mkFileHandle (Ret (mkFileHdr 2 15))) (mkFileHdr 2 15)
             eq_refl eq_refl
             ltac:(simpl; lia) ltac:(simpl; lia) ltac:(simpl; lia)).
Defined.
